(** * Game engine of the bingo backend: a shallow embedding

    The development follows [services/gameEngine.js] (class [GameEngine]):
    the card generator [generateCardNumbers], the win predicate
    [checkCardForBingo], the number caller [callNumbers] and the round
    life cycle ([createNewGame], [startGame], [purchaseCard], [joinGame],
    [declareWinner], [endGame], [cancelGame]).

    JavaScript data is modelled as the code has it: objects as records,
    [Map]s as [gmap]s keyed by the round id, arrays as lists, [undefined]
    as [None], thrown errors as the left result of a small state-and-error
    monad.  Money amounts are exact rationals. *)

From Stdlib Require Import QArith Qround Ascii Lqa.
From stdpp Require Import gmap strings list fin_maps pretty sorting.


(** ** Cells, draws and their keys *)

(** The five column letters, in the order of the [ranges] table. *)
Inductive letter := lB | lI | lN | lG | lO.

Global Instance letter_eq_dec : EqDecision letter.
Proof. solve_decision. Defined.

Definition letter_string (l : letter) : string :=
  match l with
  | lB => "B" | lI => "I" | lN => "N" | lG => "G" | lO => "O"
  end.

(** A cell of a card as [generateCardNumbers] builds it.  [number] is
    [None] when the array slot it was read from held [undefined]; [free]
    is absent from every cell but the center one, and absent is falsy. *)
Record Cell := mkCell {
  cell_letter : letter;
  cell_number : option nat;
  cell_called : bool;
  cell_free : bool;
  cell_row : nat;
  cell_col : nat
}.

(** A called number: [{ letter, number, called }]. *)
Record Draw := mkDraw {
  draw_letter : letter;
  draw_number : nat;
  draw_called : bool
}.

Global Instance Draw_eq_dec : EqDecision Draw.
Proof. solve_decision. Defined.

Global Instance Cell_eq_dec : EqDecision Cell.
Proof. solve_decision. Defined.

Abbreviation grid := (list (list Cell)).

(** String conversion inside a template literal. *)
Definition number_string (v : option nat) : string :=
  match v with
  | Some n => pretty n
  | None => "undefined"
  end.

(** [`${cell.letter}${cell.number}`] *)
Definition cell_key (c : Cell) : string :=
  letter_string (cell_letter c) +:+ number_string (cell_number c).

(** [`${n.letter}${n.number}`] *)
Definition draw_key (d : Draw) : string :=
  letter_string (draw_letter d) +:+ pretty (draw_number d).

(** ** The win predicate: [checkCardForBingo] *)

(** [cardNumbers[row][col]]: reading a property of [undefined] throws a
    TypeError, rendered as [None]. *)
Definition cell_at (cardNumbers : grid) (row col : nat) : option Cell :=
  cardNumbers !! row ≫= λ r, r !! col.

(** [calledNumbers.forEach(n => calledSet.add(...))] *)
Definition calledSet_of (calledNumbers : list Draw) : gset string :=
  list_to_set (draw_key <$> calledNumbers).

(** The inner loop of the row and column checks over the cells at
    [coords]: a free cell is skipped ([continue]), the first cell whose key
    is not in the set ends the loop with [complete = false] ([break]). *)
Fixpoint line_complete (calledSet : gset string) (cardNumbers : grid)
    (coords : list (nat * nat)) : option bool :=
  match coords with
  | [] => Some true
  | (row, col) :: rest =>
      match cell_at cardNumbers row col with
      | None => None
      | Some cell =>
          if cell_free cell then line_complete calledSet cardNumbers rest
          else if bool_decide (cell_key cell ∈ calledSet)
               then line_complete calledSet cardNumbers rest
               else Some false
      end
  end.

(** The outer loop: [if (complete) return true] after each line. *)
Fixpoint any_line (calledSet : gset string) (cardNumbers : grid)
    (lines : list (list (nat * nat))) : option bool :=
  match lines with
  | [] => Some false
  | coords :: rest =>
      match line_complete calledSet cardNumbers coords with
      | None => None
      | Some true => Some true
      | Some false => any_line calledSet cardNumbers rest
      end
  end.

Definition row_coords (row : nat) : list (nat * nat) :=
  (λ col, (row, col)) <$> seq 0 5.
Definition col_coords (col : nat) : list (nat * nat) :=
  (λ row, (row, col)) <$> seq 0 5.

(** The diagonal loop reads both cells at every [i] and has no [break]. *)
Fixpoint diagonals (calledSet : gset string) (cardNumbers : grid)
    (idx : list nat) (diag1 diag2 : bool) : option (bool * bool) :=
  match idx with
  | [] => Some (diag1, diag2)
  | i :: rest =>
      match cell_at cardNumbers i i with
      | None => None
      | Some cell1 =>
          let diag1 :=
            if negb (cell_free cell1)
               && negb (bool_decide (cell_key cell1 ∈ calledSet))
            then false else diag1 in
          match cell_at cardNumbers i (4 - i) with
          | None => None
          | Some cell2 =>
              let diag2 :=
                if negb (cell_free cell2)
                   && negb (bool_decide (cell_key cell2 ∈ calledSet))
                then false else diag2 in
              diagonals calledSet cardNumbers rest diag1 diag2
          end
      end
  end.

Definition checkCardForBingo (cardNumbers : grid) (calledNumbers : list Draw)
    : option bool :=
  let calledSet := calledSet_of calledNumbers in
  match any_line calledSet cardNumbers (row_coords <$> seq 0 5) with
  | None => None
  | Some true => Some true
  | Some false =>
      match any_line calledSet cardNumbers (col_coords <$> seq 0 5) with
      | None => None
      | Some true => Some true
      | Some false =>
          match diagonals calledSet cardNumbers (seq 0 5) true true with
          | None => None
          | Some (diag1, diag2) => Some (diag1 || diag2)
          end
      end
  end.

(** The predicate in the words of the specification: a cell is matched when
    its letter and number are those of a called draw; a line wins when each
    of its cells is free or matched. *)
Definition matched (calledNumbers : list Draw) (c : Cell) : Prop :=
  ∃ d, d ∈ calledNumbers ∧ draw_letter d = cell_letter c
       ∧ cell_number c = Some (draw_number d).

Definition line_wins (cardNumbers : grid) (calledNumbers : list Draw)
    (coords : list (nat * nat)) : Prop :=
  ∀ row col, (row, col) ∈ coords →
    ∃ c, cell_at cardNumbers row col = Some c
         ∧ (cell_free c = true ∨ matched calledNumbers c).

Definition diag1_coords : list (nat * nat) := (λ i, (i, i)) <$> seq 0 5.
Definition diag2_coords : list (nat * nat) := (λ i, (i, 4 - i)) <$> seq 0 5.

Definition bingo (cardNumbers : grid) (calledNumbers : list Draw) : Prop :=
  (∃ row, row < 5 ∧ line_wins cardNumbers calledNumbers (row_coords row))
  ∨ (∃ col, col < 5 ∧ line_wins cardNumbers calledNumbers (col_coords col))
  ∨ line_wins cardNumbers calledNumbers diag1_coords
  ∨ line_wins cardNumbers calledNumbers diag2_coords.

(** Five rows of five cells. *)
Definition is_5x5 (cardNumbers : grid) : Prop :=
  length cardNumbers = 5 ∧ Forall (λ r, length r = 5) cardNumbers.

(** ** JavaScript numbers and the conversion of a string to a number *)

(** A number is NaN, an infinity or a finite value.  Finite values are
    kept as exact rationals: the rounding of a finite value to the nearest
    double is not modelled, the overflow of a literal to an infinity is. *)
Inductive number :=
| NaN
| Infinity (negative : bool)
| Finite (q : Q).

Definition is_NaN (x : number) : bool :=
  match x with NaN => true | _ => false end.

(** The phases of reading a [StringNumericLiteral] (ECMAScript,
    StringToNumber), one character at a time. *)
Inductive phase :=
| PStart                 (* leading white space, nothing read yet *)
| PSign                  (* after a leading + or - *)
| PZero                  (* an unsigned single 0: may begin 0x, 0o, 0b *)
| PInt                   (* in the integer digits *)
| PDot                   (* a dot with no digit before it *)
| PFrac                  (* after the dot, the mantissa has a digit *)
| PExpMark               (* after e or E *)
| PExpSign               (* after the sign of the exponent *)
| PExp                   (* in the digits of the exponent *)
| PRadixMark (base : N)  (* after 0x, 0o or 0b: a digit must follow *)
| PRadix (base : N)      (* in the digits of a non-decimal literal *)
| PInf (seen : nat)      (* that many characters of Infinity read *)
| PInfDone
| PDead.

Global Instance phase_eq_dec : EqDecision phase.
Proof. solve_decision. Defined.

Record lexer := mkLexer {
  lx_phase : phase;
  lx_trail : bool;     (* trailing white space has begun *)
  lx_neg : bool;       (* sign of the literal *)
  lx_mant : N;         (* the digits read, as an integer *)
  lx_frac : N;         (* how many of them follow the dot *)
  lx_eneg : bool;      (* sign of the exponent *)
  lx_exp : N           (* the exponent digits, as an integer *)
}.

Definition lexer_init : lexer := mkLexer PStart false false 0 0 false 0.
Definition lexer_dead : lexer := mkLexer PDead false false 0 0 false 0.

Definition set_phase (p : phase) (st : lexer) : lexer :=
  mkLexer p (lx_trail st) (lx_neg st) (lx_mant st) (lx_frac st)
          (lx_eneg st) (lx_exp st).
Definition set_trail (st : lexer) : lexer :=
  mkLexer (lx_phase st) true (lx_neg st) (lx_mant st) (lx_frac st)
          (lx_eneg st) (lx_exp st).
Definition set_neg (b : bool) (st : lexer) : lexer :=
  mkLexer (lx_phase st) (lx_trail st) b (lx_mant st) (lx_frac st)
          (lx_eneg st) (lx_exp st).
Definition set_eneg (b : bool) (st : lexer) : lexer :=
  mkLexer (lx_phase st) (lx_trail st) (lx_neg st) (lx_mant st) (lx_frac st)
          b (lx_exp st).
(** One more mantissa digit [d] in base [base]; [frac] tells whether it
    follows the dot. *)
Definition push_digit (base d : N) (frac : bool) (st : lexer) : lexer :=
  mkLexer (lx_phase st) (lx_trail st) (lx_neg st)
          (lx_mant st * base + d)
          (if frac then lx_frac st + 1 else lx_frac st)%N
          (lx_eneg st) (lx_exp st).
Definition push_exp (d : N) (st : lexer) : lexer :=
  mkLexer (lx_phase st) (lx_trail st) (lx_neg st) (lx_mant st) (lx_frac st)
          (lx_eneg st) (lx_exp st * 10 + d).

(** White space and line terminators among the code units below 256:
    TAB, LF, VT, FF, CR, SP and NBSP. *)
Definition is_white (c : ascii) : bool :=
  let n := N_of_ascii c in
  ((9 <=? n) && (n <=? 13) || (n =? 32) || (n =? 160))%N.

(** The value of [c] as a digit of base [base], if it is one. *)
Definition digit_of (base : N) (c : ascii) : option N :=
  let n := N_of_ascii c in
  let v :=
    if ((48 <=? n) && (n <=? 57))%N then Some (n - 48)%N
    else if ((97 <=? n) && (n <=? 102))%N then Some (n - 87)%N
    else if ((65 <=? n) && (n <=? 70))%N then Some (n - 55)%N
    else None in
  match v with
  | Some d => if (d <? base)%N then Some d else None
  | None => None
  end.

Definition is_char (c : ascii) (s : string) : bool :=
  match s with
  | String a EmptyString => Ascii.eqb c a
  | _ => false
  end.

(** What follows a complete literal: white space, or the given
    continuation. *)
Definition after_literal (c : ascii) (st : lexer) (otherwise : lexer) : lexer :=
  if is_white c then set_trail st else otherwise.

Definition lex_step (st : lexer) (c : ascii) : lexer :=
  if lx_trail st then (if is_white c then st else lexer_dead) else
  match lx_phase st with
  | PStart =>
      if is_white c then st
      else if is_char c "+" then set_phase PSign st
      else if is_char c "-" then set_phase PSign (set_neg true st)
      else if is_char c "0" then set_phase PZero st
      else if is_char c "." then set_phase PDot st
      else if is_char c "I" then set_phase (PInf 1) st
      else match digit_of 10 c with
           | Some d => set_phase PInt (push_digit 10 d false st)
           | None => lexer_dead
           end
  | PSign =>
      if is_char c "." then set_phase PDot st
      else if is_char c "I" then set_phase (PInf 1) st
      else match digit_of 10 c with
           | Some d => set_phase PInt (push_digit 10 d false st)
           | None => lexer_dead
           end
  | PZero =>
      after_literal c st
        (if is_char c "x" || is_char c "X" then set_phase (PRadixMark 16) st
         else if is_char c "o" || is_char c "O" then set_phase (PRadixMark 8) st
         else if is_char c "b" || is_char c "B" then set_phase (PRadixMark 2) st
         else if is_char c "." then set_phase PFrac st
         else if is_char c "e" || is_char c "E" then set_phase PExpMark st
         else match digit_of 10 c with
              | Some d => set_phase PInt (push_digit 10 d false st)
              | None => lexer_dead
              end)
  | PInt =>
      after_literal c st
        (if is_char c "." then set_phase PFrac st
         else if is_char c "e" || is_char c "E" then set_phase PExpMark st
         else match digit_of 10 c with
              | Some d => push_digit 10 d false st
              | None => lexer_dead
              end)
  | PDot =>
      match digit_of 10 c with
      | Some d => set_phase PFrac (push_digit 10 d true st)
      | None => lexer_dead
      end
  | PFrac =>
      after_literal c st
        (if is_char c "e" || is_char c "E" then set_phase PExpMark st
         else match digit_of 10 c with
              | Some d => push_digit 10 d true st
              | None => lexer_dead
              end)
  | PExpMark =>
      if is_char c "+" then set_phase PExpSign st
      else if is_char c "-" then set_phase PExpSign (set_eneg true st)
      else match digit_of 10 c with
           | Some d => set_phase PExp (push_exp d st)
           | None => lexer_dead
           end
  | PExpSign =>
      match digit_of 10 c with
      | Some d => set_phase PExp (push_exp d st)
      | None => lexer_dead
      end
  | PExp =>
      after_literal c st
        (match digit_of 10 c with
         | Some d => push_exp d st
         | None => lexer_dead
         end)
  | PRadixMark base =>
      match digit_of base c with
      | Some d => set_phase (PRadix base) (push_digit base d false st)
      | None => lexer_dead
      end
  | PRadix base =>
      after_literal c st
        (match digit_of base c with
         | Some d => push_digit base d false st
         | None => lexer_dead
         end)
  | PInf seen =>
      match String.get seen "Infinity" with
      | Some a =>
          if Ascii.eqb c a
          then set_phase (if Nat.eqb seen 7 then PInfDone else PInf (S seen)) st
          else lexer_dead
      | None => lexer_dead
      end
  | PInfDone => after_literal c st lexer_dead
  | PDead => lexer_dead
  end.

Fixpoint lex_run (st : lexer) (s : string) : lexer :=
  match s with
  | EmptyString => st
  | String c rest => lex_run (lex_step st c) rest
  end.

(** Doubles overflow to an infinity from 2^1024 - 2^970 on (the midpoint
    between the largest double and 2^1024, which rounds away). *)
Definition overflow_threshold : Z := 2 ^ 1024 - 2 ^ 970.

(** The number denoted by mantissa [m] and decimal exponent [k]. *)
Definition decimal_number (neg : bool) (m : Z) (k : Z) : number :=
  if (0 <=? k)%Z then
    if (overflow_threshold <=? m * 10 ^ k)%Z then Infinity neg
    else Finite (inject_Z (if neg then - (m * 10 ^ k) else m * 10 ^ k))
  else
    if (overflow_threshold * 10 ^ (- k) <=? m)%Z then Infinity neg
    else Finite (Qmake (if neg then - m else m) (Z.to_pos (10 ^ (- k)))).

Definition lex_value (st : lexer) : number :=
  match lx_phase st with
  | PStart => Finite 0
  | PZero | PInt | PFrac | PExp =>
      let e := if lx_eneg st then (- Z.of_N (lx_exp st))%Z
               else Z.of_N (lx_exp st) in
      decimal_number (lx_neg st) (Z.of_N (lx_mant st))
                     (e - Z.of_N (lx_frac st))
  | PRadix _ => decimal_number false (Z.of_N (lx_mant st)) 0
  | PInfDone => Infinity (lx_neg st)
  | PSign | PDot | PExpMark | PExpSign | PRadixMark _ | PInf _ | PDead => NaN
  end.

(** [Number(s)] for a string [s]. *)
Definition StringToNumber (s : string) : number :=
  lex_value (lex_run lexer_init s).

(** Arithmetic on numbers, as far as the generator uses it. *)
Definition number_mul (x y : number) : number :=
  match x, y with
  | NaN, _ | _, NaN => NaN
  | Finite a, Finite b => Finite (a * b)
  | Infinity s, Finite b | Finite b, Infinity s =>
      if Qeq_bool b 0 then NaN
      else Infinity (xorb s (negb (Qle_bool 0 b)))
  | Infinity s1, Infinity s2 => Infinity (xorb s1 s2)
  end.

Definition number_sub (x y : number) : number :=
  match x, y with
  | NaN, _ | _, NaN => NaN
  | Finite a, Finite b => Finite (a - b)
  | Infinity s, Finite _ => Infinity s
  | Finite _, Infinity s => Infinity (negb s)
  | Infinity s1, Infinity s2 => if eqb s1 s2 then NaN else Infinity s1
  end.

Definition Math_floor (x : number) : number :=
  match x with
  | Finite q => Finite (inject_Z (Qfloor q))
  | _ => x
  end.

Definition number_of_nat (n : nat) : number := Finite (inject_Z (Z.of_nat n)).

(** ** JavaScript arrays *)

(** A property key: an array index, or any other property name. *)
Inductive key :=
| KIndex (n : nat)
| KProp (name : string).

(** The key a number denotes when it is used in [a[x]]: a non-negative
    integer is an index, anything else names an ordinary property. *)
Definition ToPropertyKey (x : number) : key :=
  match x with
  | NaN => KProp "NaN"
  | Infinity neg => KProp (if neg then "-Infinity" else "Infinity")
  | Finite q =>
      let z := Qfloor q in
      if (0 <=? z)%Z then KIndex (Z.to_nat z) else KProp (pretty z)
  end.

(** An array object: its indexed elements ([None] is [undefined]) and its
    other properties. *)
Record jsarray (A : Type) := mkArray {
  items : list (option A);
  props : gmap string A
}.
Arguments mkArray {A} _ _.
Arguments items {A} _.
Arguments props {A} _.

Section JSArray.
Context {A : Type}.

(** [a[k]] *)
Definition array_get (a : jsarray A) (k : key) : option A :=
  match k with
  | KIndex n => mjoin (items a !! n)
  | KProp p => props a !! p
  end.

(** [a[k] = v]; writing past the end lengthens the array. *)
Definition array_set (a : jsarray A) (k : key) (v : option A) : jsarray A :=
  match k with
  | KIndex n =>
      mkArray
        (if n <? length (items a) then <[n := v]> (items a)
         else items a ++ replicate (n - length (items a)) None ++ [v])
        (props a)
  | KProp p =>
      mkArray (items a)
        (match v with
         | Some x => <[p := x]> (props a)
         | None => delete p (props a)
         end)
  end.

(** [[a[i], a[j]] = [a[j], a[i]]]: both reads, then the write to [a[i]],
    then the write to [a[j]]. *)
Definition array_swap (a : jsarray A) (i : nat) (j : key) : jsarray A :=
  let aj := array_get a j in
  let ai := array_get a (KIndex i) in
  array_set (array_set a (KIndex i) aj) j ai.

(** [for (let i = ...; i > 0; i--) { const j = Math.floor(random(i) * (i + 1)); swap }],
    started at [i]. *)
Fixpoint shuffle (random : nat → number) (i : nat) (a : jsarray A)
    : jsarray A :=
  match i with
  | 0 => a
  | S i' =>
      let j := Math_floor (number_mul (random i) (number_of_nat (i + 1))) in
      shuffle random i' (array_swap a i (ToPropertyKey j))
  end.
End JSArray.

(** ** The card generator: [generateCardNumbers] *)

(** [Object.entries(ranges)], in insertion order. *)
Definition ranges : list (letter * (nat * nat)) :=
  [(lB, (1, 15)); (lI, (16, 30)); (lN, (31, 45)); (lG, (46, 60)); (lO, (61, 75))].

(** [for (let num = min; num <= max; num++) columnNumbers.push(num)] *)
Definition column_range (min max : nat) : list nat := seq min (S max - min).

(** [if (!numbers[rowIndex]) numbers[rowIndex] = []; numbers[rowIndex][colIndex] = cell].
    Rows and columns are filled in increasing order, so each write is at
    most one past the end. *)
Definition place (numbers : grid) (rowIndex colIndex : nat) (c : Cell) : grid :=
  let numbers := if rowIndex <? length numbers then numbers else numbers ++ [[]] in
  alter (λ row, if colIndex <? length row then <[colIndex := c]> row
                else row ++ [c]) rowIndex numbers.

Definition set_center (c : Cell) : Cell :=
  mkCell (cell_letter c) (cell_number c) true true (cell_row c) (cell_col c).

(** The column [colIndex] after the shuffle that draws from the closure
    [seededRandom]. *)
Definition shuffled_column (seededRandom : nat → number)
    (colIndex min max : nat) : jsarray nat :=
  let columnNumbers := mkArray (Some <$> column_range min max) ∅ in
  shuffle (λ i, seededRandom (colIndex * 100 + i))
          (length (items columnNumbers) - 1) columnNumbers.

(** The body of the [forEach] over the columns. *)
Definition add_column (seededRandom : nat → number) (numbers : grid)
    (colIndex : nat) (entry : letter * (nat * nat)) : grid :=
  let '(letter, (min, max)) := entry in
  let selectedNumbers :=
    take 5 (items (shuffled_column seededRandom colIndex min max)) in
  foldl (λ numbers '(rowIndex, number),
           place numbers rowIndex colIndex
                 (mkCell letter number false false rowIndex colIndex))
        numbers (imap pair selectedNumbers).

(** The card built from the draws of [seededRandom], center marked free. *)
Definition build_card (seededRandom : nat → number) : grid :=
  let numbers :=
    foldl (λ numbers '(colIndex, entry),
             add_column seededRandom numbers colIndex entry)
          [] (imap pair ranges) in
  alter (alter set_center 2) 2 numbers.

(** [const seed = cardNumber + gameId]: a number plus a string is the
    concatenation of the number's decimal form and the string. *)
Definition card_seed (cardNumber : nat) (gameId : string) : string :=
  pretty cardNumber +:+ gameId.

Section Generator.
(** [Math.sin] on finite arguments. *)
Variable sin : Q → Q.

Definition Math_sin (x : number) : number :=
  match x with
  | Finite q => Finite (sin q)
  | _ => NaN
  end.

(** [seededRandom]: [seed + index] is again a concatenation, and
    [Math.sin] converts it to a number. *)
Definition seededRandom (seed : string) (index : nat) : number :=
  let x := number_mul (Math_sin (StringToNumber (seed +:+ pretty index)))
                      (Finite 10000) in
  number_sub x (Math_floor x).

Definition generateCardNumbers (cardNumber : nat) (gameId : string) : grid :=
  build_card (seededRandom (card_seed cardNumber gameId)).
End Generator.

(** *** Properties of seeds and of cards, used to state the claims *)

(** Whether the draw for [index] is NaN: the string is not a number, or it
    denotes an infinity (whose sine is NaN). *)
Definition draw_is_NaN (seed : string) (index : nat) : bool :=
  match StringToNumber (seed +:+ pretty index) with
  | Finite _ => false
  | _ => true
  end.

(** In column [colIndex], a NaN draw in one of the last four steps of the
    shuffle (i = 4..1) comes with a NaN draw in an earlier step (i = 14..5). *)
Definition safe_column (seed : string) (colIndex : nat) : bool :=
  implb (existsb (λ i, draw_is_NaN seed (colIndex * 100 + i)) (seq 1 4))
        (existsb (λ i, draw_is_NaN seed (colIndex * 100 + i)) (seq 5 10)).

Definition seed_safe (cardNumber : nat) (gameId : string) : bool :=
  forallb (safe_column (card_seed cardNumber gameId)) (seq 0 5).

(** A round id that is not numeric whatever digits are written before and
    after it, as is the case of a UUID. *)
Definition NonNumeric (gameId : string) : Prop :=
  ∀ pre post : string, StringToNumber (pre +:+ gameId +:+ post) = NaN.

(** The letter of column [col]. *)
Definition column_letter (col : nat) : option letter := fst <$> ranges !! col.

(** All the numbers of a card, row by row. *)
Definition card_numbers (g : grid) : list (option nat) :=
  cell_number <$> concat g.

(** What the specification asks of a generated card: five rows of five
    cells; the center cell, and no other, is free; every cell of column
    [col] carries that column's letter and a number of its range of
    fifteen values; no number occurs twice. *)
Definition well_formed_card (g : grid) : Prop :=
  is_5x5 g
  ∧ (∀ row col c, cell_at g row col = Some c →
       (cell_free c = true ↔ row = 2 ∧ col = 2))
  ∧ (∀ row col c, cell_at g row col = Some c →
       column_letter col = Some (cell_letter c)
       ∧ ∃ n, cell_number c = Some n ∧ 15 * col + 1 ≤ n ≤ 15 * col + 15)
  ∧ NoDup (card_numbers g).



Definition sample_uuid : string := "550e8400-e29b-41d4-a716-446655440000".

(** The five selected values of each column, as the shuffles leave them. *)
Definition selected_columns (seededRandom : nat → number)
    : list (list (option nat)) :=
  (λ '(colIndex, (_, (min, max))),
     take 5 (items (shuffled_column seededRandom colIndex min max)))
  <$> imap pair ranges.

(** The card whose column [col] holds the values [cols !! col] from top to
    bottom: the shape [build_card] arrives at, written out. *)
Definition layout_cell (cols : list (list (option nat))) (row col : nat) : Cell :=
  let number := cols !! col ≫= λ column, mjoin (column !! row) in
  let cell := mkCell (nth col (fst <$> ranges) lB) number false false row col in
  if bool_decide (row = 2 ∧ col = 2) then set_center cell else cell.

Definition layout (cols : list (list (option nat))) : grid :=
  (λ row, layout_cell cols row <$> seq 0 5) <$> seq 0 5.

(** The card every draw of which is NaN. *)
Definition NaN_card : grid := build_card (λ _, NaN).

(** ** The engine and its collaborators *)

Inductive status := waiting | active | completed | cancelled.

Global Instance status_eq_dec : EqDecision status.
Proof. solve_decision. Defined.

Record Settings := mkSettings {
  bet_amount : Q;
  house_fee : Q;
  game_duration : Z;
  max_cards_per_player : nat;
  min_players : nat
}.

(** Modelled from the spec: the model [Game] of the storage collaborator is
    not among the sources.  A round, as the [Game] row and as the object
    kept in memory, has the fields the engine reads and writes; as the
    spec's Round, a row that [Game.create] returns holds an empty sequence
    of called numbers and no winner. *)
Record Game := mkGame {
  game_status : status;
  pot : Q;
  start_time : Z;
  end_time : option Z;
  settings : Settings;
  called_numbers : list Draw;
  current_calls : list Draw;
  winner_id : option string;
  winning_card : option nat
}.

Record Card := mkCard {
  card_game_id : string;
  card_number : nat;
  numbers : grid;
  user_id : option string;
  purchased_at : option Z;
  is_winner : bool
}.

Record User := mkUser {
  balance : Q;
  total_won : Q;
  games_won : nat;
  games_played : nat
}.

Inductive transaction_type := bet | win | refund.

(** Modelled from the spec: the model [Transaction] is not among the
    sources.  A ledger entry has what the engine passes to
    [Transaction.create]: participant, kind, amount and, as metadata, the
    round and the card. *)
Record Transaction := mkTransaction {
  tx_user_id : option string;
  tx_type : transaction_type;
  tx_amount : Q;
  tx_game_id : string;
  tx_card_number : nat
}.

(** What the callback of [setInterval] in [callNumbers] closes over. *)
Record Caller := mkCaller {
  allNumbers : jsarray Draw;
  numberIndex : nat;
  startTime : Z
}.

(** The engine's maps and timers, followed by the tables of the storage
    collaborator. *)
Record State := mkState {
  waitingGames : gmap string Game;
  activeGames : gmap string Game;
  gameTimers : gmap string Z;          (* countdown timers, by due time *)
  callIntervals : gmap string Caller;  (* the running number callers *)
  newGameTimeouts : list Z;            (* setTimeout(createNewGame), by due time *)
  Game_table : gmap string Game;
  Card_table : list Card;
  User_table : gmap string User;
  Transaction_table : list Transaction
}.

Definition set_waitingGames (f : gmap string Game → gmap string Game) (s : State) :=
  mkState (f (waitingGames s)) (activeGames s) (gameTimers s) (callIntervals s)
          (newGameTimeouts s) (Game_table s) (Card_table s) (User_table s)
          (Transaction_table s).
Definition set_activeGames (f : gmap string Game → gmap string Game) (s : State) :=
  mkState (waitingGames s) (f (activeGames s)) (gameTimers s) (callIntervals s)
          (newGameTimeouts s) (Game_table s) (Card_table s) (User_table s)
          (Transaction_table s).
Definition set_gameTimers (f : gmap string Z → gmap string Z) (s : State) :=
  mkState (waitingGames s) (activeGames s) (f (gameTimers s)) (callIntervals s)
          (newGameTimeouts s) (Game_table s) (Card_table s) (User_table s)
          (Transaction_table s).
Definition set_callIntervals (f : gmap string Caller → gmap string Caller) (s : State) :=
  mkState (waitingGames s) (activeGames s) (gameTimers s) (f (callIntervals s))
          (newGameTimeouts s) (Game_table s) (Card_table s) (User_table s)
          (Transaction_table s).
Definition set_newGameTimeouts (f : list Z → list Z) (s : State) :=
  mkState (waitingGames s) (activeGames s) (gameTimers s) (callIntervals s)
          (f (newGameTimeouts s)) (Game_table s) (Card_table s) (User_table s)
          (Transaction_table s).
Definition set_Game_table (f : gmap string Game → gmap string Game) (s : State) :=
  mkState (waitingGames s) (activeGames s) (gameTimers s) (callIntervals s)
          (newGameTimeouts s) (f (Game_table s)) (Card_table s) (User_table s)
          (Transaction_table s).
Definition set_Card_table (f : list Card → list Card) (s : State) :=
  mkState (waitingGames s) (activeGames s) (gameTimers s) (callIntervals s)
          (newGameTimeouts s) (Game_table s) (f (Card_table s)) (User_table s)
          (Transaction_table s).
Definition set_User_table (f : gmap string User → gmap string User) (s : State) :=
  mkState (waitingGames s) (activeGames s) (gameTimers s) (callIntervals s)
          (newGameTimeouts s) (Game_table s) (Card_table s) (f (User_table s))
          (Transaction_table s).
Definition set_Transaction_table (f : list Transaction → list Transaction) (s : State) :=
  mkState (waitingGames s) (activeGames s) (gameTimers s) (callIntervals s)
          (newGameTimeouts s) (Game_table s) (Card_table s) (User_table s)
          (f (Transaction_table s)).

(** Field updates of the records. *)
Definition with_status (st : status) (g : Game) : Game :=
  mkGame st (pot g) (start_time g) (end_time g) (settings g)
         (called_numbers g) (current_calls g) (winner_id g) (winning_card g).
Definition with_pot (p : Q) (g : Game) : Game :=
  mkGame (game_status g) p (start_time g) (end_time g) (settings g)
         (called_numbers g) (current_calls g) (winner_id g) (winning_card g).
Definition with_start_time (t : Z) (g : Game) : Game :=
  mkGame (game_status g) (pot g) t (end_time g) (settings g)
         (called_numbers g) (current_calls g) (winner_id g) (winning_card g).
Definition with_end_time (t : Z) (g : Game) : Game :=
  mkGame (game_status g) (pot g) (start_time g) (Some t) (settings g)
         (called_numbers g) (current_calls g) (winner_id g) (winning_card g).
Definition with_calls (called current : list Draw) (g : Game) : Game :=
  mkGame (game_status g) (pot g) (start_time g) (end_time g) (settings g)
         called current (winner_id g) (winning_card g).
Definition with_winner (userId : option string) (cardNumber : nat) (g : Game) : Game :=
  mkGame (game_status g) (pot g) (start_time g) (end_time g) (settings g)
         (called_numbers g) (current_calls g) userId (Some cardNumber).

Definition with_owner (userId : string) (now : Z) (c : Card) : Card :=
  mkCard (card_game_id c) (card_number c) (numbers c) (Some userId) (Some now)
         (is_winner c).
Definition with_is_winner (c : Card) : Card :=
  mkCard (card_game_id c) (card_number c) (numbers c) (user_id c)
         (purchased_at c) true.

Definition add_balance (by_ : Q) (u : User) : User :=
  mkUser (balance u + by_) (total_won u) (games_won u) (games_played u).
Definition add_total_won (by_ : Q) (u : User) : User :=
  mkUser (balance u) (total_won u + by_) (games_won u) (games_played u).
Definition add_games_won (u : User) : User :=
  mkUser (balance u) (total_won u) (games_won u + 1) (games_played u).
Definition add_games_played (u : User) : User :=
  mkUser (balance u) (total_won u) (games_won u) (games_played u + 1).

(** *** Thrown errors and the state: a small monad *)

Inductive error :=
| Error (message : string)
| ReferenceError (name : string)
| TypeError (message : string).

(** A computation runs from a state to a state and either throws or
    returns; what it wrote before throwing stays written. *)
Definition M (A : Type) : Type := State → State * (error + A).

Definition ret {A} (a : A) : M A := λ s, (s, inr a).
Definition bind {A B} (m : M A) (k : A → M B) : M B :=
  λ s, match m s with
       | (s', inr a) => k a s'
       | (s', inl e) => (s', inl e)
       end.
Definition throw {A} (e : error) : M A := λ s, (s, inl e).
Definition get : M State := λ s, (s, inr s).
Definition modify (f : State → State) : M unit := λ s, (f s, inr tt).

(** [try { m } catch (error) { console.error(...) }] *)
Definition try_log (m : M unit) : M unit :=
  λ s, match m s with
       | (s', inl _) => (s', inr tt)
       | r => r
       end.
(** [try { m } catch (error) { console.error(...); throw error }] *)
Definition try_rethrow {A} (m : M A) : M A := m.

Notation "'let*' x ':=' m 'in' k" := (bind m (λ x, k))
  (at level 10, x name, m at level 100, k at level 200).
Notation "m ';;' k" := (bind m (λ _, k))
  (at level 100, k at level 200, right associativity).

(** *** The storage collaborator *)

(** [Game.update(patch, { where: { id } })] *)
Definition Game_update (gameId : string) (patch : Game → Game) : M unit :=
  modify (set_Game_table (alter patch gameId)).

(** [User.increment(field, { by, where: { id } })]; a null id matches no row. *)
Definition User_update (userId : option string) (patch : User → User) : M unit :=
  match userId with
  | Some id => modify (set_User_table (alter patch id))
  | None => ret tt
  end.

Definition is_purchased_in (gameId : string) (c : Card) : Prop :=
  card_game_id c = gameId ∧ is_Some (user_id c).

Global Instance is_purchased_in_dec gameId c : Decision (is_purchased_in gameId c).
Proof. unfold is_purchased_in. apply _. Defined.

(** The purchased cards of a round, in table order. *)
Definition purchased_cards (s : State) (gameId : string) : list Card :=
  filter (is_purchased_in gameId) (Card_table s).

(** [Card.count({ where: { game_id, user_id: { $not: null } } })] *)
Definition count_purchased (s : State) (gameId : string) : nat :=
  length (purchased_cards s gameId).

(** [Card.count({ where: { game_id, user_id: userId } })] *)
Definition count_cards_of (s : State) (gameId userId : string) : nat :=
  length (filter (λ c, card_game_id c = gameId ∧ user_id c = Some userId)
                 (Card_table s)).

(** [Card.findOne({ where: { game_id, card_number, user_id: null } })]:
    the row and its place in the table. *)
Definition find_free_card (s : State) (gameId : string) (cardNumber : nat)
    : option (nat * Card) :=
  list_find (λ c, card_game_id c = gameId ∧ card_number c = cardNumber
                  ∧ user_id c = None) (Card_table s).

(** [Card.update({ is_winner: true }, { where: { game_id, card_number } })] *)
Definition mark_winning_card (gameId : string) (cardNumber : nat) : M unit :=
  modify (set_Card_table (fmap (λ c,
    if bool_decide (card_game_id c = gameId ∧ card_number c = cardNumber)
    then with_is_winner c else c))).

(** *** Names in scope *)

(** The names the module binds (lines 1 to 4 of the source). *)
Definition source_scope : list string :=
  ["EventEmitter"; "uuidv4"; "RedisClient"; "Game"; "Card"; "User"].

(** Evaluating an identifier that is not bound throws a ReferenceError. *)
Definition reference (scope : list string) (name : string) : M unit :=
  if bool_decide (name ∈ scope) then ret tt else throw (ReferenceError name).

(** [Transaction.create(row)] *)
Definition Transaction_create (scope : list string) (row : Transaction) : M unit :=
  reference scope "Transaction";;
  modify (set_Transaction_table (λ t, t ++ [row])).

(** *** The operations of the engine *)

(** All 75 numbers in the order [callNumbers] generates them. *)
Definition all_numbers : list Draw :=
  '(letter, (start, end_)) ← ranges;
  (λ num, mkDraw letter num false) <$> column_range start end_.

Definition with_called (d : Draw) : Draw :=
  mkDraw (draw_letter d) (draw_number d) true.

(** [array.slice(-3)] *)
Definition last_three {A} (l : list A) : list A := drop (length l - 3) l.

Section Engine.
(** [Math.sin] on finite arguments. *)
Variable sin : Q → Q.
(** The names bound where the engine's code runs. *)
Variable scope : list string.
(** The environment variables, parsed, defaults applied. *)
Variables (BET_AMOUNT HOUSE_FEE : Q) (GAME_DURATION : Z)
          (MAX_CARDS_PER_PLAYER : nat).

(** [generateGameCards]: the 400 rows handed to [Card.bulkCreate]. *)
Definition generateGameCards (gameId : string) : M unit :=
  let cards :=
    (λ cardNum, mkCard gameId cardNum (generateCardNumbers sin cardNum gameId)
                       None None false) <$> seq 1 400 in
  modify (set_Card_table (λ t, t ++ cards)).

(** [createNewGame]; [newId] is the id [Game.create] gives the row and
    [now] the clock.  The countdown is started with the 30 seconds of
    pre-roll still ahead, so [startCountdown] arms the timer. *)
Definition createNewGame (newId : string) (now : Z) : M Game :=
  try_rethrow (
    let game :=
      mkGame waiting 0 (now + 30000) None
             (mkSettings BET_AMOUNT HOUSE_FEE GAME_DURATION
                         MAX_CARDS_PER_PLAYER 1)
             [] [] None None in
    modify (set_Game_table (insert newId game));;
    generateGameCards newId;;
    modify (set_waitingGames (insert newId game));;
    modify (set_gameTimers (insert newId (start_time game)));;
    ret game).

(** [markNumberOnCards] only appends to the column [marked_numbers],
    which nothing in the engine reads (and it refers to the unbound name
    [sequelize] inside its own try/catch): no effect on the state
    modelled here. *)
Definition markNumberOnCards (gameId : string) (number : Draw) : M unit :=
  ret tt.

(** [declareWinner]; [userId] is the nullable [card.user_id]. *)
Definition declareWinner (gameId : string) (userId : option string)
    (cardNumber : nat) (now : Z) : M unit :=
  try_log (
    let* s := get in
    match activeGames s !! gameId with
    | None => ret tt
    | Some game =>
        if bool_decide (is_Some (winner_id game)) then ret tt else
        let winnings := (pot game * (1 - house_fee (settings game)))%Q in
        Game_update gameId (λ g, with_end_time now
                                   (with_winner userId cardNumber
                                      (with_status completed g)));;
        User_update userId (add_balance winnings);;
        User_update userId (add_total_won winnings);;
        User_update userId add_games_won;;
        mark_winning_card gameId cardNumber;;
        let* s1 := get in
        let winner := userId ≫= λ id, User_table s1 !! id in
        Transaction_create scope
          (mkTransaction userId win winnings gameId cardNumber);;
        modify (set_activeGames (alter (λ g,
          with_end_time now (with_winner userId cardNumber
                               (with_status completed g))) gameId));;
        modify (set_activeGames (delete gameId));;
        (* the event reads [winner.username] *)
        match winner with
        | None => throw (TypeError "Cannot read properties of null")
        | Some _ => modify (set_newGameTimeouts (λ t, t ++ [(now + 10000)%Z]))
        end
    end).

(** [endGame] *)
Definition endGame (gameId : string) (now : Z) : M unit :=
  try_log (
    let* s := get in
    match activeGames s !! gameId with
    | None => ret tt
    | Some game =>
        Game_update gameId (λ g, with_end_time now (with_status completed g));;
        modify (set_activeGames (delete gameId));;
        modify (set_newGameTimeouts (λ t, t ++ [(now + 5000)%Z]))
    end).

(** The refund loop of [cancelGame]. *)
Fixpoint refund_cards (gameId : string) (game : Game) (cards : list Card)
    : M unit :=
  match cards with
  | [] => ret tt
  | card :: rest =>
      User_update (user_id card) (add_balance (bet_amount (settings game)));;
      Transaction_create scope
        (mkTransaction (user_id card) refund (bet_amount (settings game))
                       gameId (card_number card));;
      refund_cards gameId game rest
  end.

(** [cancelGame]; [retrieved] is what [Card.findAll] returns for the
    purchased cards of the round and [newId] the id of the round that
    [createNewGame] then creates. *)
Definition cancelGame (gameId : string) (retrieved : list Card)
    (newId : string) (now : Z) : M unit :=
  try_log (
    let* s := get in
    match waitingGames s !! gameId with
    | None => ret tt
    | Some game =>
        Game_update gameId (λ g, with_end_time now (with_status cancelled g));;
        refund_cards gameId game retrieved;;
        modify (set_waitingGames (delete gameId));;
        modify (set_gameTimers (delete gameId));;
        createNewGame newId now;;
        ret tt
    end).

(** [callNumbers]: the shuffled numbers and the interval; [random i] is
    what [Math.random()] returns at step [i] of the shuffle. *)
Definition callNumbers (gameId : string) (random : nat → number) (now : Z)
    : M unit :=
  let* s := get in
  match activeGames s !! gameId with
  | None => ret tt
  | Some game =>
      let allNumbers := mkArray (Some <$> all_numbers) ∅ in
      let allNumbers := shuffle random (length (items allNumbers) - 1) allNumbers in
      modify (set_callIntervals (insert gameId (mkCaller allNumbers 0 now)))
  end.

(** [startGame], run when the countdown of [gameId] ends.  [retrieved] and
    [newId] serve [cancelGame], [random] serves [callNumbers]. *)
Definition startGame (gameId : string) (retrieved : list Card)
    (newId : string) (random : nat → number) (now : Z) : M unit :=
  try_log (
    let* s := get in
    match waitingGames s !! gameId with
    | None => ret tt
    | Some game =>
        let cards := count_purchased s gameId in
        if cards <? 1 then cancelGame gameId retrieved newId now else
        Game_update gameId (λ g, with_start_time now (with_status active g));;
        let game := with_start_time now (with_status active game) in
        modify (set_waitingGames (delete gameId));;
        modify (set_activeGames (insert gameId game));;
        callNumbers gameId random now
    end).

(** The loop of [checkForWinners] over the retrieved cards. *)
Fixpoint sweep (gameId : string) (game : Game) (cards : list Card) (now : Z)
    : M unit :=
  match cards with
  | [] => ret tt
  | card :: rest =>
      match checkCardForBingo (numbers card) (called_numbers game) with
      | None => throw (TypeError "Cannot read properties of undefined")
      | Some true => declareWinner gameId (user_id card) (card_number card) now
      | Some false => sweep gameId game rest now
      end
  end.

(** [checkForWinners]; [retrieved] is what [Card.findAll] returns for the
    purchased cards of the round, in the order the storage gives them. *)
Definition checkForWinners (gameId : string) (retrieved : list Card) (now : Z)
    : M unit :=
  try_log (
    let* s := get in
    match activeGames s !! gameId with
    | None => ret tt
    | Some game => sweep gameId game retrieved now
    end).

(** One firing of the interval set by [callNumbers]. *)
Definition tick (gameId : string) (retrieved : list Card) (now : Z) : M unit :=
  let* s := get in
  match callIntervals s !! gameId with
  | None => ret tt
  | Some caller =>
      match activeGames s !! gameId with
      | None => modify (set_callIntervals (delete gameId))
      | Some game =>
          let elapsed := (now - startTime caller)%Z in
          if (game_duration (settings game) * 1000 <? elapsed)%Z
             || (length (items (allNumbers caller)) <=? numberIndex caller)
          then
            modify (set_callIntervals (delete gameId));;
            endGame gameId now
          else
            match array_get (allNumbers caller) (KIndex (numberIndex caller)) with
            | None => throw (TypeError "Cannot set properties of undefined")
            | Some number =>
                let number := with_called number in
                modify (set_callIntervals (insert gameId
                  (mkCaller (array_set (allNumbers caller)
                                       (KIndex (numberIndex caller)) (Some number))
                            (numberIndex caller + 1) (startTime caller))));;
                let called := called_numbers game ++ [number] in
                modify (set_activeGames (alter
                  (with_calls called (last_three called)) gameId));;
                Game_update gameId (with_calls called (last_three called));;
                markNumberOnCards gameId number;;
                checkForWinners gameId retrieved now
            end
      end
  end.

(** [joinGame] *)
Definition joinGame (gameId userId : string) : M Game :=
  try_rethrow (
    let* s := get in
    match waitingGames s !! gameId with
    | None => throw (Error "Game not available for joining")
    | Some game =>
        if negb (bool_decide (game_status game = waiting))
        then throw (Error "Game not available for joining") else
        let userCardCount := count_cards_of s gameId userId in
        if max_cards_per_player (settings game) <=? userCardCount
        then throw (Error "Maximum cards per player reached")
        else ret game
    end).

(** [purchaseCard] *)
Definition purchaseCard (gameId userId : string) (cardNumber : nat) (now : Z)
    : M Card :=
  try_rethrow (
    let* s := get in
    match waitingGames s !! gameId with
    | None => throw (Error "Game not available for card purchase")
    | Some game =>
        if negb (bool_decide (game_status game = waiting))
        then throw (Error "Game not available for card purchase") else
        match find_free_card s gameId cardNumber with
        | None => throw (Error "Card not available")
        | Some (place, card) =>
            match User_table s !! userId with
            | None => throw (TypeError "Cannot read properties of null")
            | Some user =>
                if Qlt_le_dec (balance user) (bet_amount (settings game))
                then throw (Error "Insufficient balance") else
                User_update (Some userId)
                  (add_balance (- bet_amount (settings game)));;
                let card := with_owner userId now card in
                modify (set_Card_table (<[place := card]>));;
                let game := with_pot (pot game + bet_amount (settings game)) game in
                Game_update gameId (with_pot (pot game));;
                modify (set_waitingGames (insert gameId game));;
                Transaction_create scope
                  (mkTransaction (Some userId) bet (bet_amount (settings game))
                                 gameId cardNumber);;
                User_update (Some userId) add_games_played;;
                ret card
            end
        end
    end).
End Engine.

(** *** Notions used in the proofs about the generator *)

(** A draw is NaN or a fraction in [0, 1). *)
Definition unit_draw (x : number) : Prop :=
  x = NaN ∨ ∃ r, x = Finite r ∧ (0 <= r)%Q ∧ (r < 1)%Q.

(** The state of the shuffle of [univ] before step [i], the steps above [i]
    being done and [random] giving the draw of each step: the
    elements sit in the array and in the property [NaN], and a
    slot holds [undefined] only if it is the highest step with a NaN
    draw. *)
Record shuffle_inv {A : Type} (random : nat → number) (univ : list A)
  (i : nat) (a : jsarray A) : Prop := {
  inv_length : length (items a) = length univ;
  inv_props : ∀ p, p ≠ "NaN" → props a !! p = None;
  inv_perm : omap id (items a) ++ option_list (props a !! "NaN") ≡ₚ univ;
  inv_holes : ∀ k, items a !! k = Some None →
    i < k ∧ is_NaN (random k) = true
    ∧ ∀ k', k < k' < length univ → is_NaN (random k') = false;
  inv_first : props a !! "NaN" = None →
    ∀ k', i < k' < length univ → is_NaN (random k') = false;
  inv_top : ∀ k, i < k < length univ → is_NaN (random k) = true →
    (∀ k', k < k' < length univ → is_NaN (random k') = false) →
    items a !! k = Some None;
  inv_none : (∀ k', i < k' < length univ → is_NaN (random k') = false) →
    props a !! "NaN" = None
}.

(** A NaN draw in the last four steps comes with one in an earlier step. *)
Definition late_NaN_covered (random : nat → number) (univ : list nat) : bool :=
  implb (existsb (λ i, is_NaN (random i)) (seq 1 4))
        (existsb (λ i, is_NaN (random i)) (seq 5 (length univ - 5))).

(** A column made of five distinct numbers of its range. *)
Definition good_column (col : nat) (column : list (option nat)) : Prop :=
  ∃ vs, column = Some <$> vs ∧ length vs = 5 ∧ NoDup vs
        ∧ ∀ n, n ∈ vs → 15 * col + 1 ≤ n ≤ 15 * col + 15.



(** Called draws for the scenarios of the win predicate, on [NaN_card]
    (rows 1 3 4 5 6 of each column's range): the whole of row 0, the main
    diagonal, and four cells of row 0. *)
Definition row0_calls : list Draw :=
  [mkDraw lB 1 true; mkDraw lI 16 true; mkDraw lN 31 true;
   mkDraw lG 46 true; mkDraw lO 61 true].
Definition diagonal_calls : list Draw :=
  [mkDraw lB 1 true; mkDraw lI 18 true; mkDraw lG 50 true; mkDraw lO 66 true].
Definition partial_calls : list Draw :=
  [mkDraw lB 1 true; mkDraw lI 16 true; mkDraw lN 31 true; mkDraw lG 46 true].

(** *** Runs of the engine *)

(** The engine at start-up over an empty games table. *)
Definition initial_state (users : gmap string User) : State :=
  mkState ∅ ∅ ∅ ∅ [] ∅ [] users [].

(** [Math.random()] returns a number in [0, 1). *)
Definition Math_random_ok (random : nat → number) : Prop :=
  ∀ k, ∃ r, random k = Finite r ∧ (0 <= r)%Q ∧ (r < 1)%Q.

Section Runs.
Variable sin : Q → Q.
Variable scope : list string.
Variables (BET_AMOUNT HOUSE_FEE : Q) (GAME_DURATION : Z)
          (MAX_CARDS_PER_PLAYER : nat).

(** What can happen to the engine: the scheduler or a timeout creates a
    round, a participant joins or purchases, a countdown ends, an
    interval fires.  Each call runs to its end before the next.  A new
    row gets an id the games table does not hold yet; [Card.findAll]
    returns the purchased cards of the round in some order. *)
Inductive step : State → State → Prop :=
| step_createNewGame s newId now :
    Game_table s !! newId = None →
    step s (createNewGame sin BET_AMOUNT HOUSE_FEE GAME_DURATION
              MAX_CARDS_PER_PLAYER newId now s).1
| step_joinGame s gameId userId :
    step s (joinGame gameId userId s).1
| step_purchaseCard s gameId userId cardNumber now :
    step s (purchaseCard scope gameId userId cardNumber now s).1
| step_startGame s gameId retrieved newId random now :
    Game_table s !! newId = None →
    retrieved ≡ₚ purchased_cards s gameId →
    Math_random_ok random →
    step s (startGame sin scope BET_AMOUNT HOUSE_FEE GAME_DURATION
              MAX_CARDS_PER_PLAYER gameId retrieved newId random now s).1
| step_tick s gameId retrieved now :
    retrieved ≡ₚ purchased_cards s gameId →
    step s (tick scope gameId retrieved now s).1.

Definition reachable (s : State) : Prop :=
  ∃ users, rtc step (initial_state users) s.
End Runs.

(** A round still in one of the engine's two maps. *)
Definition live (s : State) (gameId : string) (game : Game) : Prop :=
  waitingGames s !! gameId = Some game ∨ activeGames s !! gameId = Some game.

(** What identifies a draw: its letter and its number. *)
Definition draw_id (d : Draw) : letter * nat := (draw_letter d, draw_number d).

(** The draws of a caller's shuffled array, in order. *)
Definition caller_draws (caller : Caller) : list (letter * nat) :=
  draw_id <$> omap id (items (allNumbers caller)).

(** A caller and the round it serves: the array holds 75 distinct draws and
    the round's called numbers are the first [numberIndex] of them. *)
Record caller_ok (caller : Caller) (game : Game) : Prop := {
  caller_defined : Forall is_Some (items (allNumbers caller));
  caller_NoDup : NoDup (caller_draws caller);
  caller_called :
    draw_id <$> called_numbers game
    = take (numberIndex caller) (caller_draws caller)
}.

(** The invariant of the runs. *)
Record engine_inv (s : State) : Prop := {
  inv_waiting_row : ∀ g game,
    waitingGames s !! g = Some game → is_Some (Game_table s !! g);
  inv_active_row : ∀ g game,
    activeGames s !! g = Some game → is_Some (Game_table s !! g);
  inv_disjoint : ∀ g,
    is_Some (waitingGames s !! g) → activeGames s !! g = None;
  inv_card_row : ∀ c,
    c ∈ Card_table s → is_Some (Game_table s !! card_game_id c);
  inv_pot : ∀ g game, live s g game →
    (pot game == bet_amount (settings game)
                 * inject_Z (Z.of_nat (count_purchased s g)))%Q;
  inv_row : ∀ g game row, live s g game → Game_table s !! g = Some row →
    pot row = pot game ∧ called_numbers row = called_numbers game;
  inv_waiting : ∀ g game, waitingGames s !! g = Some game →
    called_numbers game = [] ∧ callIntervals s !! g = None
    ∧ min_players (settings game) = 1;
  inv_caller_row : ∀ g caller,
    callIntervals s !! g = Some caller → is_Some (Game_table s !! g);
  inv_caller : ∀ g caller game,
    callIntervals s !! g = Some caller → activeGames s !! g = Some game →
    caller_ok caller game;
  inv_called_NoDup : ∀ g row,
    Game_table s !! g = Some row → NoDup (draw_id <$> called_numbers row)
}.

(** What a card says about ownership. *)
Definition ownership (c : Card) : string * nat * option string :=
  (card_game_id c, card_number c, user_id c).

(** What the parts of an operation that neither create a round, nor sell
    a card, nor activate a round, nor call a number may change: rounds may
    leave the maps and lose their callers, rows keep pot, settings and
    called numbers, cards keep their owners. *)
Record frame (s s' : State) : Prop := {
  frame_waiting : ∀ g game,
    waitingGames s' !! g = Some game → waitingGames s !! g = Some game;
  frame_active : ∀ g game',
    activeGames s' !! g = Some game' →
    ∃ game, activeGames s !! g = Some game ∧ pot game' = pot game
            ∧ settings game' = settings game
            ∧ called_numbers game' = called_numbers game;
  frame_rows : ∀ g,
    match Game_table s !! g, Game_table s' !! g with
    | Some row, Some row' =>
        pot row' = pot row ∧ settings row' = settings row
        ∧ called_numbers row' = called_numbers row
    | None, None => True
    | _, _ => False
    end;
  frame_cards : ownership <$> Card_table s' = ownership <$> Card_table s;
  frame_callers : ∀ g caller,
    callIntervals s' !! g = Some caller → callIntervals s !! g = Some caller
}.

(** An operation all of whose writes are framed. *)
Definition framed {A} (m : M A) : Prop := ∀ s, frame s (m s).1.

(** *** Notions used in the proofs about the pattern check *)

(** Every coordinate of the line is a cell of the grid. *)
Definition in_bounds (g : grid) (coords : list (nat * nat)) : Prop :=
  Forall (λ rc, is_Some (cell_at g rc.1 rc.2)) coords.

(** The cell exists and is free or matched. *)
Definition cell_ok (g : grid) calledNumbers (row col : nat) : Prop :=
  ∃ c, cell_at g row col = Some c
       ∧ (cell_free c = true ∨ matched calledNumbers c).

(** *** States and notions used in the proofs about the engine *)

(** A patch that keeps pot, settings and called numbers. *)
Definition keeps_round (patch : Game → Game) : Prop :=
  ∀ g, pot (patch g) = pot g ∧ settings (patch g) = settings g
       ∧ called_numbers (patch g) = called_numbers g.

Definition owned_in (gameId : string) (o : string * nat * option string) : Prop :=
  o.1.1 = gameId ∧ is_Some o.2.

Global Instance owned_in_dec gameId o : Decision (owned_in gameId o).
Proof. unfold owned_in. apply _. Defined.

(** The round [createNewGame] creates and the cards it generates. *)
Definition new_game (BET_AMOUNT HOUSE_FEE : Q) (GAME_DURATION : Z)
    (MAX_CARDS_PER_PLAYER : nat) (now : Z) : Game :=
  mkGame waiting 0 (now + 30000) None
         (mkSettings BET_AMOUNT HOUSE_FEE GAME_DURATION MAX_CARDS_PER_PLAYER 1)
         [] [] None None.
Definition new_cards (sin : Q → Q) (newId : string) : list Card :=
  (λ cardNum, mkCard newId cardNum (generateCardNumbers sin cardNum newId)
                     None None false) <$> seq 1 400.

(** The state [purchaseCard] has written when it reaches
    [Transaction.create]. *)
Definition purchase_written (s : State) (gameId userId : string)
    (place : nat) (card : Card) (game : Game) (now : Z) : State :=
  set_waitingGames
    (insert gameId (with_pot (pot game + bet_amount (settings game)) game))
    (set_Game_table
       (alter (with_pot (pot game + bet_amount (settings game))) gameId)
       (set_Card_table (<[place := with_owner userId now card]>)
          (set_User_table
             (alter (add_balance (- bet_amount (settings game))) userId) s))).

(** The state once the round is active and its caller set up. *)
Definition activated (s : State) (gameId : string) (game : Game)
    (random : nat → number) (now : Z) : State :=
  set_callIntervals
    (insert gameId
       (mkCaller (shuffle random (length (Some <$> all_numbers) - 1)
                          (mkArray (Some <$> all_numbers) ∅)) 0 now))
    (set_activeGames
       (insert gameId (with_start_time now (with_status active game)))
       (set_waitingGames (delete gameId)
          (set_Game_table
             (alter (λ g, with_start_time now (with_status active g)) gameId)
             s))).

(** The duration is over or every number has been called. *)
Definition tick_stops (caller : Caller) (game : Game) (now : Z) : bool :=
  (game_duration (settings game) * 1000 <? now - startTime caller)%Z
  || (length (items (allNumbers caller)) <=? numberIndex caller).

(** The state once the draw [d] is called. *)
Definition pushed (s : State) (gameId : string) (caller : Caller)
    (game : Game) (d : Draw) : State :=
  let called := called_numbers game ++ [with_called d] in
  set_Game_table (alter (with_calls called (last_three called)) gameId)
    (set_activeGames (alter (with_calls called (last_three called)) gameId)
       (set_callIntervals
          (insert gameId
             (mkCaller (array_set (allNumbers caller)
                                  (KIndex (numberIndex caller))
                                  (Some (with_called d)))
                       (numberIndex caller + 1) (startTime caller)))
          s)).

(** *** Scenarios of the engine *)

(** The settings [createNewGame] gives a round when the environment sets
    nothing. *)
Definition default_settings : Settings := mkSettings 10 (5 # 100) 180 5 1.

(** What [declareWinner] persists on the round's row, and what the three
    increments make of the winner's row. *)
Definition settled (userId : option string) (cardNumber : nat) (now : Z)
    (g : Game) : Game :=
  with_end_time now (with_winner userId cardNumber (with_status completed g)).
Definition credited (winnings : Q) (u : User) : User :=
  add_games_won (add_total_won winnings (add_balance winnings u)).
Definition winnings_of (game : Game) : Q :=
  pot game * (1 - house_fee (settings game)).

(** Payout: an active round with pot 100 at a fee of 0.05, whose card 7
    belongs to a participant of balance [B]. *)
Definition payout_game : Game :=
  mkGame active 100 0 None default_settings [] [] None None.
Definition payout_state (B : Q) : State :=
  mkState ∅ {[sample_uuid := payout_game]} ∅ ∅ [] {[sample_uuid := payout_game]}
          [mkCard sample_uuid 7 NaN_card (Some "winner") (Some 0%Z) false]
          {["winner" := mkUser B 0 0 1]} [].


(** Cap: a waiting round in which a participant of balance 100 holds cards
    1 to 5, the cap being 5, and card 6 is free. *)
Definition capped_game : Game :=
  mkGame waiting 50 30000 None default_settings [] [] None None.
Definition capped_state : State :=
  mkState {[sample_uuid := capped_game]} ∅ {[sample_uuid := 30000%Z]} ∅ []
          {[sample_uuid := capped_game]}
          (((λ n, mkCard sample_uuid n NaN_card (Some "holder") (Some 0%Z) false)
              <$> seq 1 5)
           ++ [mkCard sample_uuid 6 NaN_card None None false])
          {["holder" := mkUser 100 0 0 5]} [].

(** A run: the engine starts with one participant of balance 100, creates a
    round, sells card 7, and the countdown ends. *)
Definition run_users : gmap string User := {["player" := mkUser 100 0 0 0]}.
Definition run_created : State :=
  (createNewGame (λ q, q) 10 (5 # 100) 180 5 sample_uuid 0
     (initial_state run_users)).1.
Definition run_purchased : State :=
  (purchaseCard source_scope sample_uuid "player" 7 1000 run_created).1.
Definition run_started : State :=
  (startGame (λ q, q) source_scope 10 (5 # 100) 180 5 sample_uuid
     (purchased_cards run_purchased sample_uuid) "next" (λ _, Finite 0) 30000
     run_purchased).1.
(** The countdown of a round without purchases ends. *)
Definition run_expired : State :=
  (startGame (λ q, q) source_scope 10 (5 # 100) 180 5 sample_uuid
     [] "next" (λ _, Finite 0) 30000 run_created).1.


(** The state [declareWinner] has written when it reaches
    [Transaction.create]. *)
Definition declare_written (s : State) (gameId userId : string)
    (cardNumber : nat) (now : Z) (game : Game) : State :=
  set_Card_table
    (fmap (λ c, if bool_decide (card_game_id c = gameId
                                ∧ card_number c = cardNumber)
                then with_is_winner c else c))
    (set_User_table (alter add_games_won userId)
       (set_User_table (alter (add_total_won (winnings_of game)) userId)
          (set_User_table (alter (add_balance (winnings_of game)) userId)
             (set_Game_table
                (alter (settled (Some userId) cardNumber now) gameId) s)))).

(** The refund [cancelGame] records for a card, and the state after the
    refund of a card where [Transaction] is bound. *)
Definition refund_of (gameId : string) (game : Game) (card : Card)
    : Transaction :=
  mkTransaction (user_id card) refund (bet_amount (settings game)) gameId
                (card_number card).
Definition refunded (gameId : string) (game : Game) (s : State) (card : Card)
    : State :=
  set_Transaction_table (λ t, t ++ [refund_of gameId game card])
    (match user_id card with
     | Some id =>
         set_User_table (alter (add_balance (bet_amount (settings game))) id) s
     | None => s
     end).

(** The round of the run once it is active, and its caller. *)
Definition run_game : Game :=
  with_start_time 30000
    (with_status active (with_pot (0 + 10) (new_game 10 (5 # 100) 180 5 0))).
Definition run_caller : Caller :=
  mkCaller (shuffle (λ _, Finite 0) 74 (mkArray (Some <$> all_numbers) ∅))
           0 30000.

(** *** Notions used in the further properties *)

(** What holds of a generated card whatever the seed: five rows of five
    cells; the center cell, and no other, is free; a number that is there
    lies in the range of its column, under that column's letter, and
    stands at one place only. *)
Definition sound_card (g : grid) : Prop :=
  is_5x5 g
  ∧ (∀ row col c, cell_at g row col = Some c →
       (cell_free c = true ↔ row = 2 ∧ col = 2)
       ∧ column_letter col = Some (cell_letter c)
       ∧ ∀ n, cell_number c = Some n → 15 * col + 1 ≤ n ≤ 15 * col + 15)
  ∧ (∀ r1 c1 r2 c2 x1 x2 n,
       cell_at g r1 c1 = Some x1 → cell_at g r2 c2 = Some x2 →
       cell_number x1 = Some n → cell_number x2 = Some n →
       r1 = r2 ∧ c1 = c2).

(** *** The states the operations of the engine arrive at *)

(** After [createNewGame]. *)
Definition created (sin : Q → Q) (BET_AMOUNT HOUSE_FEE : Q) (GAME_DURATION : Z)
    (MAX_CARDS_PER_PLAYER : nat) (s : State) (newId : string) (now : Z)
    : State :=
  let game := new_game BET_AMOUNT HOUSE_FEE GAME_DURATION MAX_CARDS_PER_PLAYER
                       now in
  set_gameTimers (insert newId (now + 30000)%Z)
    (set_waitingGames (insert newId game)
       (set_Card_table (λ t, t ++ new_cards sin newId)
          (set_Game_table (insert newId game) s))).

(** After a purchase: what [purchaseCard] has written when it reaches
    [Transaction.create], and the rest when that name is bound. *)
Definition purchased (bound : bool) (s : State) (gameId userId : string)
    (cardNumber place : nat) (card : Card) (game : Game) (now : Z) : State :=
  let written := purchase_written s gameId userId place card game now in
  if bound
  then set_User_table (alter add_games_played userId)
         (set_Transaction_table
            (λ t, t ++ [mkTransaction (Some userId) bet
                                      (bet_amount (settings game)) gameId
                                      cardNumber])
            written)
  else written.

(** After [cancelGame] on a round without purchased cards, before the
    replacement round is created. *)
Definition called_off (s : State) (gameId : string) (now : Z) : State :=
  set_gameTimers (delete gameId)
    (set_waitingGames (delete gameId)
       (set_Game_table
          (alter (λ g, with_end_time now (with_status cancelled g)) gameId)
          s)).

(** After [endGame] on an active round. *)
Definition ended (s : State) (gameId : string) (now : Z) : State :=
  set_newGameTimeouts (λ t, t ++ [(now + 5000)%Z])
    (set_activeGames (delete gameId)
       (set_Game_table
          (alter (λ g, with_end_time now (with_status completed g)) gameId)
          s)).

(** After [declareWinner] on an active round without a winner: what it has
    written when it reaches [Transaction.create], and the rest when that
    name is bound (the timeout is set once [winner.username] is read, which
    needs the winner's row). *)
Definition declared (bound : bool) (s : State) (gameId userId : string)
    (cardNumber : nat) (now : Z) (game : Game) : State :=
  let written := declare_written s gameId userId cardNumber now game in
  if bound
  then
    let removed :=
      set_activeGames (delete gameId)
        (set_activeGames (alter (settled (Some userId) cardNumber now) gameId)
           (set_Transaction_table
              (λ t, t ++ [mkTransaction (Some userId) win (winnings_of game)
                                        gameId cardNumber])
              written)) in
    if bool_decide (is_Some (User_table s !! userId))
    then set_newGameTimeouts (λ t, t ++ [(now + 10000)%Z]) removed
    else removed
  else written.

Section Outcomes.
Variable sin : Q → Q.
Variable scope : list string.
Variables (BET_AMOUNT HOUSE_FEE : Q) (GAME_DURATION : Z)
          (MAX_CARDS_PER_PLAYER : nat).

(** What a step of the engine makes of a state. *)
Inductive outcome (s : State) : State → Prop :=
| outcome_none : outcome s s
| outcome_created newId now :
    Game_table s !! newId = None →
    outcome s (created sin BET_AMOUNT HOUSE_FEE GAME_DURATION
                 MAX_CARDS_PER_PLAYER s newId now)
| outcome_purchased gameId userId cardNumber now game place card user :
    waitingGames s !! gameId = Some game →
    game_status game = waiting →
    find_free_card s gameId cardNumber = Some (place, card) →
    User_table s !! userId = Some user →
    (bet_amount (settings game) <= balance user)%Q →
    outcome s (purchased (bool_decide ("Transaction" ∈ scope)) s gameId userId
                 cardNumber place card game now)
| outcome_cancelled gameId newId now game :
    waitingGames s !! gameId = Some game →
    count_purchased s gameId = 0 →
    Game_table s !! newId = None →
    outcome s (created sin BET_AMOUNT HOUSE_FEE GAME_DURATION
                 MAX_CARDS_PER_PLAYER (called_off s gameId now) newId now)
| outcome_activated gameId random now game :
    waitingGames s !! gameId = Some game →
    1 ≤ count_purchased s gameId →
    Math_random_ok random →
    outcome s (activated s gameId game random now)
| outcome_caller_removed gameId caller :
    callIntervals s !! gameId = Some caller →
    activeGames s !! gameId = None →
    outcome s (set_callIntervals (delete gameId) s)
| outcome_ended gameId caller game now :
    callIntervals s !! gameId = Some caller →
    activeGames s !! gameId = Some game →
    tick_stops caller game now = true →
    outcome s (ended (set_callIntervals (delete gameId) s) gameId now)
| outcome_called gameId caller game now d :
    callIntervals s !! gameId = Some caller →
    activeGames s !! gameId = Some game →
    tick_stops caller game now = false →
    array_get (allNumbers caller) (KIndex (numberIndex caller)) = Some d →
    outcome s (pushed s gameId caller game d)
| outcome_won gameId caller game now d card userId :
    callIntervals s !! gameId = Some caller →
    activeGames s !! gameId = Some game →
    tick_stops caller game now = false →
    array_get (allNumbers caller) (KIndex (numberIndex caller)) = Some d →
    winner_id game = None →
    card ∈ purchased_cards s gameId →
    user_id card = Some userId →
    checkCardForBingo (numbers card) (called_numbers game ++ [with_called d])
    = Some true →
    outcome s (declared (bool_decide ("Transaction" ∈ scope))
                 (pushed s gameId caller game d) gameId userId
                 (card_number card) now
                 (with_calls (called_numbers game ++ [with_called d])
                    (last_three (called_numbers game ++ [with_called d]))
                    game)).
End Outcomes.

(** *** Invariants of the runs *)



(** The rows and the rounds in memory show as current calls the last three
    called numbers. *)
Record calls_inv (s : State) : Prop := {
  calls_row : ∀ g row, Game_table s !! g = Some row →
    current_calls row = last_three (called_numbers row);
  calls_waiting : ∀ g game, waitingGames s !! g = Some game →
    current_calls game = last_three (called_numbers game);
  calls_active : ∀ g game, activeGames s !! g = Some game →
    current_calls game = last_three (called_numbers game)
}.

(** What identifies a card: its round and its number (the unique index of
    the cards table). *)
Definition card_key (c : Card) : string * nat := (card_game_id c, card_number c).

(** The cards of a round, in table order. *)
Definition cards_of (s : State) (gameId : string) : list Card :=
  filter (λ c, card_game_id c = gameId) (Card_table s).

(** No two cards share round and number, and a round with a row has the
    cards numbered 1 to 400. *)
Record cards_inv (s : State) : Prop := {
  cards_NoDup : NoDup (card_key <$> Card_table s);
  cards_full : ∀ g, is_Some (Game_table s !! g) →
    card_number <$> cards_of s g = seq 1 400
}.


(** The run goes on: four numbers are called. *)
Definition run_tick (now : Z) (s : State) : State :=
  (tick source_scope sample_uuid (purchased_cards s sample_uuid) now s).1.
Definition run_called : State :=
  run_tick 42000 (run_tick 39000 (run_tick 36000 (run_tick 33000 run_started))).

(** The callers hold the 75 numbers and the rows only called numbers
    among them. *)
Record draws_inv (s : State) : Prop := {
  draws_caller : ∀ g caller, callIntervals s !! g = Some caller →
    caller_draws caller ≡ₚ draw_id <$> all_numbers;
  draws_row : ∀ g row, Game_table s !! g = Some row →
    draw_id <$> called_numbers row ⊆ draw_id <$> all_numbers
}.

(** A number of the game: its letter and its range are an entry of the
    table of [callNumbers]. *)
Definition bingo_number (d : Draw) : Prop :=
  ∃ start end_, (draw_letter d, (start, end_)) ∈ ranges
                ∧ start ≤ draw_number d ≤ end_.


(** [getGameState]: the round in memory, else the row ([null] when there
    is none). *)
Definition getGameState (gameId : string) : M (option Game) :=
  let* s := get in
  match waitingGames s !! gameId with
  | Some game => ret (Some game)
  | None =>
      match activeGames s !! gameId with
      | Some game => ret (Some game)
      | None => ret (Game_table s !! gameId)
      end
  end.

(** The cards among [cards] that belong to [userId]. *)
Definition cards_held (userId : string) (cards : list Card) : nat :=
  length (filter (λ c, user_id c = Some userId) cards).

(** The winner a row records is genuine: the winning card it names is in
    the table, belongs to that participant, is marked as winner, and has a
    complete line on the numbers the row says were called. *)
Definition genuine_winner (s : State) (g : string) (row : Game) : Prop :=
  ∀ u, winner_id row = Some u →
    ∃ n i c, winning_card row = Some n
      ∧ Card_table s !! i = Some c
      ∧ card_game_id c = g ∧ card_number c = n
      ∧ user_id c = Some u ∧ is_winner c = true
      ∧ checkCardForBingo (numbers c) (called_numbers row) = Some true.

Record winner_inv (s : State) : Prop := {
  winner_rows : ∀ g row, Game_table s !! g = Some row → genuine_winner s g row;
  winner_grids : Forall (λ c, is_5x5 (numbers c)) (Card_table s)
}.

(** A step keeps the cards that count for a winner. *)
Definition cards_kept (s s' : State) : Prop :=
  ∀ i c, Card_table s !! i = Some c → is_Some (user_id c) →
    ∃ c', Card_table s' !! i = Some c'
      ∧ card_game_id c' = card_game_id c ∧ card_number c' = card_number c
      ∧ numbers c' = numbers c ∧ user_id c' = user_id c
      ∧ (is_winner c = true → is_winner c' = true).

(** Draws of [Math.random()] that leave B1, I18, G50 and O66 at the head
    of the shuffled numbers: step [k] swaps with itself, but for the steps
    65, 49 and 17, which swap with the places 3, 2 and 1. *)
Definition random_pick (k : nat) : number :=
  let j := if k =? 65 then 3 else if k =? 49 then 2 else if k =? 17 then 1
           else k in
  Finite (Z.of_nat j # Pos.of_succ_nat k).

(** A run with a winner: the countdown ends, and four ticks call the
    diagonal of the card that was sold. *)
Definition win_started : State :=
  (startGame (λ q, q) source_scope 10 (5 # 100) 180 5 sample_uuid
     (purchased_cards run_purchased sample_uuid) "next" random_pick 30000
     run_purchased).1.
Definition win_called : State :=
  run_tick 42000 (run_tick 39000 (run_tick 36000 (run_tick 33000 win_started))).

(** ** Restoring the rounds at start-up *)

(** [startCountdown] at clock [now].  It returns [true] when the start time
    has passed and [startGame] is called at once; the call is not awaited,
    so it runs once the caller has run to its end.  Else the timer is
    armed. *)
Definition startCountdown (gameId : string) (now : Z) : M bool :=
  let* s := get in
  match waitingGames s !! gameId with
  | None => ret false
  | Some game =>
      let timeUntilStart := (start_time game - now)%Z in
      if (timeUntilStart <=? 0)%Z then ret true
      else modify (set_gameTimers (insert gameId (start_time game)));;
           ret false
  end.

(** What [loadActiveGames] leaves behind: the state, the rounds whose
    [startGame] was called, and the error its [catch] logged. *)
Record Loaded := mkLoaded {
  loaded_state : State;
  loaded_started : list string;
  loaded_error : option error
}.

(** The loop of [loadActiveGames] over the retrieved rows, from row [i] on;
    [clock i] is [Date.now()] while row [i] is handled.  The class has no
    method [resumeGame]: the call on an active row throws. *)
Fixpoint load_rows (clock : nat → Z) (i : nat) (rows : list (string * Game))
    (started : list string) (s : State) : Loaded :=
  match rows with
  | [] => mkLoaded s started None
  | (id, gameData) :: rest =>
      match game_status gameData with
      | waiting =>
          match startCountdown id (clock i)
                  (set_waitingGames (insert id gameData) s) with
          | (s', inr true) => load_rows clock (S i) rest (started ++ [id]) s'
          | (s', _) => load_rows clock (S i) rest started s'
          end
      | active =>
          mkLoaded (set_activeGames (insert id gameData) s) started
                   (Some (TypeError "this.resumeGame is not a function"))
      | _ => load_rows clock (S i) rest started s
      end
  end.

(** [loadActiveGames]; [retrieved] is what
    [Game.findAll({ where: { status: ['waiting', 'active'] } })] returns. *)
Definition loadActiveGames (clock : nat → Z) (retrieved : list (string * Game))
    (s : State) : Loaded :=
  load_rows clock 0 retrieved [] s.

(** ** The referral code of the User model *)

Definition chars : string := "ABCDEFGHIJKLMNOPQRSTUVWXYZ0123456789".

(** [s.charAt(x)]: the position is [x] with its fraction dropped ([NaN]
    counts as 0); out of range the result is the empty string. *)
Definition charAt (s : string) (x : number) : string :=
  match x with
  | NaN => match String.get 0 s with Some c => String c EmptyString
                                  | None => EmptyString end
  | Infinity _ => EmptyString
  | Finite q =>
      let z := if Qle_bool 0 q then Qfloor q else Qceiling q in
      if (z <? 0)%Z then EmptyString
      else match String.get (Z.to_nat z) s with
           | Some c => String c EmptyString
           | None => EmptyString
           end
  end.

(** [generateReferralCode]; [random i] is the value of the [i]-th call of
    [Math.random()]. *)
Definition generateReferralCode (random : nat → number) : string :=
  foldl (λ code i,
           code +:+ charAt chars
                      (Math_floor (number_mul (random i)
                                     (number_of_nat (String.length chars)))))
        EmptyString (seq 0 8).

(** * The notification queue of the Telegram service *)

Section Telegram.
(** The payload of a notification. *)
Variable Data : Type.

Record Player := mkPlayer { telegramChatId : option Z }.

Record Notification := mkNotification {
  chatId : option Z;
  n_type : string;
  n_data : Data;
  n_gameId : string
}.

(** The service: its queue, its flag, and the batches it has handed to
    [sendIndividualNotification], oldest first. *)
Record Telegram := mkTelegram {
  notificationQueue : list Notification;
  isProcessing : bool;
  handed : list (list Notification)
}.

Definition new_TelegramService : Telegram := mkTelegram [] false [].

(** The head of the [while] loop of [processNotificationQueue], up to its
    next [await]: with an empty queue the loop is left and the flag
    cleared; else [splice(0, 10)] takes a batch, every notification of the
    batch is handed over, and the loop waits. *)
Definition loop_head (t : Telegram) : Telegram :=
  match notificationQueue t with
  | [] => mkTelegram [] false (handed t)
  | _ => mkTelegram (drop 10 (notificationQueue t)) true
                    (handed t ++ [take 10 (notificationQueue t)])
  end.

(** [processNotificationQueue], up to its first [await]. *)
Definition processNotificationQueue (t : Telegram) : Telegram :=
  loop_head (mkTelegram (notificationQueue t) true (handed t)).

(** The loop of [processNotificationQueue] resumed after its two [await]s;
    there is a loop to resume only while the flag is set. *)
Definition resume (t : Telegram) : Telegram :=
  if isProcessing t then loop_head t else t.

(** [sendGameNotification], after [getGamePlayers] has returned
    [players]. *)
Definition sendGameNotification (players : list Player) (gameId type : string)
    (data : Data) (t : Telegram) : Telegram :=
  let notifications :=
    (λ player, mkNotification (telegramChatId player) type data gameId)
    <$> players in
  let t' := mkTelegram (notificationQueue t ++ notifications)
                       (isProcessing t) (handed t) in
  if isProcessing t' then t' else processNotificationQueue t'.

(** What happens to the service: a call of [sendGameNotification] gets its
    players, or the waiting loop is resumed. *)
Inductive event :=
| Notify (players : list Player) (gameId type : string) (data : Data)
| Resume.

Definition react (t : Telegram) (e : event) : Telegram :=
  match e with
  | Notify players gameId type data =>
      sendGameNotification players gameId type data t
  | Resume => resume t
  end.

Definition service_after (events : list event) : Telegram :=
  foldl react new_TelegramService events.

(** The notifications the calls among [events] have queued, in order. *)
Definition queued (events : list event) : list Notification :=
  events ≫= λ e,
    match e with
    | Notify players gameId type data =>
        (λ player, mkNotification (telegramChatId player) type data gameId)
        <$> players
    | Resume => []
    end.
End Telegram.

Arguments mkNotification {Data}.
Arguments chatId {Data}.
Arguments n_type {Data}.
Arguments n_data {Data}.
Arguments n_gameId {Data}.
Arguments mkTelegram {Data}.
Arguments notificationQueue {Data}.
Arguments isProcessing {Data}.
Arguments handed {Data}.
Arguments new_TelegramService {Data}.
Arguments loop_head {Data}.
Arguments processNotificationQueue {Data}.
Arguments resume {Data}.
Arguments sendGameNotification {Data}.
Arguments Notify {Data}.
Arguments Resume {Data}.
Arguments react {Data}.
Arguments service_after {Data}.
Arguments queued {Data}.

(** * Theorems *)

(** ** Keys *)

Lemma pretty_N_go_not_u x s s' :
  s ≠ String "u"%char s' → pretty_N_go x s ≠ String "u"%char s'.
Proof.
  revert s. induction (N.lt_wf_0 x) as [x _ IH]; intros s Hs.
  assert (x = 0 ∨ 0 < x)%N as [->|Hx] by lia.
  - by rewrite pretty_N_go_0.
  - rewrite pretty_N_go_step by done. apply IH.
    { by apply N.div_lt. }
    unfold pretty_N_char. by repeat case_match.
Qed.

Lemma pretty_nat_not_undefined (n : nat) : pretty n ≠ "undefined".
Proof.
  unfold pretty, pretty_nat, pretty, pretty_N.
  case_decide; [done|]. by apply pretty_N_go_not_u.
Qed.

Lemma letter_string_inj l1 l2 s1 s2 :
  letter_string l1 +:+ s1 = letter_string l2 +:+ s2 → l1 = l2 ∧ s1 = s2.
Proof. destruct l1, l2; simpl; intros [=]; done. Qed.

Lemma key_eq_iff (c : Cell) (d : Draw) :
  cell_key c = draw_key d
  ↔ draw_letter d = cell_letter c ∧ cell_number c = Some (draw_number d).
Proof.
  unfold cell_key, draw_key. split.
  - intros [Hl Hn]%letter_string_inj. split; [done|].
    destruct (cell_number c) as [n|]; simpl in Hn.
    + by apply (inj pretty) in Hn as ->.
    + symmetry in Hn. by apply pretty_nat_not_undefined in Hn.
  - intros [-> ->]. done.
Qed.

Lemma elem_of_calledSet (calledNumbers : list Draw) (c : Cell) :
  cell_key c ∈ calledSet_of calledNumbers ↔ matched calledNumbers c.
Proof.
  unfold calledSet_of, matched.
  rewrite elem_of_list_to_set, list_elem_of_fmap. split.
  - intros (d & Hk & Hd). exists d. split; [done|]. by apply key_eq_iff.
  - intros (d & Hd & Hl & Hn). exists d. split; [|done].
    apply key_eq_iff. done.
Qed.

(** ** The win predicate *)

Lemma cell_at_5x5 (g : grid) row col :
  is_5x5 g → row < 5 → col < 5 → is_Some (cell_at g row col).
Proof.
  intros [Hlen Hrows] Hr Hc. unfold cell_at.
  destruct (lookup_lt_is_Some_2 g row) as [r Hrow]; [lia|].
  rewrite Hrow. simpl. apply lookup_lt_is_Some_2.
  rewrite Forall_forall in Hrows.
  rewrite (Hrows r); [done|]. by eapply list_elem_of_lookup_2.
Qed.

Lemma line_complete_spec (g : grid) calledNumbers coords :
  in_bounds g coords →
  ∃ b, line_complete (calledSet_of calledNumbers) g coords = Some b
       ∧ (b = true ↔ line_wins g calledNumbers coords).
Proof.
  unfold line_wins. induction coords as [|[row col] rest IH]; intros Hb.
  - exists true. split; [done|]. split; [|done].
    intros _ r c Hin. by apply elem_of_nil in Hin.
  - apply Forall_cons in Hb as [[cell Hcell] Hrest]. simpl in Hcell.
    destruct (IH Hrest) as (b & Hrun & Hb). simpl. rewrite Hcell.
    assert (Hstep : (cell_free cell = true ∨ matched calledNumbers cell) →
      (b = true ↔ ∀ r c, (r, c) ∈ (row, col) :: rest →
         ∃ c0, cell_at g r c = Some c0
               ∧ (cell_free c0 = true ∨ matched calledNumbers c0))).
    { intros Hok. rewrite Hb. split.
      - intros H r c [[= -> ->]|Hin]%elem_of_cons; eauto.
      - intros H r c Hin. apply H. by right. }
    destruct (cell_free cell) eqn:Hfree.
    + exists b. split; [done|]. apply Hstep. by left.
    + case_bool_decide as Hin.
      * exists b. split; [done|]. apply Hstep. right.
        by apply elem_of_calledSet.
      * exists false. split; [done|]. split; [done|].
        intros H. destruct (H row col) as (c0 & Hc0 & [Hf|Hm]); [by left|..].
        -- congruence.
        -- assert (c0 = cell) as -> by congruence.
           by apply elem_of_calledSet in Hm.
Qed.

Lemma any_line_spec (g : grid) calledNumbers lines :
  Forall (in_bounds g) lines →
  ∃ b, any_line (calledSet_of calledNumbers) g lines = Some b
       ∧ (b = true ↔ ∃ coords, coords ∈ lines ∧ line_wins g calledNumbers coords).
Proof.
  induction lines as [|coords rest IH]; intros Hb.
  - exists false. split; [done|]. split; [done|].
    intros (? & Hin & _). by apply elem_of_nil in Hin.
  - apply Forall_cons in Hb as [Hc Hrest].
    destruct (line_complete_spec g calledNumbers coords Hc) as (b1 & Hrun1 & Hb1).
    destruct (IH Hrest) as (b & Hrun & Hb). simpl. rewrite Hrun1.
    destruct b1.
    + exists true. split; [done|]. split; [|done]. intros _.
      exists coords. split; [by left|]. by apply Hb1.
    + exists b. split; [done|]. rewrite Hb. split.
      * intros (l & Hin & Hl). exists l. split; [by right|done].
      * intros (l & [->|Hin]%elem_of_cons & Hl).
        -- apply Hb1 in Hl. done.
        -- eauto.
Qed.

Lemma diag_flag (calledNumbers : list Draw) (c : Cell) (flag : bool) :
  (if negb (cell_free c)
      && negb (bool_decide (cell_key c ∈ calledSet_of calledNumbers))
   then false else flag) = true
  ↔ flag = true ∧ (cell_free c = true ∨ matched calledNumbers c).
Proof.
  rewrite <-elem_of_calledSet.
  destruct (cell_free c); simpl; [tauto|].
  case_bool_decide; simpl; [tauto|].
  split; [done|]. intros [_ [?|?]]; done.
Qed.

Lemma diagonals_spec (g : grid) calledNumbers idx diag1 diag2 :
  Forall (λ i, is_Some (cell_at g i i) ∧ is_Some (cell_at g i (4 - i))) idx →
  ∃ r1 r2,
    diagonals (calledSet_of calledNumbers) g idx diag1 diag2 = Some (r1, r2)
    ∧ (r1 = true ↔
       diag1 = true ∧ ∀ i, i ∈ idx → cell_ok g calledNumbers i i)
    ∧ (r2 = true ↔
       diag2 = true ∧ ∀ i, i ∈ idx → cell_ok g calledNumbers i (4 - i)).
Proof.
  revert diag1 diag2. induction idx as [|i rest IH]; intros diag1 diag2 Hb.
  - exists diag1, diag2. split; [done|].
    split; (split; [intros ->; split; [done|]; intros ? []%elem_of_nil
                   |by intros [-> _]]).
  - apply Forall_cons in Hb as [[[c1 Hc1] [c2 Hc2]] Hrest]. simpl.
    rewrite Hc1, Hc2.
    match goal with
    | |- context [diagonals _ _ _ ?f1 ?f2] =>
        destruct (IH f1 f2 Hrest) as (r1 & r2 & Hrun & H1 & H2)
    end.
    exists r1, r2. split; [done|].
    rewrite H1, H2, !diag_flag. unfold cell_ok. split.
    + split.
      * intros [[? ?] Hall]. split; [done|].
        intros j [->|Hj]%elem_of_cons; eauto.
      * intros [? Hall]. split; [split; [done|]|].
        -- destruct (Hall i) as (c & Hc & Hok); [by left|]. congruence.
        -- intros j Hj. apply Hall. by right.
    + split.
      * intros [[? ?] Hall]. split; [done|].
        intros j [->|Hj]%elem_of_cons; eauto.
      * intros [? Hall]. split; [split; [done|]|].
        -- destruct (Hall i) as (c & Hc & Hok); [by left|]. congruence.
        -- intros j Hj. apply Hall. by right.
Qed.

Lemma line_wins_diag1 (g : grid) calledNumbers :
  line_wins g calledNumbers diag1_coords
  ↔ ∀ i, i ∈ seq 0 5 → cell_ok g calledNumbers i i.
Proof.
  unfold line_wins, diag1_coords, cell_ok. split.
  - intros H i Hi. apply H. apply list_elem_of_fmap. eauto.
  - intros H row col (i & [= -> ->] & Hi)%list_elem_of_fmap. by apply H.
Qed.

Lemma line_wins_diag2 (g : grid) calledNumbers :
  line_wins g calledNumbers diag2_coords
  ↔ ∀ i, i ∈ seq 0 5 → cell_ok g calledNumbers i (4 - i).
Proof.
  unfold line_wins, diag2_coords, cell_ok. split.
  - intros H i Hi. apply H. apply list_elem_of_fmap. eauto.
  - intros H row col (i & [= -> ->] & Hi)%list_elem_of_fmap. by apply H.
Qed.

Lemma rows_in_bounds (g : grid) :
  is_5x5 g → Forall (in_bounds g) (row_coords <$> seq 0 5).
Proof.
  intros Hg. apply Forall_fmap, Forall_forall. intros row Hrow.
  apply elem_of_seq in Hrow. simpl. unfold in_bounds, row_coords.
  apply Forall_fmap, Forall_forall. intros col Hcol.
  apply elem_of_seq in Hcol. simpl. apply cell_at_5x5; [done|lia..].
Qed.

Lemma cols_in_bounds (g : grid) :
  is_5x5 g → Forall (in_bounds g) (col_coords <$> seq 0 5).
Proof.
  intros Hg. apply Forall_fmap, Forall_forall. intros col Hcol.
  apply elem_of_seq in Hcol. simpl. unfold in_bounds, col_coords.
  apply Forall_fmap, Forall_forall. intros row Hrow.
  apply elem_of_seq in Hrow. simpl. apply cell_at_5x5; [done|lia..].
Qed.

(** C2. On a 5×5 grid [checkCardForBingo] returns a boolean, and it is
    [true] exactly when some row, some column or one of the two diagonals
    has every cell free or with its letter and number among the called
    draws. *)
Theorem checkCardForBingo_iff_bingo (cardNumbers : grid)
    (calledNumbers : list Draw) :
  is_5x5 cardNumbers →
  ∃ b, checkCardForBingo cardNumbers calledNumbers = Some b
       ∧ (b = true ↔ bingo cardNumbers calledNumbers).
Proof.
  intros Hg. unfold checkCardForBingo.
  destruct (any_line_spec cardNumbers calledNumbers _ (rows_in_bounds _ Hg))
    as (br & -> & Hr).
  destruct (any_line_spec cardNumbers calledNumbers _ (cols_in_bounds _ Hg))
    as (bc & -> & Hc).
  edestruct (diagonals_spec cardNumbers calledNumbers (seq 0 5) true true)
    as (r1 & r2 & -> & H1 & H2).
  { apply Forall_forall. intros i Hi%elem_of_seq.
    split; apply cell_at_5x5; first [done|lia]. }
  assert (Hrows : br = true ↔
    ∃ row, row < 5 ∧ line_wins cardNumbers calledNumbers (row_coords row)).
  { rewrite Hr. split.
    - intros (l & (row & -> & Hrow%elem_of_seq)%list_elem_of_fmap & Hl).
      exists row. split; [lia|done].
    - intros (row & Hrow & Hl). exists (row_coords row). split; [|done].
      apply list_elem_of_fmap. exists row. split; [done|].
      apply elem_of_seq. lia. }
  assert (Hcols : bc = true ↔
    ∃ col, col < 5 ∧ line_wins cardNumbers calledNumbers (col_coords col)).
  { rewrite Hc. split.
    - intros (l & (col & -> & Hcol%elem_of_seq)%list_elem_of_fmap & Hl).
      exists col. split; [lia|done].
    - intros (col & Hcol & Hl). exists (col_coords col). split; [|done].
      apply list_elem_of_fmap. exists col. split; [done|].
      apply elem_of_seq. lia. }
  assert (Hbingo : bingo cardNumbers calledNumbers
    ↔ br = true ∨ bc = true ∨ r1 = true ∨ r2 = true).
  { unfold bingo.
    rewrite line_wins_diag1, line_wins_diag2, Hrows, Hcols, H1, H2. tauto. }
  destruct br; [exists true; rewrite Hbingo; tauto|].
  destruct bc; [exists true; rewrite Hbingo; tauto|].
  exists (r1 || r2). split; [done|].
  rewrite Hbingo, orb_true_iff. intuition discriminate.
Qed.
(** ** The seeded draws *)


Lemma frac_unit (q : Q) :
  (0 <= q - inject_Z (Qfloor q))%Q ∧ (q - inject_Z (Qfloor q) < 1)%Q.
Proof.
  pose proof (Qfloor_le q) as Hle. pose proof (Qlt_floor q) as Hlt.
  rewrite inject_Z_plus in Hlt. change (inject_Z 1) with 1%Q in Hlt.
  split; lra.
Qed.

Lemma seededRandom_unit sin seed index :
  unit_draw (seededRandom sin seed index).
Proof.
  unfold seededRandom, unit_draw.
  destruct (StringToNumber _) as [| |q]; simpl; [by left..|].
  right. eexists. split; [done|]. apply frac_unit.
Qed.

Lemma seededRandom_NaN sin seed index :
  is_NaN (seededRandom sin seed index) = draw_is_NaN seed index.
Proof.
  unfold seededRandom, draw_is_NaN.
  by destruct (StringToNumber _) as [| |q].
Qed.

(** The index chosen by a finite draw at step [i] lies in [0, i]. *)
Lemma finite_draw_key (r : Q) (i : nat) :
  (0 <= r)%Q → (r < 1)%Q →
  ∃ j, j ≤ i ∧
    ToPropertyKey (Math_floor (number_mul (Finite r) (number_of_nat (i + 1))))
    = KIndex j.
Proof.
  intros H0 H1.
  unfold ToPropertyKey, Math_floor, number_mul, number_of_nat.
  rewrite Qfloor_Z.
  set (z := Qfloor (r * inject_Z (Z.of_nat (i + 1)))).
  assert (Hz0 : (0 <= z)%Z).
  { change 0%Z with (Qfloor 0). apply Qfloor_resp_le.
    apply Qmult_le_0_compat; [done|].
    change 0%Q with (inject_Z 0). rewrite <-Zle_Qle. lia. }
  assert (Hz1 : (z < Z.of_nat (i + 1))%Z).
  { rewrite Zlt_Qlt. eapply Qle_lt_trans; [apply Qfloor_le|].
    rewrite <-(Qmult_1_l (inject_Z (Z.of_nat (i + 1)))) at 2.
    apply Qmult_lt_r; [|done].
    change 0%Q with (inject_Z 0). rewrite <-Zlt_Qlt. lia. }
  exists (Z.to_nat z). split; [lia|].
  destruct (Z.leb_spec 0 z); [done|lia].
Qed.

(** ** The shuffle *)

Lemma omap_id_Some {A} (l : list A) : omap id (Some <$> l) = l.
Proof. induction l as [|x l IH]; csimpl; [done|]. by rewrite IH. Qed.

Section ShuffleInvariant.
(** [random] gives the draw of each step, [univ] is the array before
    the shuffle. *)
Context {A : Type}.
Variable random : nat → number.
Variable univ : list A.
Hypothesis random_unit : ∀ k, unit_draw (random k).


Lemma shuffle_inv_init :
  shuffle_inv random univ (length univ - 1) (mkArray (Some <$> univ) ∅).
Proof.
  split; cbn [items props].
  - by rewrite length_fmap.
  - intros p _. apply lookup_empty.
  - rewrite lookup_empty. cbn [option_list]. by rewrite omap_id_Some, app_nil_r.
  - intros k Hk. rewrite list_lookup_fmap in Hk.
    by destruct (univ !! k).
  - intros _ k' Hk'. lia.
  - intros k Hk. lia.
  - intros _. apply lookup_empty.
Qed.

Lemma no_hole i a k :
  shuffle_inv random univ i a → k ≤ i → i < length univ →
  ∃ x, items a !! k = Some (Some x).
Proof.
  intros Hinv Hk Hi.
  destruct (lookup_lt_is_Some_2 (items a) k) as [[x|] Hx].
  { rewrite (inv_length _ _ _ _ Hinv). lia. }
  - by exists x.
  - apply (inv_holes _ _ _ _ Hinv) in Hx. lia.
Qed.

Lemma omap_insert_defined (l : list (option A)) i x o :
  l !! i = Some (Some x) →
  omap id (<[i := o]> l) ++ [x] ≡ₚ omap id l ++ option_list o.
Proof.
  intros Hi. apply list_elem_of_split_length in Hi as (l1 & l2 & -> & ->).
  rewrite insert_app_r_alt, Nat.sub_diag by lia. simpl.
  rewrite !omap_app. simpl.
  destruct o as [y|]; simpl; solve_Permutation.
Qed.

Lemma shuffle_inv_step i a :
  0 < i < length univ → shuffle_inv random univ i a →
  shuffle_inv random univ (i - 1)
    (array_swap a i
       (ToPropertyKey
          (Math_floor (number_mul (random i) (number_of_nat (i + 1)))))).
Proof.
  intros Hi Hinv.
  destruct (no_hole i a i Hinv) as [x Hx]; [lia..|].
  pose proof (inv_length _ _ _ _ Hinv) as Hlen.
  assert (Hlt : (i <? length (items a)) = true).
  { apply Nat.ltb_lt. lia. }
  destruct (random_unit i) as [Hnan|(r & Hr & H0 & H1)].
  - (* the draw is NaN: the slot and the property NaN trade places *)
    rewrite Hnan. simpl. unfold array_swap. simpl.
    rewrite Hx. simpl. rewrite Hlt.
    split; simpl.
    + by rewrite length_insert.
    + intros p Hp. rewrite lookup_insert_ne by done.
      by apply (inv_props _ _ _ _ Hinv).
    + rewrite lookup_insert_eq. simpl.
      rewrite omap_insert_defined by done. apply (inv_perm _ _ _ _ Hinv).
    + intros k Hk. destruct (decide (k = i)) as [->|Hne].
      * rewrite list_lookup_insert_eq in Hk by lia.
        injection Hk as Hk. split; [lia|]. split; [by rewrite Hnan|].
        intros k' Hk'. apply (inv_first _ _ _ _ Hinv); [done|lia].
      * rewrite list_lookup_insert_ne in Hk by done.
        apply (inv_holes _ _ _ _ Hinv) in Hk as (? & ? & ?).
        split; [lia|done].
    + rewrite lookup_insert_eq. done.
    + intros k Hk Hknan Htop. destruct (decide (k = i)) as [->|Hne].
      * rewrite list_lookup_insert_eq by lia. f_equal.
        apply (inv_none _ _ _ _ Hinv). intros k' Hk'. apply Htop. lia.
      * rewrite list_lookup_insert_ne by done.
        apply (inv_top _ _ _ _ Hinv); [lia|done..].
    + intros Hall. specialize (Hall i). rewrite Hnan in Hall.
      discriminate Hall. lia.
  - (* a finite draw: two slots at or below i are exchanged *)
    rewrite Hr. destruct (finite_draw_key r i H0 H1) as (j & Hj & ->).
    destruct (no_hole i a j Hinv) as [y Hy]; [lia..|].
    unfold array_swap. simpl. rewrite Hx, Hy. simpl. rewrite Hlt.
    rewrite length_insert.
    assert (Hjlt : (j <? length (items a)) = true).
    { apply Nat.ltb_lt. lia. }
    rewrite Hjlt.
    split; simpl.
    + by rewrite !length_insert.
    + apply (inv_props _ _ _ _ Hinv).
    + rewrite (Permutation_insert_swap (items a) i j (Some x) (Some y))
        by done.
      apply (inv_perm _ _ _ _ Hinv).
    + intros k Hk.
      destruct (decide (k = j)) as [->|Hnej].
      { rewrite list_lookup_insert_eq in Hk by (rewrite length_insert; lia).
        done. }
      rewrite list_lookup_insert_ne in Hk by done.
      destruct (decide (k = i)) as [->|Hnei].
      { rewrite list_lookup_insert_eq in Hk by lia. done. }
      rewrite list_lookup_insert_ne in Hk by done.
      apply (inv_holes _ _ _ _ Hinv) in Hk as (? & ? & ?).
      split; [lia|done].
    + intros Hnone k' Hk'. destruct (decide (k' = i)) as [->|Hne].
      * by rewrite Hr.
      * apply (inv_first _ _ _ _ Hinv); [done|lia].
    + intros k Hk Hknan Htop.
      assert (k ≠ i) by (intros ->; by rewrite Hr in Hknan).
      rewrite !list_lookup_insert_ne by lia.
      apply (inv_top _ _ _ _ Hinv); [lia|done..].
    + intros Hall. apply (inv_none _ _ _ _ Hinv).
      intros k' Hk'. apply Hall. lia.
Qed.

Lemma shuffle_inv_run i a :
  i < length univ → shuffle_inv random univ i a → shuffle_inv random univ 0 (shuffle random i a).
Proof.
  revert a. induction i as [|i IH]; intros a Hi Hinv; [done|].
  simpl. apply IH; [lia|].
  replace i with (S i - 1) at 1 by lia.
  replace (S (i + 1)) with (S i + 1) by lia.
  apply shuffle_inv_step; [lia|done].
Qed.

Lemma shuffle_inv_final :
  shuffle_inv random univ 0 (shuffle random (length univ - 1) (mkArray (Some <$> univ) ∅)).
Proof.
  destruct (decide (length univ = 0)) as [H0|Hn].
  - pose proof shuffle_inv_init as H. rewrite H0 in *. exact H.
  - apply shuffle_inv_run; [lia|apply shuffle_inv_init].
Qed.
End ShuffleInvariant.

(** ** The five numbers selected for a column *)

Lemma all_defined {A} (l : list (option A)) :
  Forall is_Some l → l = Some <$> omap id l.
Proof.
  induction 1 as [|o l [x ->] _ IH]; csimpl; [done|]. by rewrite <-IH.
Qed.

Section Selected.
Variable random : nat → number.
Variable univ : list nat.
Hypothesis random_unit : ∀ k, unit_draw (random k).
Hypothesis univ_NoDup : NoDup univ.
Hypothesis univ_length : 5 ≤ length univ.

Let shuffled := shuffle random (length univ - 1) (mkArray (Some <$> univ) ∅).


Lemma highest_NaN (lo hi : nat) :
  (∃ i, lo ≤ i < hi ∧ is_NaN (random i) = true) →
  ∃ i, lo ≤ i < hi ∧ is_NaN (random i) = true
       ∧ ∀ k', i < k' < hi → is_NaN (random k') = false.
Proof.
  induction hi as [|h IH]; intros (i & Hi & Hnan); [lia|].
  destruct (is_NaN (random h)) eqn:Hh.
  - destruct (decide (lo ≤ h)) as [Hlo|Hlo]; [|lia].
    exists h. split; [lia|]. split; [done|]. intros k' Hk'. lia.
  - assert (i ≠ h) by congruence.
    destruct IH as (i' & Hi' & Hnan' & Htop); [exists i; split; [lia|done]|].
    exists i'. split; [lia|]. split; [done|].
    intros k' Hk'. destruct (decide (k' = h)) as [->|?]; [done|].
    apply Htop. lia.
Qed.

Lemma selected_numbers :
  late_NaN_covered random univ = true →
  ∃ vs, take 5 (items shuffled) = Some <$> vs
        ∧ length vs = 5 ∧ NoDup vs ∧ vs ⊆ univ.
Proof.
  intros Hsafe.
  pose proof (shuffle_inv_final random univ random_unit) as Hinv.
  fold shuffled in Hinv.
  pose proof (inv_length _ _ _ _ Hinv) as Hlen.
  assert (Hdef : Forall is_Some (take 5 (items shuffled))).
  { apply Forall_lookup. intros k o Hk.
    apply lookup_take_Some in Hk as [Hk Hk5].
    destruct o as [x|]; [done|].
    apply (inv_holes _ _ _ _ Hinv) in Hk as (Hk0 & Hnan & Htop).
    unfold late_NaN_covered in Hsafe.
    assert (Hlate : existsb (λ i, is_NaN (random i)) (seq 1 4) = true).
    { apply existsb_exists. exists k. split; [|done].
      apply in_seq. lia. }
    rewrite Hlate in Hsafe. simpl in Hsafe.
    apply existsb_exists in Hsafe as (i & Hi%in_seq & Hinan).
    rewrite Htop in Hinan; [done|lia]. }
  exists (omap id (take 5 (items shuffled))).
  assert (Hnd : NoDup (omap id (items shuffled))).
  { pose proof (inv_perm _ _ _ _ Hinv) as Hperm.
    rewrite <-Hperm in univ_NoDup. by apply NoDup_app in univ_NoDup as [? _]. }
  split; [by apply all_defined|]. split; [|split].
  - apply all_defined in Hdef.
    rewrite <-(length_fmap Some), <-Hdef, length_take. lia.
  - rewrite <-(take_drop 5 (items shuffled)), omap_app in Hnd.
    by apply NoDup_app in Hnd as [? _].
  - intros x Hx. rewrite <-(inv_perm _ _ _ _ Hinv).
    apply elem_of_app. left.
    rewrite <-(take_drop 5 (items shuffled)), omap_app.
    apply elem_of_app. by left.
Qed.

(** Conversely an uncovered late NaN draw leaves [undefined] among the
    five selected values. *)
Lemma selected_undefined :
  late_NaN_covered random univ = false → None ∈ take 5 (items shuffled).
Proof.
  intros Hunsafe.
  pose proof (shuffle_inv_final random univ random_unit) as Hinv.
  fold shuffled in Hinv.
  unfold late_NaN_covered in Hunsafe.
  destruct (existsb _ (seq 1 4)) eqn:Hlate; [|done].
  simpl in Hunsafe.
  apply existsb_exists in Hlate as (i0 & Hi0%in_seq & Hnan0).
  destruct (highest_NaN 1 (length univ)) as (i & Hi & Hnan & Htop).
  { exists i0. split; [lia|done]. }
  assert (i < 5).
  { destruct (decide (i < 5)); [done|].
    assert (existsb (λ i, is_NaN (random i)) (seq 5 (length univ - 5)) = true)
      as Hex; [|congruence].
    apply existsb_exists. exists i. split; [|done]. apply in_seq. lia. }
  apply list_elem_of_lookup. exists i.
  rewrite lookup_take_lt by done.
  apply (inv_top _ _ _ _ Hinv); [lia|done..].
Qed.
End Selected.

(** ** From the columns to the card *)

Lemma shuffled_column_length random colIndex min max :
  (∀ k, unit_draw (random k)) →
  length (items (shuffled_column random colIndex min max))
  = length (column_range min max).
Proof.
  intros Hunit. unfold shuffled_column. cbn [items]. rewrite length_fmap.
  apply (inv_length _ _ _ _
    (shuffle_inv_final (λ i, random (colIndex * 100 + i))
                       (column_range min max) (λ i, Hunit _))).
Qed.

Lemma list_of_length_5 {A} (l : list A) :
  length l = 5 → ∃ a b c d e, l = [a; b; c; d; e].
Proof.
  destruct l as [|a [|b [|c [|d [|e [|f l]]]]]]; simpl; intros H; try lia.
  by exists a, b, c, d, e.
Qed.

Lemma build_card_layout random :
  (∀ k, unit_draw (random k)) →
  build_card random = layout (selected_columns random).
Proof.
  intros Hunit. unfold build_card, selected_columns, ranges.
  cbn [imap foldl fmap list_fmap add_column compose].
  assert (Hlen : ∀ colIndex min max, length (column_range min max) = 15 →
    length (take 5 (items (shuffled_column random colIndex min max))) = 5).
  { intros colIndex min max Hr. rewrite length_take.
    rewrite shuffled_column_length, Hr by done. done. }
  destruct (list_of_length_5 _ (Hlen 0 1 15 eq_refl))
    as (a0 & a1 & a2 & a3 & a4 & ->).
  destruct (list_of_length_5 _ (Hlen 1 16 30 eq_refl))
    as (b0 & b1 & b2 & b3 & b4 & ->).
  destruct (list_of_length_5 _ (Hlen 2 31 45 eq_refl))
    as (c0 & c1 & c2 & c3 & c4 & ->).
  destruct (list_of_length_5 _ (Hlen 3 46 60 eq_refl))
    as (d0 & d1 & d2 & d3 & d4 & ->).
  destruct (list_of_length_5 _ (Hlen 4 61 75 eq_refl))
    as (e0 & e1 & e2 & e3 & e4 & ->).
  reflexivity.
Qed.


Ltac five_numbers H :=
  let vs := fresh "vs" in
  let Hlen := fresh "Hlen" in
  let Hnd := fresh "Hnd" in
  let Hr := fresh "Hr" in
  destruct H as (vs & -> & Hlen & Hnd & Hr);
  apply list_of_length_5 in Hlen as (? & ? & ? & ? & ? & ->);
  repeat (apply NoDup_cons in Hnd as [? Hnd]);
  apply Forall_forall in Hr;
  repeat (apply Forall_cons in Hr as [? Hr]);
  clear Hr Hnd.

(** Two numbers of a card differ: by their ranges when they stand in
    different columns, by the column's own distinctness otherwise. *)
Ltac distinct_numbers :=
  match goal with
  | |- ?a ≠ ?b =>
      first
        [ match goal with
          | Ha : _ ≤ a ≤ _ |- _ =>
              match goal with
              | Hb : _ ≤ b ≤ _ |- _ => clear -Ha Hb; lia
              end
          end
        | match goal with
          | H : a ∉ _ |- _ =>
              let E := fresh in
              intros E; apply H; rewrite E; clear;
              rewrite !elem_of_cons; eauto 10
          end ]
  end.

Lemma card_numbers_layout (a0 a1 a2 a3 a4 b0 b1 b2 b3 b4 c0 c1 c2 c3 c4
    d0 d1 d2 d3 d4 e0 e1 e2 e3 e4 : option nat) :
  card_numbers (layout [[a0; a1; a2; a3; a4]; [b0; b1; b2; b3; b4];
                        [c0; c1; c2; c3; c4]; [d0; d1; d2; d3; d4];
                        [e0; e1; e2; e3; e4]])
  = [a0; b0; c0; d0; e0; a1; b1; c1; d1; e1; a2; b2; c2; d2; e2;
     a3; b3; c3; d3; e3; a4; b4; c4; d4; e4].
Proof. reflexivity. Qed.

Lemma layout_well_formed (cols : list (list (option nat))) :
  length cols = 5 →
  (∀ col column, cols !! col = Some column → good_column col column) →
  well_formed_card (layout cols).
Proof.
  intros Hlen Hcols.
  apply list_of_length_5 in Hlen as (k0 & k1 & k2 & k3 & k4 & ->).
  pose proof (Hcols 0 _ eq_refl) as H0.
  pose proof (Hcols 1 _ eq_refl) as H1.
  pose proof (Hcols 2 _ eq_refl) as H2.
  pose proof (Hcols 3 _ eq_refl) as H3.
  pose proof (Hcols 4 _ eq_refl) as H4.
  clear Hcols.
  five_numbers H0. five_numbers H1. five_numbers H2.
  five_numbers H3. five_numbers H4.
  split; [|split; [|split]].
  - split; [done|]. repeat constructor.
  - intros row col c Hc.
    do 5 (destruct row as [|row]; [
      do 5 (destruct col as [|col]; [injection Hc as <-; simpl; split;
             [try done; intros [? ?]; lia | try done; intros [? ?]; lia]|]);
      by destruct col |]).
    done.
  - intros row col c Hc.
    do 5 (destruct row as [|row]; [
      do 5 (destruct col as [|col]; [injection Hc as <-; split; [done|];
             eexists; split; [reflexivity|lia]|]);
      by destruct col |]).
    done.
  - cbn [fmap list_fmap]. rewrite card_numbers_layout.
    match goal with
    | |- NoDup ?l =>
        match eval cbv [omap id] in (omap id l) with
        | ?vs => change l with (Some <$> vs)
        end
    end.
    apply (NoDup_fmap_2 Some).
    repeat (apply NoDup_cons; split;
            [repeat (apply not_elem_of_cons; split; [distinct_numbers|]);
             apply not_elem_of_nil|]).
    apply NoDup_nil_2.
Qed.

(** ** Strings that no context makes numeric *)



Lemma string_app_assoc (s1 s2 s3 : string) :
  (s1 +:+ s2) +:+ s3 = s1 +:+ s2 +:+ s3.
Proof.
  induction s1 as [|c s1 IH]; [done|].
  change ((String c s1 +:+ s2) +:+ s3) with (String c ((s1 +:+ s2) +:+ s3)).
  by rewrite IH.
Qed.








(** ** The generated card *)

Lemma selected_columns_length random : length (selected_columns random) = 5.
Proof. done. Qed.

Lemma column_covered sin seed col :
  safe_column seed col = true →
  late_NaN_covered (λ i, seededRandom sin seed (col * 100 + i))
                   (column_range (15 * col + 1) (15 * col + 15)) = true.
Proof.
  intros Hsafe. unfold late_NaN_covered.
  replace (length (column_range (15 * col + 1) (15 * col + 15))) with 15
    by (unfold column_range; rewrite length_seq; lia).
  unfold safe_column in Hsafe. cbn [seq existsb Nat.sub] in *.
  by rewrite !seededRandom_NaN.
Qed.

Lemma column_range_NoDup min max : NoDup (column_range min max).
Proof. apply NoDup_seq. Qed.

Lemma safe_columns_good sin seed :
  forallb (safe_column seed) (seq 0 5) = true →
  ∀ col column, selected_columns (seededRandom sin seed) !! col = Some column →
    good_column col column.
Proof.
  intros Hsafe col column Hcol.
  assert (Hc : col < 5).
  { apply lookup_lt_Some in Hcol. by rewrite selected_columns_length in Hcol. }
  assert (Hs : safe_column seed col = true).
  { rewrite forallb_forall in Hsafe. apply Hsafe, in_seq. lia. }
  assert (column = take 5 (items (shuffled_column (seededRandom sin seed) col
                                     (15 * col + 1) (15 * col + 15)))) as ->.
  { do 5 (destruct col as [|col]; [by injection Hcol as <-|]). lia. }
  destruct (selected_numbers (λ i, seededRandom sin seed (col * 100 + i))
              (column_range (15 * col + 1) (15 * col + 15)))
    as (vs & Hvs & Hlen & Hnd & Hsub).
  - intros k. apply seededRandom_unit.
  - apply column_range_NoDup.
  - unfold column_range. rewrite length_seq. lia.
  - by apply column_covered.
  - exists vs. split; [|split; [done|split; [done|]]].
    + rewrite <-Hvs. unfold shuffled_column. cbn [items].
      by rewrite length_fmap.
    + intros n Hn%Hsub. unfold column_range in Hn.
      apply elem_of_seq in Hn. lia.
Qed.

Lemma seed_safe_well_formed sin cardNumber gameId :
  seed_safe cardNumber gameId = true →
  well_formed_card (generateCardNumbers sin cardNumber gameId).
Proof.
  intros Hsafe. unfold generateCardNumbers.
  rewrite build_card_layout by (intros k; apply seededRandom_unit).
  apply layout_well_formed; [done|]. by apply safe_columns_good.
Qed.

Lemma cell_at_layout cols row col :
  row < 5 → col < 5 →
  cell_at (layout cols) row col = Some (layout_cell cols row col).
Proof.
  intros Hr Hc.
  do 5 (destruct row as [|row];
        [by do 5 (destruct col as [|col]; [done|]); lia|]).
  lia.
Qed.

Lemma seed_unsafe_ill_formed sin cardNumber gameId :
  seed_safe cardNumber gameId = false →
  ¬ well_formed_card (generateCardNumbers sin cardNumber gameId).
Proof.
  intros Hunsafe (_ & _ & Hnum & _). unfold generateCardNumbers in Hnum.
  rewrite build_card_layout in Hnum by (intros k; apply seededRandom_unit).
  set (seed := card_seed cardNumber gameId) in *.
  assert (∃ col, col < 5 ∧ safe_column seed col = false) as (col & Hc & Hs).
  { unfold seed_safe in Hunsafe. fold seed in Hunsafe.
    cbn [seq forallb] in Hunsafe.
    destruct (safe_column seed 0) eqn:E0; [|exists 0; split; [lia|done]].
    destruct (safe_column seed 1) eqn:E1; [|exists 1; split; [lia|done]].
    destruct (safe_column seed 2) eqn:E2; [|exists 2; split; [lia|done]].
    destruct (safe_column seed 3) eqn:E3; [|exists 3; split; [lia|done]].
    destruct (safe_column seed 4) eqn:E4; [|exists 4; split; [lia|done]].
    done. }
  assert (Hundef : None ∈ take 5 (items (shuffled_column (seededRandom sin seed)
      col (15 * col + 1) (15 * col + 15)))).
  { pose proof (selected_undefined
      (λ i, seededRandom sin seed (col * 100 + i))
      (column_range (15 * col + 1) (15 * col + 15))
      (λ k, seededRandom_unit sin seed _)) as Hu.
    unfold shuffled_column. cbn [items]. rewrite length_fmap.
    apply Hu; [unfold column_range; rewrite length_seq; lia|].
    apply not_true_iff_false. intros E.
    apply not_true_iff_false in Hs. apply Hs. unfold late_NaN_covered in E.
    replace (length (column_range (15 * col + 1) (15 * col + 15))) with 15 in E
      by (unfold column_range; rewrite length_seq; lia).
    unfold safe_column. cbn [seq existsb Nat.sub] in *.
    by rewrite !seededRandom_NaN in E. }
  apply list_elem_of_lookup in Hundef as [row Hrow].
  assert (row < 5).
  { apply lookup_lt_Some in Hrow. rewrite length_take in Hrow. lia. }
  destruct (Hnum row col (layout_cell (selected_columns (seededRandom sin seed))
                                      row col)) as (_ & n & Hn & _).
  { by apply cell_at_layout. }
  assert (cell_number (layout_cell (selected_columns (seededRandom sin seed))
                                   row col) = None) as Hnone; [|congruence].
  unfold layout_cell.
  assert (selected_columns (seededRandom sin seed) !! col
          = Some (take 5 (items (shuffled_column (seededRandom sin seed) col
                                   (15 * col + 1) (15 * col + 15))))) as ->.
  { do 5 (destruct col as [|col]; [done|]). lia. }
  destruct (bool_decide _); cbn [set_center cell_number mbind option_bind];
    by rewrite Hrow.
Qed.

(** ** Seeds that are not numeric *)





Lemma NonNumeric_seed_safe cardNumber gameId :
  NonNumeric gameId → seed_safe cardNumber gameId = true.
Proof.
  intros Hg. unfold seed_safe. apply forallb_forall. intros col _.
  unfold safe_column, draw_is_NaN, card_seed. cbn [seq existsb].
  by rewrite !string_app_assoc, !Hg.
Qed.

(** ** The claims about the win predicate and the generator *)

Lemma NaN_card_5x5 : is_5x5 NaN_card.
Proof. split; [vm_compute; reflexivity|vm_compute; repeat constructor]. Qed.

(** Witness of C2 on the card with a NaN seed and row 0 called. *)
Lemma checkCardForBingo_iff_bingo_witness :
  is_5x5 NaN_card
  ∧ ∃ b, checkCardForBingo NaN_card row0_calls = Some b
         ∧ (b = true ↔ bingo NaN_card row0_calls).
Proof.
  split; [exact NaN_card_5x5|].
  apply (checkCardForBingo_iff_bingo NaN_card row0_calls NaN_card_5x5).
Defined.

(** The scenarios of C2: row 0 fully matched and nothing else, no line
    matched (nothing called, or four cells of row 0 only), only a
    diagonal matched. *)
Example bingo_row0 : checkCardForBingo NaN_card row0_calls = Some true.
Proof. vm_compute. reflexivity. Qed.

Example bingo_nothing_called : checkCardForBingo NaN_card [] = Some false.
Proof. vm_compute. reflexivity. Qed.

Example bingo_no_line : checkCardForBingo NaN_card partial_calls = Some false.
Proof. vm_compute. reflexivity. Qed.

Example bingo_diagonal : checkCardForBingo NaN_card diagonal_calls = Some true.
Proof. vm_compute. reflexivity. Qed.




(** The condition of the amended C5 is exact. *)
Lemma generateCardNumbers_well_formed_iff (sin : Q → Q) (cardNumber : nat)
    (gameId : string) :
  well_formed_card (generateCardNumbers sin cardNumber gameId)
  ↔ seed_safe cardNumber gameId = true.
Proof.
  split; [|apply seed_safe_well_formed].
  intros Hwf. destruct (seed_safe cardNumber gameId) eqn:E; [done|].
  by apply (seed_unsafe_ill_formed sin) in E.
Qed.



(** The one layout: in each column the first number of the range, then the
    third to the sixth. *)
Example NaN_card_numbers :
  (λ row : list Cell, omap cell_number row) <$> NaN_card
  = [[1; 16; 31; 46; 61]; [3; 18; 33; 48; 63]; [4; 19; 34; 49; 64];
     [5; 20; 35; 50; 65]; [6; 21; 36; 51; 66]].
Proof. vm_compute. reflexivity. Qed.

(** * The engine *)

(** ** Framed operations *)

Lemma frame_refl s : frame s s.
Proof.
  split; try done.
  - intros g game' H. exists game'. done.
  - intros g. by destruct (Game_table s !! g).
Qed.

Lemma frame_trans s1 s2 s3 : frame s1 s2 → frame s2 s3 → frame s1 s3.
Proof.
  intros H12 H23. split.
  - intros g game H. by apply (frame_waiting _ _ H12), (frame_waiting _ _ H23).
  - intros g game3 H.
    destruct (frame_active _ _ H23 g game3 H) as (game2 & Hg2 & ? & ? & ?).
    destruct (frame_active _ _ H12 g game2 Hg2) as (game1 & Hg1 & ? & ? & ?).
    exists game1. repeat split; [done|congruence..].
  - intros g. pose proof (frame_rows _ _ H12 g) as Ha.
    pose proof (frame_rows _ _ H23 g) as Hb.
    destruct (Game_table s1 !! g), (Game_table s2 !! g), (Game_table s3 !! g);
      try done.
    destruct Ha as (? & ? & ?), Hb as (? & ? & ?). repeat split; congruence.
  - by rewrite (frame_cards _ _ H23), (frame_cards _ _ H12).
  - intros g caller H.
    by apply (frame_callers _ _ H12), (frame_callers _ _ H23).
Qed.

Lemma framed_ret {A} (a : A) : framed (ret a).
Proof. intros s. apply frame_refl. Qed.

Lemma framed_throw {A} e : framed (@throw A e).
Proof. intros s. apply frame_refl. Qed.

Lemma framed_bind {A B} (m : M A) (k : A → M B) :
  framed m → (∀ a, framed (k a)) → framed (bind m k).
Proof.
  intros Hm Hk s. unfold bind. specialize (Hm s).
  destruct (m s) as [s1 [e|a]]; [done|].
  eapply frame_trans; [exact Hm|apply Hk].
Qed.

Lemma framed_get_bind {A} (k : State → M A) :
  (∀ s, framed (k s)) → framed (bind get k).
Proof. intros Hk. apply framed_bind; [|done]. intros s. apply frame_refl. Qed.

Lemma framed_try_log (m : M unit) : framed m → framed (try_log m).
Proof.
  intros Hm s. unfold try_log. specialize (Hm s).
  by destruct (m s) as [s1 [e|a]].
Qed.

Lemma framed_modify (f : State → State) :
  (∀ s, frame s (f s)) → framed (modify f).
Proof. intros Hf s. apply Hf. Qed.


Lemma framed_Game_update gameId patch :
  keeps_round patch → framed (Game_update gameId patch).
Proof.
  intros Hp. apply framed_modify. intros s. split; try done; simpl.
  - intros g game' H. by exists game'.
  - intros g. rewrite lookup_alter. case_decide as Hg.
    + subst. destruct (Game_table s !! g); simpl; [apply Hp|done].
    + by destruct (Game_table s !! g).
Qed.

Lemma framed_User_update userId patch : framed (User_update userId patch).
Proof.
  destruct userId as [id|]; [|apply framed_ret].
  apply framed_modify. intros s. split; try done; simpl.
  - intros g game' H. by exists game'.
  - intros g. by destruct (Game_table s !! g).
Qed.

Lemma framed_mark_winning_card gameId cardNumber :
  framed (mark_winning_card gameId cardNumber).
Proof.
  apply framed_modify. intros s. split; try done; simpl.
  - intros g game' H. by exists game'.
  - intros g. by destruct (Game_table s !! g).
  - rewrite <-list_fmap_compose. apply list_fmap_ext.
    intros i c _. simpl. by case_bool_decide.
Qed.

Lemma framed_Transaction_create scope row :
  framed (Transaction_create scope row).
Proof.
  apply framed_bind.
  - unfold reference. case_bool_decide; [apply framed_ret|apply framed_throw].
  - intros _. apply framed_modify. intros s. split; try done; simpl.
    + intros g game' H. by exists game'.
    + intros g. by destruct (Game_table s !! g).
Qed.

Lemma framed_alter_active gameId patch :
  keeps_round patch → framed (modify (set_activeGames (alter patch gameId))).
Proof.
  intros Hp. apply framed_modify. intros s. split; try done; simpl.
  - intros g game'. rewrite lookup_alter. case_decide as Hg.
    + subst. destruct (activeGames s !! g) as [game|]; simpl; [|done].
      intros [= <-]. exists game. split; [done|apply Hp].
    + intros H. by exists game'.
  - intros g. by destruct (Game_table s !! g).
Qed.

Lemma framed_delete_active gameId :
  framed (modify (set_activeGames (delete gameId))).
Proof.
  apply framed_modify. intros s. split; try done; simpl.
  - intros g game' [_ H]%lookup_delete_Some. by exists game'.
  - intros g. by destruct (Game_table s !! g).
Qed.

Lemma framed_delete_waiting gameId :
  framed (modify (set_waitingGames (delete gameId))).
Proof.
  apply framed_modify. intros s. split; try done; simpl.
  - by intros g game' [_ H]%lookup_delete_Some.
  - intros g game' H. by exists game'.
  - intros g. by destruct (Game_table s !! g).
Qed.

Lemma framed_delete_caller gameId :
  framed (modify (set_callIntervals (delete gameId))).
Proof.
  apply framed_modify. intros s. split; try done; simpl.
  - intros g game' H. by exists game'.
  - intros g. by destruct (Game_table s !! g).
  - by intros g caller [_ H]%lookup_delete_Some.
Qed.

Lemma framed_timers f : framed (modify (set_gameTimers f)).
Proof.
  apply framed_modify. intros s. split; try done; simpl.
  - intros g game' H. by exists game'.
  - intros g. by destruct (Game_table s !! g).
Qed.

Lemma framed_timeouts f : framed (modify (set_newGameTimeouts f)).
Proof.
  apply framed_modify. intros s. split; try done; simpl.
  - intros g game' H. by exists game'.
  - intros g. by destruct (Game_table s !! g).
Qed.

Lemma keeps_round_settle now userId cardNumber :
  keeps_round (λ g, with_end_time now
                      (with_winner userId cardNumber (with_status completed g))).
Proof. done. Qed.

Lemma keeps_round_end now st :
  keeps_round (λ g, with_end_time now (with_status st g)).
Proof. done. Qed.

Lemma framed_declareWinner scope gameId userId cardNumber now :
  framed (declareWinner scope gameId userId cardNumber now).
Proof.
  unfold declareWinner. apply framed_try_log, framed_get_bind. intros s.
  destruct (activeGames s !! gameId) as [game|]; [|apply framed_ret].
  case_bool_decide; [apply framed_ret|].
  apply framed_bind; [apply framed_Game_update, keeps_round_settle|intros _].
  do 3 (apply framed_bind; [apply framed_User_update|intros _]).
  apply framed_bind; [apply framed_mark_winning_card|intros _].
  apply framed_get_bind. intros s1.
  apply framed_bind; [apply framed_Transaction_create|intros _].
  apply framed_bind; [apply framed_alter_active, keeps_round_settle|intros _].
  apply framed_bind; [apply framed_delete_active|intros _].
  destruct (_ ≫= _); [apply framed_timeouts|apply framed_throw].
Qed.

Lemma framed_endGame gameId now : framed (endGame gameId now).
Proof.
  unfold endGame. apply framed_try_log, framed_get_bind. intros s.
  destruct (activeGames s !! gameId) as [game|]; [|apply framed_ret].
  apply framed_bind; [apply framed_Game_update, keeps_round_end|intros _].
  apply framed_bind; [apply framed_delete_active|intros _].
  apply framed_timeouts.
Qed.

Lemma framed_refund_cards scope gameId game cards :
  framed (refund_cards scope gameId game cards).
Proof.
  induction cards as [|card rest IH]; simpl; [apply framed_ret|].
  apply framed_bind; [apply framed_User_update|intros _].
  apply framed_bind; [apply framed_Transaction_create|intros _]. exact IH.
Qed.

Lemma framed_sweep scope gameId game cards now :
  framed (sweep scope gameId game cards now).
Proof.
  induction cards as [|card rest IH]; simpl; [apply framed_ret|].
  destruct (checkCardForBingo _ _) as [[|]|];
    [apply framed_declareWinner|exact IH|apply framed_throw].
Qed.

Lemma framed_checkForWinners scope gameId retrieved now :
  framed (checkForWinners scope gameId retrieved now).
Proof.
  unfold checkForWinners. apply framed_try_log, framed_get_bind. intros s.
  destruct (activeGames s !! gameId); [apply framed_sweep|apply framed_ret].
Qed.

(** ** The invariant under framed operations *)


Lemma length_filter_fmap {A B} (f : A → B) (P : B → Prop) (Q : A → Prop)
    `{∀ x, Decision (P x)} `{∀ x, Decision (Q x)} (l : list A) :
  (∀ x, Q x ↔ P (f x)) →
  length (filter Q l) = length (filter P (f <$> l)).
Proof.
  intros HPQ. induction l as [|x l IH]; [done|].
  rewrite fmap_cons, !filter_cons.
  destruct (decide (Q x)) as [Hq|Hq], (decide (P (f x))) as [Hp|Hp];
    simpl; try (by rewrite IH); by apply HPQ in Hq || (by apply HPQ in Hp).
Qed.

Lemma count_purchased_ownership s gameId :
  count_purchased s gameId
  = length (filter (owned_in gameId) (ownership <$> Card_table s)).
Proof.
  unfold count_purchased, purchased_cards. by apply length_filter_fmap.
Qed.

Lemma frame_count s s' gameId :
  frame s s' → count_purchased s' gameId = count_purchased s gameId.
Proof.
  intros Hf. by rewrite !count_purchased_ownership, (frame_cards _ _ Hf).
Qed.

Lemma frame_row_Some s s' g row' :
  frame s s' → Game_table s' !! g = Some row' →
  ∃ row, Game_table s !! g = Some row ∧ pot row' = pot row
         ∧ settings row' = settings row
         ∧ called_numbers row' = called_numbers row.
Proof.
  intros Hf Hrow. pose proof (frame_rows _ _ Hf g) as H. rewrite Hrow in H.
  destruct (Game_table s !! g) as [row|]; [|done]. by exists row.
Qed.

Lemma frame_row_is_Some s s' g :
  frame s s' → is_Some (Game_table s !! g) → is_Some (Game_table s' !! g).
Proof.
  intros Hf [row Hrow]. pose proof (frame_rows _ _ Hf g) as H.
  rewrite Hrow in H. by destruct (Game_table s' !! g).
Qed.

Lemma frame_live s s' g game' :
  frame s s' → live s' g game' →
  ∃ game, live s g game ∧ pot game' = pot game
          ∧ settings game' = settings game
          ∧ called_numbers game' = called_numbers game.
Proof.
  intros Hf [Hw|Ha].
  - exists game'. split; [left; by apply (frame_waiting _ _ Hf)|done].
  - destruct (frame_active _ _ Hf g game' Ha) as (game & ? & ? & ? & ?).
    exists game. split; [by right|done].
Qed.

Lemma engine_inv_frame s s' : engine_inv s → frame s s' → engine_inv s'.
Proof.
  intros Hinv Hf. split.
  - intros g game Hw. apply (frame_row_is_Some s); [done|].
    eapply inv_waiting_row; [done|]. by apply (frame_waiting _ _ Hf).
  - intros g game' Ha. apply (frame_row_is_Some s); [done|].
    destruct (frame_active _ _ Hf g game' Ha) as (game & ? & _).
    by eapply inv_active_row.
  - intros g [game Hw]. apply (frame_waiting _ _ Hf) in Hw.
    destruct (activeGames s' !! g) as [game'|] eqn:Ha; [|done].
    destruct (frame_active _ _ Hf g game' Ha) as (game0 & Hg0 & _).
    rewrite (inv_disjoint _ Hinv g) in Hg0; [done|by exists game].
  - intros c Hc. apply (frame_row_is_Some s); [done|].
    assert (ownership c ∈ ownership <$> Card_table s) as Ho.
    { rewrite <-(frame_cards _ _ Hf). apply list_elem_of_fmap. by exists c. }
    apply list_elem_of_fmap in Ho as (c0 & Hc0 & Hin).
    replace (card_game_id c) with (card_game_id c0)
      by (unfold ownership in Hc0; congruence).
    by apply (inv_card_row _ Hinv).
  - intros g game' Hl.
    destruct (frame_live _ _ _ _ Hf Hl) as (game & Hlive & -> & -> & _).
    rewrite (frame_count s s') by done. by apply (inv_pot _ Hinv).
  - intros g game' row' Hl Hrow.
    destruct (frame_live _ _ _ _ Hf Hl) as (game & Hlive & -> & _ & ->).
    destruct (frame_row_Some _ _ _ _ Hf Hrow) as (row & Hr & -> & _ & ->).
    by apply (inv_row _ Hinv g).
  - intros g game Hw. apply (frame_waiting _ _ Hf) in Hw.
    destruct (inv_waiting _ Hinv g game Hw) as (? & Hc & ?).
    split; [done|]. split; [|done].
    destruct (callIntervals s' !! g) as [caller|] eqn:E; [|done].
    apply (frame_callers _ _ Hf) in E. congruence.
  - intros g caller Hc. apply (frame_row_is_Some s); [done|].
    eapply inv_caller_row; [done|]. by apply (frame_callers _ _ Hf).
  - intros g caller game' Hc Ha. apply (frame_callers _ _ Hf) in Hc.
    destruct (frame_active _ _ Hf g game' Ha) as (game & Hg & _ & _ & Hcalled).
    destruct (inv_caller _ Hinv g caller game Hc Hg) as [? ? Hk].
    split; [done..|]. by rewrite Hcalled.
  - intros g row' Hrow.
    destruct (frame_row_Some _ _ _ _ Hf Hrow) as (row & Hr & _ & _ & ->).
    by apply (inv_called_NoDup _ Hinv g).
Qed.

Lemma engine_inv_initial users : engine_inv (initial_state users).
Proof.
  split; simpl.
  - intros g game H. by rewrite lookup_empty in H.
  - intros g game H. by rewrite lookup_empty in H.
  - intros g [? H]. by rewrite lookup_empty in H.
  - intros c H. by apply elem_of_nil in H.
  - intros g game [H|H]; simpl in H; by rewrite lookup_empty in H.
  - intros g game row [H|H]; simpl in H; by rewrite lookup_empty in H.
  - intros g game H. by rewrite lookup_empty in H.
  - intros g caller H. by rewrite lookup_empty in H.
  - intros g caller game H. by rewrite lookup_empty in H.
  - intros g row H. by rewrite lookup_empty in H.
Qed.

(** ** The steps that create, sell, activate and call *)

Lemma filter_none {A} (P : A → Prop) `{∀ x, Decision (P x)} (l : list A) :
  Forall (λ x, ¬ P x) l → filter P l = [].
Proof.
  induction 1 as [|x l Hx _ IH]; [done|].
  rewrite filter_cons. by destruct (decide (P x)).
Qed.

Lemma filter_insert_gain {A} (P : A → Prop) `{∀ x, Decision (P x)}
    (l : list A) i x y :
  l !! i = Some x → ¬ P x → P y →
  length (filter P (<[i := y]> l)) = S (length (filter P l)).
Proof.
  intros Hi Hx Hy. apply list_elem_of_split_length in Hi as (l1 & l2 & -> & ->).
  rewrite insert_app_r_alt, Nat.sub_diag by lia. simpl.
  rewrite !filter_app, !filter_cons, !length_app.
  destruct (decide (P x)), (decide (P y)); try done; simpl; lia.
Qed.

Lemma filter_insert_same {A} (P : A → Prop) `{∀ x, Decision (P x)}
    (l : list A) i x y :
  l !! i = Some x → (P x ↔ P y) →
  length (filter P (<[i := y]> l)) = length (filter P l).
Proof.
  intros Hi Hxy. apply list_elem_of_split_length in Hi as (l1 & l2 & -> & ->).
  rewrite insert_app_r_alt, Nat.sub_diag by lia. simpl.
  rewrite !filter_app, !filter_cons, !length_app.
  destruct (decide (P x)), (decide (P y)); first [done|tauto].
Qed.

Section Steps.
Variable sin : Q → Q.
Variable scope : list string.
Variables (BET_AMOUNT HOUSE_FEE : Q) (GAME_DURATION : Z)
          (MAX_CARDS_PER_PLAYER : nat).

Local Abbreviation createNewGame0 :=
  (createNewGame sin BET_AMOUNT HOUSE_FEE GAME_DURATION MAX_CARDS_PER_PLAYER).
Local Abbreviation cancelGame0 :=
  (cancelGame sin scope BET_AMOUNT HOUSE_FEE GAME_DURATION MAX_CARDS_PER_PLAYER).
Local Abbreviation startGame0 :=
  (startGame sin scope BET_AMOUNT HOUSE_FEE GAME_DURATION MAX_CARDS_PER_PLAYER).
Local Abbreviation new_game0 :=
  (new_game BET_AMOUNT HOUSE_FEE GAME_DURATION MAX_CARDS_PER_PLAYER).
Local Abbreviation new_cards0 := (new_cards sin).


Lemma createNewGame_run newId now s :
  createNewGame0 newId now s
  = (set_gameTimers (insert newId (now + 30000)%Z)
       (set_waitingGames (insert newId (new_game0 now))
          (set_Card_table (λ t, t ++ new_cards0 newId)
             (set_Game_table (insert newId (new_game0 now)) s))),
     inr (new_game0 now)).
Proof. reflexivity. Qed.

Lemma new_cards_unowned newId g :
  filter (is_purchased_in g) (new_cards0 newId) = [].
Proof.
  apply filter_none, Forall_fmap, Forall_forall.
  intros n _ [_ [u Hu]]. done.
Qed.

Lemma engine_inv_createNewGame newId now s :
  engine_inv s → Game_table s !! newId = None →
  engine_inv (createNewGame0 newId now s).1.
Proof.
  intros Hinv Hfresh. rewrite createNewGame_run. cbn [fst].
  assert (Hnw : waitingGames s !! newId = None).
  { destruct (waitingGames s !! newId) as [game|] eqn:E; [|done].
    apply (inv_waiting_row _ Hinv) in E as [? ?]. congruence. }
  assert (Hna : activeGames s !! newId = None).
  { destruct (activeGames s !! newId) as [game|] eqn:E; [|done].
    apply (inv_active_row _ Hinv) in E as [? ?]. congruence. }
  assert (Hnc : callIntervals s !! newId = None).
  { destruct (callIntervals s !! newId) as [caller|] eqn:E; [|done].
    apply (inv_caller_row _ Hinv) in E as [? ?]. congruence. }
  assert (Hcount : ∀ g, count_purchased
    (set_gameTimers (insert newId (now + 30000)%Z)
       (set_waitingGames (insert newId (new_game0 now))
          (set_Card_table (λ t, t ++ new_cards0 newId)
             (set_Game_table (insert newId (new_game0 now)) s)))) g
    = count_purchased s g).
  { intros g. unfold count_purchased, purchased_cards. simpl.
    by rewrite filter_app, new_cards_unowned, app_nil_r. }
  assert (Hzero : count_purchased s newId = 0).
  { unfold count_purchased, purchased_cards.
    rewrite filter_none; [done|]. apply Forall_forall.
    intros c Hc [Hg _]. apply (inv_card_row _ Hinv) in Hc as [? Hc].
    congruence. }
  split; simpl.
  - intros g game. rewrite lookup_insert. case_decide as Hg.
    + intros _. subst. rewrite lookup_insert_eq. by eexists.
    + intros Hw. rewrite lookup_insert_ne by done.
      by apply (inv_waiting_row _ Hinv) in Hw.
  - intros g game Ha. destruct (decide (newId = g)) as [->|Hg]; [congruence|].
    rewrite lookup_insert_ne by done. by apply (inv_active_row _ Hinv) in Ha.
  - intros g. rewrite lookup_insert. case_decide as Hg; [by subst|].
    apply (inv_disjoint _ Hinv).
  - intros c [Hc|Hc]%elem_of_app.
    + apply (inv_card_row _ Hinv) in Hc as [row Hrow].
      rewrite lookup_insert. case_decide; by eexists.
    + apply list_elem_of_fmap in Hc as (n & -> & _). simpl.
      rewrite lookup_insert_eq. by eexists.
  - intros g game Hl. rewrite Hcount. destruct Hl as [Hw|Ha]; simpl in *.
    + rewrite lookup_insert in Hw. case_decide as Hg.
      * injection Hw as <-. subst. rewrite Hzero. simpl. ring.
      * apply (inv_pot _ Hinv). by left.
    + apply (inv_pot _ Hinv). by right.
  - intros g game row Hl Hrow. rewrite lookup_insert in Hrow.
    destruct Hl as [Hw|Ha]; simpl in *.
    + rewrite lookup_insert in Hw. case_decide as Hg.
      * by injection Hw as <-; injection Hrow as <-.
      * apply (inv_row _ Hinv g); [by left|done].
    + case_decide as Hg; [subst; congruence|].
      apply (inv_row _ Hinv g); [by right|done].
  - intros g game. rewrite lookup_insert. case_decide as Hg.
    + intros [= <-]. subst. done.
    + apply (inv_waiting _ Hinv).
  - intros g caller Hc. destruct (decide (newId = g)) as [->|Hg]; [congruence|].
    rewrite lookup_insert_ne by done. by apply (inv_caller_row _ Hinv) in Hc.
  - apply (inv_caller _ Hinv).
  - intros g row. rewrite lookup_insert. case_decide as Hg.
    + intros [= <-]. simpl. apply NoDup_nil_2.
    + apply (inv_called_NoDup _ Hinv).
Qed.


Lemma purchaseCard_run s gameId userId cardNumber now game place card user :
  waitingGames s !! gameId = Some game →
  game_status game = waiting →
  find_free_card s gameId cardNumber = Some (place, card) →
  User_table s !! userId = Some user →
  (bet_amount (settings game) <= balance user)%Q →
  purchaseCard scope gameId userId cardNumber now s
  = (Transaction_create scope
       (mkTransaction (Some userId) bet (bet_amount (settings game))
                      gameId cardNumber);;
     User_update (Some userId) add_games_played;;
     ret (with_owner userId now card))
      (purchase_written s gameId userId place card game now).
Proof.
  intros Hw Hst Hcard Hu Hbal.
  unfold purchaseCard, try_rethrow, bind at 1, get. rewrite Hw.
  rewrite bool_decide_eq_true_2 by done. cbn [negb]. rewrite Hcard, Hu.
  destruct (Qlt_le_dec _ _) as [Hlt|_].
  { exfalso. by apply (Qlt_not_le _ _ Hlt). }
  reflexivity.
Qed.

(** Before that point it throws with nothing written. *)
Lemma purchaseCard_cases s gameId userId cardNumber now :
  (∃ e, purchaseCard scope gameId userId cardNumber now s = (s, inl e))
  ∨ (∃ game place card user,
       waitingGames s !! gameId = Some game ∧ game_status game = waiting
       ∧ find_free_card s gameId cardNumber = Some (place, card)
       ∧ User_table s !! userId = Some user
       ∧ (bet_amount (settings game) <= balance user)%Q).
Proof.
  unfold purchaseCard, try_rethrow, bind at 1, get.
  destruct (waitingGames s !! gameId) as [game|] eqn:Hw; [|left; by eexists].
  case_bool_decide as Hst; cbn [negb]; [|left; by eexists].
  destruct (find_free_card s gameId cardNumber) as [[place card]|] eqn:Hc;
    [|left; by eexists].
  destruct (User_table s !! userId) as [user|] eqn:Hu; [|left; by eexists].
  destruct (Qlt_le_dec _ _) as [Hlt|Hle]; [left; by eexists|].
  right. by exists game, place, card, user.
Qed.

Lemma find_free_card_Some s gameId cardNumber place card :
  find_free_card s gameId cardNumber = Some (place, card) →
  Card_table s !! place = Some card ∧ card_game_id card = gameId
  ∧ card_number card = cardNumber ∧ user_id card = None.
Proof.
  unfold find_free_card. intros (? & (? & ? & ?) & _)%list_find_Some. done.
Qed.

Lemma count_purchase_written s gameId userId place card game now g :
  Card_table s !! place = Some card → card_game_id card = gameId →
  user_id card = None →
  count_purchased (purchase_written s gameId userId place card game now) g
  = if decide (g = gameId) then S (count_purchased s g)
    else count_purchased s g.
Proof.
  intros Hp Hg Hu. unfold count_purchased, purchased_cards. simpl.
  case_decide as Hgg.
  - subst g. apply (filter_insert_gain _ _ _ card); [done|..].
    + intros [_ [? ?]]. congruence.
    + split; [done|]. by eexists.
  - apply (filter_insert_same _ _ _ card); [done|].
    unfold is_purchased_in. simpl. split; intros [? ?]; congruence.
Qed.

Lemma engine_inv_purchase_written s gameId userId cardNumber now
    game place card :
  engine_inv s →
  waitingGames s !! gameId = Some game →
  find_free_card s gameId cardNumber = Some (place, card) →
  engine_inv (purchase_written s gameId userId place card game now).
Proof.
  intros Hinv Hw (Hp & Hg & _ & Hu)%find_free_card_Some.
  pose proof (count_purchase_written s gameId userId place card game now)
    as Hcount.
  assert (Hna : activeGames s !! gameId = None).
  { apply (inv_disjoint _ Hinv). by eexists. }
  destruct (inv_waiting _ Hinv _ _ Hw) as (Hcalled & Hnc & Hmin).
  split; simpl.
  - intros g game'. rewrite lookup_insert. case_decide as Hgg.
    + intros _. subst g. rewrite lookup_alter. case_decide; [|done].
      destruct (inv_waiting_row _ Hinv _ _ Hw) as [row ->]. by eexists.
    + intros Hw'. rewrite lookup_alter_ne by done.
      by apply (inv_waiting_row _ Hinv) in Hw'.
  - intros g game' Ha. rewrite lookup_alter. case_decide; [congruence|].
    by apply (inv_active_row _ Hinv) in Ha.
  - intros g. rewrite lookup_insert. case_decide as Hgg; [by subst|].
    apply (inv_disjoint _ Hinv).
  - intros c Hc. apply list_elem_of_lookup in Hc as [i Hi].
    apply list_lookup_insert_Some in Hi as [(-> & <- & _)|[_ Hi]]; simpl.
    + rewrite Hg, lookup_alter. case_decide; [|done].
      destruct (inv_waiting_row _ Hinv _ _ Hw) as [row ->]. by eexists.
    + assert (is_Some (Game_table s !! card_game_id c)) as [row Hrow].
      { apply (inv_card_row _ Hinv). by eapply list_elem_of_lookup_2. }
      rewrite lookup_alter. case_decide as E; [rewrite E|];
        rewrite Hrow; by eexists.
  - intros g game' Hl. rewrite Hcount by done.
    destruct Hl as [Hw'|Ha]; simpl in *.
    + rewrite lookup_insert in Hw'. case_decide as Hgg.
      * injection Hw' as <-. subst g. rewrite decide_True by done. simpl.
        assert (Hpot := inv_pot _ Hinv gameId game (or_introl Hw)).
        rewrite Hpot, Nat2Z.inj_succ, <-Z.add_1_r, inject_Z_plus. ring.
      * rewrite decide_False by done. apply (inv_pot _ Hinv). by left.
    + rewrite decide_False by congruence. apply (inv_pot _ Hinv). by right.
  - intros g game' row' Hl Hrow. rewrite lookup_alter in Hrow.
    destruct Hl as [Hw'|Ha]; simpl in *.
    + rewrite lookup_insert in Hw'. case_decide as Hgg.
      * injection Hw' as <-. subst g.
        destruct (Game_table s !! gameId) as [row|] eqn:Er; [|done].
        injection Hrow as <-. simpl. split; [done|].
        by apply (inv_row _ Hinv gameId game row (or_introl Hw)).
      * apply (inv_row _ Hinv g); [by left|done].
    + rewrite decide_False in Hrow by congruence.
      apply (inv_row _ Hinv g); [by right|done].
  - intros g game'. rewrite lookup_insert. case_decide as Hgg.
    + intros [= <-]. subst g. done.
    + apply (inv_waiting _ Hinv).
  - intros g caller Hc. rewrite lookup_alter.
    destruct (inv_caller_row _ Hinv _ _ Hc) as [row Hrow].
    case_decide as E; [rewrite E|]; rewrite Hrow; by eexists.
  - apply (inv_caller _ Hinv).
  - intros g row'. rewrite lookup_alter. case_decide as Hgg.
    + subst g. destruct (Game_table s !! gameId) as [row|] eqn:Er; [|done].
      intros [= <-]. simpl. by apply (inv_called_NoDup _ Hinv gameId).
    + apply (inv_called_NoDup _ Hinv).
Qed.

Lemma engine_inv_purchaseCard s gameId userId cardNumber now :
  engine_inv s →
  engine_inv (purchaseCard scope gameId userId cardNumber now s).1.
Proof.
  intros Hinv.
  destruct (purchaseCard_cases s gameId userId cardNumber now)
    as [[e ->]|(game & place & card & user & Hw & Hst & Hc & Hu & Hb)];
    [done|].
  rewrite (purchaseCard_run _ _ _ _ _ game place card user) by done.
  eapply engine_inv_frame; [by eapply engine_inv_purchase_written|].
  apply framed_bind; [apply framed_Transaction_create|intros _].
  apply framed_bind; [apply framed_User_update|intros _]. apply framed_ret.
Qed.

(** *** Cancelling *)

Lemma frame_row_None s s' g :
  frame s s' → Game_table s !! g = None → Game_table s' !! g = None.
Proof.
  intros Hf Hrow. pose proof (frame_rows _ _ Hf g) as H. rewrite Hrow in H.
  by destruct (Game_table s' !! g).
Qed.

Lemma cancelGame_eq s gameId retrieved newId now game :
  waitingGames s !! gameId = Some game →
  cancelGame0 gameId retrieved newId now s
  = try_log
      (Game_update gameId (λ g, with_end_time now (with_status cancelled g));;
       refund_cards scope gameId game retrieved;;
       modify (set_waitingGames (delete gameId));;
       modify (set_gameTimers (delete gameId));;
       createNewGame0 newId now;;
       ret tt) s.
Proof.
  intros Hw. unfold cancelGame, try_log. unfold bind at 1, get.
  cbv beta iota. by rewrite Hw.
Qed.

(** [cancelGame] either stops in the refund loop or goes on to create the
    next round; what it wrote before is framed. *)
Lemma cancelGame_run s gameId retrieved newId now game :
  waitingGames s !! gameId = Some game →
  ∃ s1, frame s s1
    ∧ ((cancelGame0 gameId retrieved newId now s).1 = s1
       ∨ (cancelGame0 gameId retrieved newId now s).1
         = (createNewGame0 newId now s1).1).
Proof.
  intros Hw.
  remember (cancelGame0 gameId retrieved newId now s) as result eqn:Hres.
  rewrite (cancelGame_eq _ _ _ _ _ game Hw) in Hres.
  pose proof (framed_Game_update gameId
    (λ g, with_end_time now (with_status cancelled g))
    (keeps_round_end now cancelled) s) as Hf0.
  unfold try_log, bind at 1 in Hres.
  destruct (Game_update _ _ s) as [s0 [e|[]]] eqn:E0; [done|].
  simpl in Hf0. unfold bind at 1 in Hres.
  pose proof (framed_refund_cards scope gameId game retrieved s0) as Hf1.
  destruct (refund_cards scope gameId game retrieved s0) as [s1 [e|[]]] eqn:E1;
    simpl in Hf1.
  - exists s1. split; [by eapply frame_trans|]. left. by subst result.
  - exists (set_gameTimers (delete gameId)
              (set_waitingGames (delete gameId) s1)).
    split; [|right; by subst result].
    eapply frame_trans; [exact Hf0|]. eapply frame_trans; [exact Hf1|].
    eapply frame_trans; [apply (framed_delete_waiting gameId s1)|].
    apply (framed_timers (delete gameId)).
Qed.

Lemma engine_inv_cancelGame s gameId retrieved newId now :
  engine_inv s → Game_table s !! newId = None →
  engine_inv (cancelGame0 gameId retrieved newId now s).1.
Proof.
  intros Hinv Hfresh.
  destruct (waitingGames s !! gameId) as [game|] eqn:Hw.
  - destruct (cancelGame_run s gameId retrieved newId now game Hw)
      as (s1 & Hf & [->| ->]).
    + by eapply engine_inv_frame.
    + apply engine_inv_createNewGame; [by eapply engine_inv_frame|].
      by eapply frame_row_None.
  - unfold cancelGame, try_log. unfold bind at 1, get.
    cbv beta iota. by rewrite Hw.
Qed.

(** *** Activating *)

Lemma all_numbers_NoDup : NoDup (draw_id <$> all_numbers).
Proof. apply (bool_decide_unpack _). vm_compute. exact I. Qed.

Lemma Math_random_shuffle random :
  Math_random_ok random →
  let a := shuffle random (length (Some <$> all_numbers) - 1)
                   (mkArray (Some <$> all_numbers) ∅) in
  Forall is_Some (items a) ∧ omap id (items a) ≡ₚ all_numbers.
Proof.
  intros Hr a.
  assert (Hunit : ∀ k, unit_draw (random k)).
  { intros k. destruct (Hr k) as (r & ? & ?). right. by exists r. }
  assert (Hnan : ∀ k, is_NaN (random k) = false).
  { intros k. destruct (Hr k) as (r & -> & _). done. }
  pose proof (shuffle_inv_final random all_numbers Hunit) as Hinv.
  rewrite <-(length_fmap Some) in Hinv. fold a in Hinv. split.
  - apply Forall_lookup. intros k [d|] Hk; [done|].
    apply (inv_holes _ _ _ _ Hinv) in Hk as (_ & Hk & _).
    by rewrite Hnan in Hk.
  - pose proof (inv_perm _ _ _ _ Hinv) as Hp.
    rewrite (inv_none _ _ _ _ Hinv) in Hp by (intros; apply Hnan).
    by rewrite app_nil_r in Hp.
Qed.


Lemma startGame_active s gameId retrieved newId random now game :
  waitingGames s !! gameId = Some game →
  1 ≤ count_purchased s gameId →
  startGame0 gameId retrieved newId random now s
  = (activated s gameId game random now, inr tt).
Proof.
  intros Hw Hcount. unfold startGame, try_log.
  unfold bind at 1, get. cbv beta iota. rewrite Hw.
  destruct (Nat.ltb_spec (count_purchased s gameId) 1) as [?|_]; [lia|].
  cbv [callNumbers bind get modify Game_update ret activeGames
       set_activeGames set_waitingGames set_Game_table].
  by rewrite lookup_insert_eq.
Qed.

Lemma startGame_cancel s gameId retrieved newId random now game :
  waitingGames s !! gameId = Some game →
  count_purchased s gameId < 1 →
  (startGame0 gameId retrieved newId random now s).1
  = (cancelGame0 gameId retrieved newId now s).1.
Proof.
  intros Hw Hcount. unfold startGame, try_log.
  unfold bind at 1, get. cbv beta iota. rewrite Hw.
  destruct (Nat.ltb_spec (count_purchased s gameId) 1) as [_|?]; [|lia].
  by destruct (cancelGame0 _ _ _ _ s) as [s' [e|[]]].
Qed.

Lemma startGame_none s gameId retrieved newId random now :
  waitingGames s !! gameId = None →
  startGame0 gameId retrieved newId random now s = (s, inr tt).
Proof.
  intros Hw. unfold startGame, try_log.
  unfold bind at 1, get. cbv beta iota. by rewrite Hw.
Qed.

Lemma engine_inv_activated s gameId game random now :
  engine_inv s → waitingGames s !! gameId = Some game →
  Math_random_ok random →
  engine_inv (activated s gameId game random now).
Proof.
  intros Hinv Hw Hr.
  destruct (Math_random_shuffle random Hr) as [Hdef Hperm].
  assert (Hna : activeGames s !! gameId = None).
  { apply (inv_disjoint _ Hinv). by eexists. }
  destruct (inv_waiting _ Hinv _ _ Hw) as (Hcalled & Hnc & Hmin).
  destruct (inv_waiting_row _ Hinv _ _ Hw) as [row Hrow].
  assert (Hcount : ∀ g, count_purchased (activated s gameId game random now) g
                        = count_purchased s g) by done.
  split; simpl.
  - intros g game' [Hg Hw']%lookup_delete_Some.
    rewrite lookup_alter_ne by done. by apply (inv_waiting_row _ Hinv) in Hw'.
  - intros g game'. rewrite lookup_insert, lookup_alter.
    case_decide as Hgg; [subst; rewrite Hrow; by eexists|].
    apply (inv_active_row _ Hinv).
  - intros g [game' [Hg Hw']%lookup_delete_Some].
    rewrite lookup_insert_ne by done. apply (inv_disjoint _ Hinv). by eexists.
  - intros c Hc. destruct (inv_card_row _ Hinv c Hc) as [rowc Hrc].
    rewrite lookup_alter. case_decide as E; [rewrite E|]; rewrite Hrc;
      by eexists.
  - intros g game' Hl. rewrite Hcount. destruct Hl as [Hw'|Ha]; simpl in *.
    + apply lookup_delete_Some in Hw' as [_ Hw'].
      apply (inv_pot _ Hinv). by left.
    + rewrite lookup_insert in Ha. case_decide as Hgg.
      * injection Ha as <-. subst g. simpl. apply (inv_pot _ Hinv). by left.
      * apply (inv_pot _ Hinv). by right.
  - intros g game' row' Hl Hr'. rewrite lookup_alter in Hr'.
    destruct Hl as [Hw'|Ha]; simpl in *.
    + apply lookup_delete_Some in Hw' as [Hg Hw'].
      rewrite decide_False in Hr' by done.
      apply (inv_row _ Hinv g); [by left|done].
    + rewrite lookup_insert in Ha. case_decide as Hgg.
      * injection Ha as <-. subst g. rewrite Hrow in Hr'.
        injection Hr' as <-. simpl.
        by apply (inv_row _ Hinv gameId game row (or_introl Hw)).
      * apply (inv_row _ Hinv g); [by right|done].
  - intros g game' [Hg Hw']%lookup_delete_Some.
    rewrite lookup_insert_ne by done. by apply (inv_waiting _ Hinv).
  - intros g caller. rewrite lookup_insert, lookup_alter.
    case_decide as Hgg; [subst; rewrite Hrow; by eexists|].
    apply (inv_caller_row _ Hinv).
  - intros g caller game'. rewrite !lookup_insert. case_decide as Hgg.
    + intros [= <-] [= <-]. split; simpl.
      * exact Hdef.
      * unfold caller_draws. simpl. rewrite Hperm. apply all_numbers_NoDup.
      * by rewrite Hcalled.
    + apply (inv_caller _ Hinv).
  - intros g row'. rewrite lookup_alter. case_decide as Hgg.
    + subst g. rewrite Hrow. intros [= <-]. simpl.
      by apply (inv_called_NoDup _ Hinv gameId).
    + apply (inv_called_NoDup _ Hinv).
Qed.

Lemma engine_inv_startGame s gameId retrieved newId random now :
  engine_inv s → Game_table s !! newId = None → Math_random_ok random →
  engine_inv (startGame0 gameId retrieved newId random now s).1.
Proof.
  intros Hinv Hfresh Hr.
  destruct (waitingGames s !! gameId) as [game|] eqn:Hw.
  - destruct (decide (count_purchased s gameId < 1)) as [Hc|Hc].
    + rewrite (startGame_cancel _ _ _ _ _ _ game) by done.
      by apply engine_inv_cancelGame.
    + rewrite (startGame_active _ _ _ _ _ _ game) by (done || lia).
      by apply engine_inv_activated.
  - by rewrite startGame_none.
Qed.

(** *** Calling a number *)


Lemma tick_no_interval s gameId retrieved now :
  callIntervals s !! gameId = None →
  tick scope gameId retrieved now s = (s, inr tt).
Proof.
  intros Hc. unfold tick. unfold bind at 1, get. cbv beta iota.
  by rewrite Hc.
Qed.

Lemma tick_not_active s gameId retrieved now caller :
  callIntervals s !! gameId = Some caller →
  activeGames s !! gameId = None →
  tick scope gameId retrieved now s
  = (set_callIntervals (delete gameId) s, inr tt).
Proof.
  intros Hc Ha. unfold tick. unfold bind at 1, get. cbv beta iota.
  by rewrite Hc, Ha.
Qed.

Lemma tick_stop s gameId retrieved now caller game :
  callIntervals s !! gameId = Some caller →
  activeGames s !! gameId = Some game →
  tick_stops caller game now = true →
  tick scope gameId retrieved now s
  = endGame gameId now (set_callIntervals (delete gameId) s).
Proof.
  intros Hc Ha Hstop. unfold tick. unfold bind at 1, get. cbv beta iota.
  rewrite Hc, Ha. unfold tick_stops in Hstop. by rewrite Hstop.
Qed.

Lemma tick_undefined s gameId retrieved now caller game :
  callIntervals s !! gameId = Some caller →
  activeGames s !! gameId = Some game →
  tick_stops caller game now = false →
  array_get (allNumbers caller) (KIndex (numberIndex caller)) = None →
  ∃ e, tick scope gameId retrieved now s = (s, inl e).
Proof.
  intros Hc Ha Hstop Hd. unfold tick. unfold bind at 1, get. cbv beta iota.
  rewrite Hc, Ha. unfold tick_stops in Hstop. rewrite Hstop, Hd.
  by eexists.
Qed.

Lemma tick_push s gameId retrieved now caller game d :
  callIntervals s !! gameId = Some caller →
  activeGames s !! gameId = Some game →
  tick_stops caller game now = false →
  array_get (allNumbers caller) (KIndex (numberIndex caller)) = Some d →
  tick scope gameId retrieved now s
  = checkForWinners scope gameId retrieved now (pushed s gameId caller game d).
Proof.
  intros Hc Ha Hstop Hd. unfold tick. unfold bind at 1, get. cbv beta iota.
  rewrite Hc, Ha. unfold tick_stops in Hstop. rewrite Hstop, Hd.
  reflexivity.
Qed.

Lemma NoDup_sublist_take {A} (l : list A) n : NoDup l → NoDup (take n l).
Proof.
  intros Hl. rewrite <-(take_drop n l) in Hl.
  by apply NoDup_app in Hl as [? _].
Qed.

Lemma caller_draws_set (items0 : list (option Draw)) i d :
  Forall is_Some items0 → items0 !! i = Some (Some d) →
  draw_id <$> omap id (<[i := Some (with_called d)]> items0)
  = draw_id <$> omap id items0.
Proof.
  intros Hdef Hi. apply all_defined in Hdef. rewrite Hdef in *.
  rewrite list_lookup_fmap in Hi.
  destruct (omap id items0 !! i) as [d0|] eqn:E; [|done].
  injection Hi as ->.
  rewrite <-list_fmap_insert, !omap_id_Some, list_fmap_insert.
  apply list_insert_id. by rewrite list_lookup_fmap, E.
Qed.

Lemma engine_inv_pushed s gameId now caller game d :
  engine_inv s →
  callIntervals s !! gameId = Some caller →
  activeGames s !! gameId = Some game →
  tick_stops caller game now = false →
  array_get (allNumbers caller) (KIndex (numberIndex caller)) = Some d →
  engine_inv (pushed s gameId caller game d).
Proof.
  intros Hinv Hc Ha Hstop Hd.
  destruct (inv_caller _ Hinv _ _ _ Hc Ha) as [Hdef Hnd Hcalled].
  destruct (inv_active_row _ Hinv _ _ Ha) as [row Hrow].
  assert (Hnw : waitingGames s !! gameId = None).
  { destruct (waitingGames s !! gameId) as [game0|] eqn:E; [|done].
    rewrite (inv_disjoint _ Hinv gameId) in Ha; [done|by eexists]. }
  assert (Hidx : numberIndex caller < length (items (allNumbers caller))).
  { unfold tick_stops in Hstop. apply orb_false_iff in Hstop as [_ Hi].
    by apply Nat.leb_gt in Hi. }
  assert (Hitem : items (allNumbers caller) !! numberIndex caller
                  = Some (Some d)).
  { simpl in Hd. destruct (items (allNumbers caller) !! numberIndex caller)
      as [[d0|]|]; simpl in Hd; congruence. }
  assert (Hkey : caller_draws caller !! numberIndex caller = Some (draw_id d)).
  { unfold caller_draws. rewrite list_lookup_fmap.
    rewrite (all_defined _ Hdef) in Hitem.
    rewrite list_lookup_fmap in Hitem.
    destruct (omap id (items (allNumbers caller)) !! numberIndex caller)
      as [d0|]; [|done]. by injection Hitem as ->. }
  assert (Hnew : draw_id <$> (called_numbers game ++ [with_called d])
                 = take (numberIndex caller + 1) (caller_draws caller)).
  { rewrite fmap_app, Hcalled, Nat.add_1_r. symmetry.
    by apply take_S_r. }
  assert (Hcount : ∀ g, count_purchased (pushed s gameId caller game d) g
                        = count_purchased s g) by done.
  split; simpl.
  - intros g game' Hw. destruct (inv_waiting_row _ Hinv _ _ Hw) as [r Hr].
    rewrite lookup_alter. case_decide as E; [rewrite E|]; rewrite Hr;
      by eexists.
  - intros g game'. rewrite !lookup_alter. case_decide as Hgg.
    + subst g. rewrite Ha, Hrow. by eexists.
    + apply (inv_active_row _ Hinv).
  - intros g Hw. rewrite lookup_alter. case_decide as Hgg.
    + subst g. rewrite Hnw in Hw. by destruct Hw.
    + by apply (inv_disjoint _ Hinv).
  - intros c Hcd. destruct (inv_card_row _ Hinv c Hcd) as [rc Hrc].
    rewrite lookup_alter. case_decide as E; [rewrite E|]; rewrite Hrc;
      by eexists.
  - intros g game' Hl. rewrite Hcount. destruct Hl as [Hw|Hact]; simpl in *.
    + apply (inv_pot _ Hinv). by left.
    + rewrite lookup_alter in Hact. case_decide as Hgg.
      * subst g. rewrite Ha in Hact. injection Hact as <-. simpl.
        apply (inv_pot _ Hinv). by right.
      * apply (inv_pot _ Hinv). by right.
  - intros g game' row' Hl Hr'. rewrite lookup_alter in Hr'.
    destruct Hl as [Hw|Hact]; simpl in *.
    + rewrite decide_False in Hr' by congruence.
      apply (inv_row _ Hinv g); [by left|done].
    + rewrite lookup_alter in Hact. case_decide as Hgg.
      * subst g. rewrite Ha in Hact. rewrite Hrow in Hr'.
        injection Hact as <-. injection Hr' as <-. simpl. split; [|done].
        by apply (inv_row _ Hinv gameId game row (or_intror Ha)).
      * apply (inv_row _ Hinv g); [by right|done].
  - intros g game' Hw. rewrite lookup_insert_ne by congruence.
    by apply (inv_waiting _ Hinv).
  - intros g caller'. rewrite lookup_insert, lookup_alter.
    case_decide as Hgg; [subst; rewrite Hrow; by eexists|].
    apply (inv_caller_row _ Hinv).
  - intros g caller' game'. rewrite lookup_insert, lookup_alter.
    case_decide as Hgg.
    + subst g. rewrite Ha. intros [= <-] [= <-].
      assert (Hlt : (numberIndex caller <? length (items (allNumbers caller)))
                    = true) by by apply Nat.ltb_lt.
      split; simpl; unfold caller_draws; simpl; rewrite ?Hlt.
      * apply Forall_insert; [done|by eexists].
      * by rewrite caller_draws_set.
      * by rewrite caller_draws_set.
    + apply (inv_caller _ Hinv).
  - intros g row'. rewrite lookup_alter. case_decide as Hgg.
    + subst g. rewrite Hrow. intros [= <-]. simpl. rewrite Hnew.
      eapply NoDup_sublist_take; exact Hnd.
    + apply (inv_called_NoDup _ Hinv).
Qed.

Lemma engine_inv_tick s gameId retrieved now :
  engine_inv s → engine_inv (tick scope gameId retrieved now s).1.
Proof.
  intros Hinv.
  destruct (callIntervals s !! gameId) as [caller|] eqn:Hc;
    [|by rewrite tick_no_interval].
  destruct (activeGames s !! gameId) as [game|] eqn:Ha.
  2:{ rewrite (tick_not_active _ _ _ _ caller) by done.
      eapply engine_inv_frame; [done|].
      apply (framed_delete_caller gameId s). }
  destruct (tick_stops caller game now) eqn:Hstop.
  { rewrite (tick_stop _ _ _ _ caller game) by done.
    eapply engine_inv_frame; [done|]. eapply frame_trans.
    - apply (framed_delete_caller gameId s).
    - apply framed_endGame. }
  destruct (array_get (allNumbers caller) (KIndex (numberIndex caller)))
    as [d|] eqn:Hd.
  - rewrite (tick_push _ _ _ _ caller game d) by done.
    eapply engine_inv_frame; [by eapply engine_inv_pushed|].
    apply framed_checkForWinners.
  - by destruct (tick_undefined _ _ retrieved _ caller game Hc Ha Hstop Hd)
      as [e ->].
Qed.

(** ** Every reachable state satisfies the invariant *)

Lemma engine_inv_step s s' :
  step sin scope BET_AMOUNT HOUSE_FEE GAME_DURATION MAX_CARDS_PER_PLAYER s s' →
  engine_inv s → engine_inv s'.
Proof.
  intros Hstep Hinv. destruct Hstep.
  - by apply engine_inv_createNewGame.
  - unfold joinGame, try_rethrow. unfold bind at 1, get. cbv beta iota.
    destruct (waitingGames s !! gameId); [|done].
    destruct (negb _); [done|]. by destruct (_ <=? _).
  - by apply engine_inv_purchaseCard.
  - by apply engine_inv_startGame.
  - by apply engine_inv_tick.
Qed.

Lemma reachable_inv s :
  reachable sin scope BET_AMOUNT HOUSE_FEE GAME_DURATION MAX_CARDS_PER_PLAYER s →
  engine_inv s.
Proof.
  intros [users Hrun]. revert s Hrun.
  apply (rtc_ind_r (λ s, engine_inv s) (initial_state users)).
  - apply engine_inv_initial.
  - intros s1 s2 _ Hstep IH. by eapply engine_inv_step.
Qed.
End Steps.

(** * The claims about the engine *)

(** ** Ending a round *)

Lemma endGame_run gameId now s :
  (endGame gameId now s).1
  = match activeGames s !! gameId with
    | Some _ =>
        set_newGameTimeouts (λ t, t ++ [(now + 5000)%Z])
          (set_activeGames (delete gameId)
             (set_Game_table
                (alter (λ g, with_end_time now (with_status completed g)) gameId)
                s))
    | None => s
    end.
Proof.
  unfold endGame, try_log. unfold bind at 1, get. cbv beta iota.
  by destruct (activeGames s !! gameId).
Qed.

(** C9.  [endGame] credits and debits no balance, records no transaction
    and leaves every card as it is; on the games table it rewrites only
    status and end time of the round's row, when the round is in the
    active map, and nothing otherwise: every row keeps its pot and its
    winner. *)
Theorem endGame_frame gameId now s :
  let s' := (endGame gameId now s).1 in
  User_table s' = User_table s
  ∧ Transaction_table s' = Transaction_table s
  ∧ Card_table s' = Card_table s
  ∧ Game_table s'
    = match activeGames s !! gameId with
      | Some _ => alter (λ g, with_end_time now (with_status completed g))
                        gameId (Game_table s)
      | None => Game_table s
      end
  ∧ (∀ g, pot <$> Game_table s' !! g = pot <$> Game_table s !! g)
  ∧ (∀ g, winner_id <$> Game_table s' !! g = winner_id <$> Game_table s !! g).
Proof.
  cbv zeta. rewrite endGame_run.
  destruct (activeGames s !! gameId) as [game|]; [|done]. simpl.
  repeat split; try done; intros g; rewrite lookup_alter;
    case_decide; try done; subst; by destruct (Game_table s !! _).
Qed.

(** ** Declaring a winner *)

Lemma Transaction_unbound : "Transaction" ∉ source_scope.
Proof. by apply (bool_decide_eq_false_1 ("Transaction" ∈ source_scope)). Qed.

Lemma declareWinner_run scope gameId userId cardNumber now s game :
  activeGames s !! gameId = Some game → winner_id game = None →
  declareWinner scope gameId (Some userId) cardNumber now s
  = try_log (
      Transaction_create scope
        (mkTransaction (Some userId) win (winnings_of game) gameId cardNumber);;
      modify (set_activeGames
                (alter (settled (Some userId) cardNumber now) gameId));;
      modify (set_activeGames (delete gameId));;
      match User_table (declare_written s gameId userId cardNumber now game)
            !! userId with
      | None => throw (TypeError "Cannot read properties of null")
      | Some _ => modify (set_newGameTimeouts (λ t, t ++ [(now + 10000)%Z]))
      end)
      (declare_written s gameId userId cardNumber now game).
Proof.
  intros Ha Hw. unfold declareWinner, try_log. unfold bind at 1, get.
  cbv beta iota. rewrite Ha, Hw.
  rewrite bool_decide_eq_false_2 by (by intros [? ?]).
  reflexivity.
Qed.

Lemma declare_written_user s gameId userId cardNumber now game user :
  User_table s !! userId = Some user →
  User_table (declare_written s gameId userId cardNumber now game) !! userId
  = Some (credited (winnings_of game) user).
Proof.
  intros Hu. unfold declare_written. simpl.
  rewrite !lookup_alter_eq, Hu. reflexivity.
Qed.

(** With [Transaction] unbound, as in the module: the call stops at
    [Transaction.create], after the credit and the row. *)
Lemma declareWinner_unbound scope gameId userId cardNumber now s game :
  "Transaction" ∉ scope →
  activeGames s !! gameId = Some game → winner_id game = None →
  declareWinner scope gameId (Some userId) cardNumber now s
  = (declare_written s gameId userId cardNumber now game, inr tt).
Proof.
  intros Hscope Ha Hw. rewrite (declareWinner_run _ _ _ _ _ _ game) by done.
  unfold try_log, Transaction_create, reference.
  rewrite bool_decide_eq_false_2 by done. reflexivity.
Qed.

(** With [Transaction] bound it runs to its end. *)
Lemma declareWinner_bound scope gameId userId cardNumber now s game user :
  "Transaction" ∈ scope →
  activeGames s !! gameId = Some game → winner_id game = None →
  User_table s !! userId = Some user →
  declareWinner scope gameId (Some userId) cardNumber now s
  = (set_newGameTimeouts (λ t, t ++ [(now + 10000)%Z])
       (set_activeGames (delete gameId)
          (set_activeGames
             (alter (settled (Some userId) cardNumber now) gameId)
             (set_Transaction_table
                (λ t, t ++ [mkTransaction (Some userId) win (winnings_of game)
                                          gameId cardNumber])
                (declare_written s gameId userId cardNumber now game)))),
     inr tt).
Proof.
  intros Hscope Ha Hw Hu. rewrite (declareWinner_run _ _ _ _ _ _ game) by done.
  rewrite (declare_written_user _ _ _ _ _ _ user) by done.
  unfold try_log, Transaction_create, reference.
  rewrite bool_decide_eq_true_2 by done. reflexivity.
Qed.

(** C1, in the module as written.  [declareWinner] on an active round
    without a winner, for a participant with a row: the balance becomes
    [B + pot × (1 − house_fee)] and the round's row is persisted Completed
    with the winner fields, but the call stops at [Transaction.create], a
    name the module does not bind: no Win transaction is recorded, the
    round stays in the active map as it was and no replacement round is
    scheduled. *)
Theorem declareWinner_unbound_Transaction gameId userId cardNumber now s
    game user :
  activeGames s !! gameId = Some game → winner_id game = None →
  User_table s !! userId = Some user →
  let s' := (declareWinner source_scope gameId (Some userId) cardNumber now s).1 in
  User_table s' !! userId
  = Some (mkUser (balance user + pot game * (1 - house_fee (settings game)))
                 (total_won user + pot game * (1 - house_fee (settings game)))
                 (games_won user + 1) (games_played user))
  ∧ Game_table s'
    = alter (λ g, mkGame completed (pot g) (start_time g) (Some now)
                         (settings g) (called_numbers g) (current_calls g)
                         (Some userId) (Some cardNumber))
            gameId (Game_table s)
  ∧ Transaction_table s' = Transaction_table s
  ∧ activeGames s' = activeGames s
  ∧ newGameTimeouts s' = newGameTimeouts s.
Proof.
  intros Ha Hw Hu. cbv zeta.
  rewrite (declareWinner_unbound _ _ _ _ _ _ game); [|exact Transaction_unbound|done..].
  cbn [fst]. split; [by apply declare_written_user|]. done.
Qed.

Lemma declareWinner_unbound_Transaction_witness :
  let s' := (declareWinner source_scope sample_uuid (Some "winner") 7 9000
               (payout_state 20)).1 in
  (balance <$> User_table s' !! "winner")
  = Some (20 + 100 * (1 - (5 # 100)))%Q
  ∧ Transaction_table s' = []
  ∧ activeGames s' = activeGames (payout_state 20).
Proof.
  pose proof (declareWinner_unbound_Transaction sample_uuid "winner" 7 9000
                (payout_state 20) payout_game (mkUser 20 0 0 1)
                eq_refl eq_refl eq_refl) as (Hu & _ & Ht & Ha & _).
  cbv zeta. rewrite Hu, Ht, Ha. done.
Defined.

(** Each further call credits the winner again: the round is still in the
    active map and its object still has no winner. *)
Lemma declareWinner_pays_again gameId userId cardNumber now now' s game user :
  activeGames s !! gameId = Some game → winner_id game = None →
  User_table s !! userId = Some user →
  let s1 := (declareWinner source_scope gameId (Some userId) cardNumber now s).1 in
  let s2 := (declareWinner source_scope gameId (Some userId) cardNumber now' s1).1 in
  User_table s2 !! userId
  = Some (credited (winnings_of game) (credited (winnings_of game) user)).
Proof.
  intros Ha Hw Hu. cbv zeta.
  rewrite (declareWinner_unbound _ _ _ _ _ s game)
    by (done || exact Transaction_unbound).
  cbn [fst].
  rewrite (declareWinner_unbound _ _ _ _ _ _ game)
    by (done || exact Transaction_unbound).
  cbn [fst]. apply declare_written_user. by apply declare_written_user.
Qed.

(** The payout scenario where [Transaction] is bound: what the
    specification describes. *)
Lemma declareWinner_payout_bound scope B :
  "Transaction" ∈ scope →
  let s' := (declareWinner scope sample_uuid (Some "winner") 7 9000
               (payout_state B)).1 in
  (∃ u, User_table s' !! "winner" = Some u ∧ (balance u == B + 95)%Q)
  ∧ (∃ t, Transaction_table s' = [t] ∧ tx_type t = win
          ∧ (tx_amount t == 95)%Q ∧ tx_user_id t = Some "winner")
  ∧ activeGames s' !! sample_uuid = None
  ∧ Game_table s' !! sample_uuid = Some (settled (Some "winner") 7 9000 payout_game).
Proof.
  intros Hscope. cbv zeta.
  rewrite (declareWinner_bound _ _ _ _ _ _ payout_game (mkUser B 0 0 1))
    by done.
  cbn [fst]. split; [|split; [|split]].
  - eexists. split; [reflexivity|]. simpl. unfold winnings_of. simpl. lra.
  - eexists. split; [reflexivity|]. by repeat split.
  - reflexivity.
  - reflexivity.
Qed.

(** The payout scenario in the module as written. *)
Lemma declareWinner_payout_source B :
  let s' := (declareWinner source_scope sample_uuid (Some "winner") 7 9000
               (payout_state B)).1 in
  (∃ u, User_table s' !! "winner" = Some u ∧ (balance u == B + 95)%Q)
  ∧ Transaction_table s' = []
  ∧ activeGames s' !! sample_uuid = Some payout_game
  ∧ Game_table s' !! sample_uuid = Some (settled (Some "winner") 7 9000 payout_game).
Proof.
  cbv zeta.
  rewrite (declareWinner_unbound _ _ _ _ _ _ payout_game)
    by (done || exact Transaction_unbound).
  cbn [fst]. split; [|split; [|split]]; [|reflexivity..].
  eexists. split; [reflexivity|]. simpl. unfold winnings_of. simpl. lra.
Qed.

(** ** The win sweep *)

Lemma try_log_idem (m : M unit) s : try_log (try_log m) s = try_log m s.
Proof. unfold try_log. by destruct (m s) as [s' [e|[]]]. Qed.


Lemma declareWinner_try_log scope gameId userId cardNumber now s :
  try_log (declareWinner scope gameId userId cardNumber now) s
  = declareWinner scope gameId userId cardNumber now s.
Proof. unfold declareWinner. apply try_log_idem. Qed.




(** ** Purchases *)

Lemma purchase_from_written scope s gameId userId cardNumber now place card game :
  let tx := mkTransaction (Some userId) bet (bet_amount (settings game))
                          gameId cardNumber in
  (Transaction_create scope tx;;
   User_update (Some userId) add_games_played;;
   ret (with_owner userId now card))
    (purchase_written s gameId userId place card game now)
  = if bool_decide ("Transaction" ∈ scope)
    then (set_User_table (alter add_games_played userId)
            (set_Transaction_table (λ t, t ++ [tx])
               (purchase_written s gameId userId place card game now)),
          inr (with_owner userId now card))
    else (purchase_written s gameId userId place card game now,
          inl (ReferenceError "Transaction")).
Proof.
  cbv zeta. unfold Transaction_create, reference.
  by destruct (bool_decide ("Transaction" ∈ scope)).
Qed.

(** C4, in the code as written.  A participant who holds the cap or more
    in a waiting round, with a free card asked for and a sufficient
    balance: [joinGame] rejects with the cap error, but [purchaseCard]
    checks no cap and sells the card (ownership, debit and pot are
    written); it returns the card where [Transaction] is bound and throws
    a ReferenceError, with all that written, where it is not. *)
Theorem purchaseCard_beyond_cap scope gameId userId cardNumber now s
    game place card user :
  waitingGames s !! gameId = Some game → game_status game = waiting →
  find_free_card s gameId cardNumber = Some (place, card) →
  User_table s !! userId = Some user →
  (bet_amount (settings game) <= balance user)%Q →
  max_cards_per_player (settings game) ≤ count_cards_of s gameId userId →
  let r := purchaseCard scope gameId userId cardNumber now s in
  joinGame gameId userId s
  = (s, inl (Error "Maximum cards per player reached"))
  ∧ Card_table r.1 = <[place := with_owner userId now card]> (Card_table s)
  ∧ (balance <$> User_table r.1 !! userId)
    = Some (balance user + - bet_amount (settings game))%Q
  ∧ (pot <$> waitingGames r.1 !! gameId)
    = Some (pot game + bet_amount (settings game))%Q
  ∧ r.2 = if bool_decide ("Transaction" ∈ scope)
          then inr (with_owner userId now card)
          else inl (ReferenceError "Transaction").
Proof.
  intros Hw Hst Hcard Hu Hbal Hcap. cbv zeta. split.
  { unfold joinGame, try_rethrow. unfold bind at 1, get. cbv beta iota.
    rewrite Hw, bool_decide_eq_true_2 by done. cbn [negb].
    by apply Nat.leb_le in Hcap as ->. }
  rewrite (purchaseCard_run scope s gameId userId cardNumber now game place
             card user) by done.
  rewrite purchase_from_written.
  destruct (bool_decide ("Transaction" ∈ scope)); cbn [fst snd];
    (split; [done|]); simpl; rewrite ?lookup_alter_eq, ?lookup_insert_eq, ?Hu;
    done.
Qed.

Lemma purchaseCard_beyond_cap_witness :
  let r := purchaseCard source_scope sample_uuid "holder" 6 9000 capped_state in
  count_cards_of capped_state sample_uuid "holder" = 5
  ∧ joinGame sample_uuid "holder" capped_state
    = (capped_state, inl (Error "Maximum cards per player reached"))
  ∧ count_cards_of r.1 sample_uuid "holder" = 6
  ∧ (balance <$> User_table r.1 !! "holder") = Some (100 + - 10)%Q
  ∧ r.2 = inl (ReferenceError "Transaction").
Proof.
  pose proof (purchaseCard_beyond_cap source_scope sample_uuid "holder" 6 9000
                capped_state capped_game 5
                (mkCard sample_uuid 6 NaN_card None None false)
                (mkUser 100 0 0 5)) as H.
  cbv zeta in H.
  destruct H as (Hjoin & Hcards & Hbal & _ & Hres);
    [reflexivity|reflexivity|by vm_compute|reflexivity|by vm_compute
    |vm_compute; lia|].
  cbv zeta. split; [by vm_compute|]. split; [exact Hjoin|].
  split; [|split; [exact Hbal|exact Hres]].
  unfold count_cards_of. rewrite Hcards. by vm_compute.
Defined.

(** The same purchase where [Transaction] is bound: it succeeds. *)
Lemma purchaseCard_beyond_cap_bound :
  let r := purchaseCard ("Transaction" :: source_scope) sample_uuid "holder" 6
             9000 capped_state in
  count_cards_of r.1 sample_uuid "holder" = 6
  ∧ r.2 = inr (mkCard sample_uuid 6 NaN_card (Some "holder") (Some 9000%Z) false).
Proof. by vm_compute. Qed.

(** ** The run of the scenarios *)

Lemma run_created_reachable :
  reachable (λ q, q) source_scope 10 (5 # 100) 180 5 run_created.
Proof.
  exists run_users. apply rtc_once. unfold run_created.
  by apply step_createNewGame.
Qed.

Lemma run_purchased_reachable :
  reachable (λ q, q) source_scope 10 (5 # 100) 180 5 run_purchased.
Proof.
  destruct run_created_reachable as [users Hrun]. exists users.
  eapply rtc_r; [exact Hrun|]. apply step_purchaseCard.
Qed.

Lemma run_created_fresh : Game_table run_created !! "next" = None.
Proof. by vm_compute. Qed.

Lemma run_purchased_fresh : Game_table run_purchased !! "next" = None.
Proof. by vm_compute. Qed.

Lemma Math_random_zero : Math_random_ok (λ _, Finite 0).
Proof. intros k. exists 0%Q. split; [done|]. split; lra. Qed.

Lemma run_started_reachable :
  reachable (λ q, q) source_scope 10 (5 # 100) 180 5 run_started.
Proof.
  destruct run_purchased_reachable as [users Hrun]. exists users.
  eapply rtc_r; [exact Hrun|]. unfold run_started.
  apply step_startGame;
    [exact run_purchased_fresh|done|exact Math_random_zero].
Qed.

Lemma run_expired_reachable :
  reachable (λ q, q) source_scope 10 (5 # 100) 180 5 run_expired.
Proof.
  destruct run_created_reachable as [users Hrun]. exists users.
  eapply rtc_r; [exact Hrun|]. unfold run_expired.
  apply step_startGame;
    [exact run_created_fresh| |exact Math_random_zero].
  assert (purchased_cards run_created sample_uuid = []) as ->
    by (by vm_compute).
  done.
Qed.

(** ** The pot *)



(** A round starts with pot 0 and no purchased card. *)
Lemma createNewGame_pot sin BET_AMOUNT HOUSE_FEE GAME_DURATION
    MAX_CARDS_PER_PLAYER newId now s :
  let r := createNewGame sin BET_AMOUNT HOUSE_FEE GAME_DURATION
             MAX_CARDS_PER_PLAYER newId now s in
  (pot <$> waitingGames r.1 !! newId) = Some 0%Q
  ∧ (pot <$> Game_table r.1 !! newId) = Some 0%Q
  ∧ count_purchased r.1 newId = count_purchased s newId.
Proof.
  cbv zeta. rewrite createNewGame_run. cbn [fst]. simpl.
  rewrite !lookup_insert_eq. repeat split.
  unfold count_purchased, purchased_cards. simpl.
  by rewrite filter_app, new_cards_unowned, app_nil_r.
Qed.

(** ** The end of the countdown *)

Lemma refund_cards_bound scope gameId game cards s :
  "Transaction" ∈ scope →
  refund_cards scope gameId game cards s
  = (foldl (refunded gameId game) s cards, inr tt).
Proof.
  intros Hscope. revert s. induction cards as [|card rest IH]; intros s.
  { reflexivity. }
  simpl. unfold bind at 1.
  unfold User_update, Transaction_create, reference.
  rewrite bool_decide_eq_true_2 by done. unfold refunded, refund_of.
  destruct (user_id card); simpl; apply IH.
Qed.

Lemma refund_cards_unbound scope gameId game card rest s :
  "Transaction" ∉ scope →
  refund_cards scope gameId game (card :: rest) s
  = (match user_id card with
     | Some id =>
         set_User_table (alter (add_balance (bet_amount (settings game))) id) s
     | None => s
     end, inl (ReferenceError "Transaction")).
Proof.
  intros Hscope. simpl. unfold bind at 1.
  unfold User_update, Transaction_create, reference.
  rewrite bool_decide_eq_false_2 by done.
  by destruct (user_id card).
Qed.

Lemma refunded_transactions gameId game cards s :
  Transaction_table (foldl (refunded gameId game) s cards)
  = Transaction_table s ++ (refund_of gameId game <$> cards).
Proof.
  revert s. induction cards as [|card rest IH]; intros s; simpl.
  { by rewrite app_nil_r. }
  rewrite IH. unfold refunded. simpl.
  destruct (user_id card); simpl; by rewrite <-app_assoc.
Qed.



(** Where [Transaction] is bound, [cancelGame] on a waiting round refunds
    each retrieved card: one credit and one Refund transaction per card. *)
Lemma cancelGame_refunds sin scope BET_AMOUNT HOUSE_FEE GAME_DURATION
    MAX_CARDS_PER_PLAYER s gameId retrieved newId now game :
  "Transaction" ∈ scope →
  waitingGames s !! gameId = Some game →
  let s' := (cancelGame sin scope BET_AMOUNT HOUSE_FEE GAME_DURATION
               MAX_CARDS_PER_PLAYER gameId retrieved newId now s).1 in
  Transaction_table s'
  = Transaction_table s ++ (refund_of gameId game <$> retrieved)
  ∧ User_table s'
    = User_table
        (foldl (refunded gameId game)
               (set_Game_table
                  (alter (λ g, with_end_time now (with_status cancelled g)) gameId)
                  s)
               retrieved).
Proof.
  intros Hscope Hw. cbv zeta.
  assert ((cancelGame sin scope BET_AMOUNT HOUSE_FEE GAME_DURATION
             MAX_CARDS_PER_PLAYER gameId retrieved newId now s).1
          = (createNewGame sin BET_AMOUNT HOUSE_FEE GAME_DURATION
               MAX_CARDS_PER_PLAYER newId now
               (set_gameTimers (delete gameId)
                  (set_waitingGames (delete gameId)
                     (foldl (refunded gameId game)
                        (set_Game_table
                           (alter (λ g, with_end_time now
                                          (with_status cancelled g)) gameId) s)
                        retrieved)))).1) as ->.
  { rewrite (cancelGame_eq _ _ _ _ _ _ _ _ _ _ _ game) by done.
    unfold try_log. unfold bind at 1. unfold Game_update at 1, modify at 1.
    unfold bind at 1. by rewrite refund_cards_bound by done. }
  simpl. by rewrite refunded_transactions.
Qed.

(** In the module as written it stops at the first retrieved card, after
    the credit: no transaction, the round stays in the waiting map and no
    replacement is created. *)
Lemma cancelGame_unbound sin scope BET_AMOUNT HOUSE_FEE GAME_DURATION
    MAX_CARDS_PER_PLAYER s gameId card rest newId now game :
  "Transaction" ∉ scope →
  waitingGames s !! gameId = Some game →
  let s' := (cancelGame sin scope BET_AMOUNT HOUSE_FEE GAME_DURATION
               MAX_CARDS_PER_PLAYER gameId (card :: rest) newId now s).1 in
  Transaction_table s' = Transaction_table s
  ∧ waitingGames s' = waitingGames s
  ∧ Game_table s'
    = alter (λ g, with_end_time now (with_status cancelled g)) gameId
            (Game_table s).
Proof.
  intros Hscope Hw. cbv zeta.
  assert ((cancelGame sin scope BET_AMOUNT HOUSE_FEE GAME_DURATION
             MAX_CARDS_PER_PLAYER gameId (card :: rest) newId now s).1
          = match user_id card with
            | Some id =>
                set_User_table
                  (alter (add_balance (bet_amount (settings game))) id)
                  (set_Game_table
                     (alter (λ g, with_end_time now (with_status cancelled g))
                            gameId) s)
            | None =>
                set_Game_table
                  (alter (λ g, with_end_time now (with_status cancelled g))
                         gameId) s
            end) as ->.
  { rewrite (cancelGame_eq _ _ _ _ _ _ _ _ _ _ _ game) by done.
    unfold try_log. unfold bind at 1. unfold Game_update at 1, modify at 1.
    unfold bind at 1. by rewrite refund_cards_unbound by done. }
  by destruct (user_id card).
Qed.

(** ** The caller *)

Lemma NoDup_lookup_not_in_take {A} (l : list A) i x :
  NoDup l → l !! i = Some x → x ∉ take i l.
Proof.
  intros Hnd Hi. rewrite <-(take_drop_middle l i x Hi) in Hnd.
  apply NoDup_app in Hnd as (_ & Hnot & _).
  intros Hin. apply (Hnot x Hin). by left.
Qed.

(** While the caller goes on, the slot it reads holds a draw that was not
    called before. *)
Lemma caller_next_draw s gameId caller game now :
  engine_inv s →
  callIntervals s !! gameId = Some caller →
  activeGames s !! gameId = Some game →
  tick_stops caller game now = false →
  ∃ d, array_get (allNumbers caller) (KIndex (numberIndex caller)) = Some d
       ∧ draw_id d ∉ draw_id <$> called_numbers game.
Proof.
  intros Hinv Hc Ha Hstop.
  destruct (inv_caller _ Hinv _ _ _ Hc Ha) as [Hdef Hnd Hcalled].
  assert (Hidx : numberIndex caller < length (items (allNumbers caller))).
  { unfold tick_stops in Hstop. apply orb_false_iff in Hstop as [_ Hi].
    by apply Nat.leb_gt in Hi. }
  destruct (lookup_lt_is_Some_2 _ _ Hidx) as [slot Hslot].
  assert (is_Some slot) as [d ->].
  { rewrite Forall_forall in Hdef. apply Hdef.
    by eapply list_elem_of_lookup_2. }
  exists d. split; [simpl; by rewrite Hslot|].
  rewrite Hcalled. apply NoDup_lookup_not_in_take; [done|].
  unfold caller_draws. rewrite list_lookup_fmap.
  rewrite (all_defined _ Hdef) in Hslot. rewrite list_lookup_fmap in Hslot.
  destruct (omap id (items (allNumbers caller)) !! numberIndex caller)
    as [d0|]; [|done]. by injection Hslot as ->.
Qed.

(** *** What keeps the called numbers of a row *)





Lemma joinGame_state gameId userId s : (joinGame gameId userId s).1 = s.
Proof.
  unfold joinGame, try_rethrow. unfold bind at 1, get. cbv beta iota.
  destruct (waitingGames s !! gameId) as [game|]; [|done].
  destruct (negb _); [done|]. by destruct (_ <=? _).
Qed.






(** A tick that finds the duration over or the numbers exhausted credits
    nobody and records nothing. *)
Lemma tick_exhaustion scope gameId retrieved now s caller game :
  callIntervals s !! gameId = Some caller →
  activeGames s !! gameId = Some game →
  tick_stops caller game now = true →
  let s' := (tick scope gameId retrieved now s).1 in
  User_table s' = User_table s
  ∧ Transaction_table s' = Transaction_table s
  ∧ Card_table s' = Card_table s
  ∧ Game_table s'
    = alter (λ g, with_end_time now (with_status completed g)) gameId
            (Game_table s)
  ∧ activeGames s' !! gameId = None.
Proof.
  intros Hc Ha Hstop. cbv zeta.
  rewrite (tick_stop _ _ _ _ _ caller game) by done.
  rewrite endGame_run. simpl. rewrite Ha. simpl.
  by rewrite lookup_delete_eq.
Qed.

(** * Further properties of the code *)

(** ** The win predicate *)

Lemma checkCardForBingo_decides (cardNumbers : grid) (calledNumbers : list Draw) :
  is_5x5 cardNumbers →
  (checkCardForBingo cardNumbers calledNumbers = Some true
   ∧ bingo cardNumbers calledNumbers)
  ∨ (checkCardForBingo cardNumbers calledNumbers = Some false
     ∧ ¬ bingo cardNumbers calledNumbers).
Proof.
  intros Hg. unfold checkCardForBingo, bingo.
  destruct (any_line_spec cardNumbers calledNumbers _ (rows_in_bounds _ Hg))
    as (br & -> & Hr).
  destruct (any_line_spec cardNumbers calledNumbers _ (cols_in_bounds _ Hg))
    as (bc & -> & Hc).
  edestruct (diagonals_spec cardNumbers calledNumbers (seq 0 5) true true)
    as (r1 & r2 & -> & H1 & H2).
  { apply Forall_forall. intros i Hi%elem_of_seq.
    split; apply cell_at_5x5; first [done|lia]. }
  rewrite line_wins_diag1, line_wins_diag2.
  assert (Hrows : (∃ row, row < 5
                     ∧ line_wins cardNumbers calledNumbers (row_coords row))
                  ↔ br = true).
  { rewrite Hr. split.
    - intros (row & Hrow & Hl). exists (row_coords row). split; [|done].
      apply list_elem_of_fmap. exists row. split; [done|].
      apply elem_of_seq. lia.
    - intros (l & (row & -> & Hrow%elem_of_seq)%list_elem_of_fmap & Hl).
      exists row. split; [lia|done]. }
  assert (Hcols : (∃ col, col < 5
                     ∧ line_wins cardNumbers calledNumbers (col_coords col))
                  ↔ bc = true).
  { rewrite Hc. split.
    - intros (col & Hcol & Hl). exists (col_coords col). split; [|done].
      apply list_elem_of_fmap. exists col. split; [done|].
      apply elem_of_seq. lia.
    - intros (l & (col & -> & Hcol%elem_of_seq)%list_elem_of_fmap & Hl).
      exists col. split; [lia|done]. }
  rewrite Hrows, Hcols.
  assert (Hd1 : (∀ i, i ∈ seq 0 5 → cell_ok cardNumbers calledNumbers i i)
                ↔ r1 = true) by (rewrite H1; tauto).
  assert (Hd2 : (∀ i, i ∈ seq 0 5 → cell_ok cardNumbers calledNumbers i (4 - i))
                ↔ r2 = true) by (rewrite H2; tauto).
  rewrite Hd1, Hd2.
  destruct br; [left; tauto|]. destruct bc; [left; tauto|].
  destruct r1; [left; tauto|]. destruct r2; [left; tauto|].
  right. split; [done|]. intuition discriminate.
Qed.

Lemma matched_mono (c1 c2 : list Draw) (c : Cell) :
  draw_id <$> c1 ⊆ draw_id <$> c2 → matched c1 c → matched c2 c.
Proof.
  intros Hsub (d & Hd & Hl & Hn).
  assert (draw_id d ∈ draw_id <$> c2) as (d' & Hid & Hd')%list_elem_of_fmap.
  { apply Hsub, list_elem_of_fmap. by exists d. }
  injection Hid as Hl' Hn'. exists d'. split; [done|]. by rewrite <-Hl', <-Hn'.
Qed.

Lemma line_wins_mono (g : grid) (c1 c2 : list Draw) coords :
  draw_id <$> c1 ⊆ draw_id <$> c2 →
  line_wins g c1 coords → line_wins g c2 coords.
Proof.
  intros Hsub Hl row col Hin. destruct (Hl row col Hin) as (c & Hc & [Hf|Hm]).
  - exists c. split; [done|]. by left.
  - exists c. split; [done|]. right. by eapply matched_mono.
Qed.

Lemma bingo_mono (g : grid) (c1 c2 : list Draw) :
  draw_id <$> c1 ⊆ draw_id <$> c2 → bingo g c1 → bingo g c2.
Proof.
  intros Hsub [(row & Hrow & Hl)|[(col & Hcol & Hl)|[Hl|Hl]]].
  - left. exists row. split; [done|]. by eapply line_wins_mono.
  - right; left. exists col. split; [done|]. by eapply line_wins_mono.
  - right; right; left. by eapply line_wins_mono.
  - right; right; right. by eapply line_wins_mono.
Qed.

Lemma checkCardForBingo_more_calls (g : grid) (c1 c2 : list Draw) :
  is_5x5 g → draw_id <$> c1 ⊆ draw_id <$> c2 →
  checkCardForBingo g c1 = Some true → checkCardForBingo g c2 = Some true.
Proof.
  intros Hg Hsub Hwin.
  destruct (checkCardForBingo_decides g c1 Hg) as [[_ Hb]|[Hf _]];
    [|congruence].
  destruct (checkCardForBingo_decides g c2 Hg) as [[Ht _]|[_ Hnb]]; [done|].
  destruct Hnb. by eapply bingo_mono.
Qed.

(** X1.  On a grid of five rows of five cells, a card that wins keeps
    winning when more numbers are called: if every letter and number
    called in [calledNumbers] is also called in [more] and the check gives
    [true] on the first, it gives [true] on the second; order, repetition
    and the [called] flags of the draws do not matter. *)
Theorem checkCardForBingo_monotone (cardNumbers : grid)
    (calledNumbers more : list Draw) :
  is_5x5 cardNumbers →
  draw_id <$> calledNumbers ⊆ draw_id <$> more →
  checkCardForBingo cardNumbers calledNumbers = Some true →
  checkCardForBingo cardNumbers more = Some true.
Proof. apply checkCardForBingo_more_calls. Qed.

Lemma checkCardForBingo_monotone_witness :
  checkCardForBingo NaN_card (diagonal_calls ++ rev row0_calls) = Some true.
Proof.
  apply (checkCardForBingo_monotone NaN_card row0_calls).
  - apply NaN_card_5x5.
  - unfold row0_calls, diagonal_calls. simpl. intros x.
    rewrite !elem_of_cons, !elem_of_nil. tauto.
  - vm_compute. reflexivity.
Defined.

Lemma cell_at_concat (g : grid) row col :
  is_5x5 g → row < 5 → col < 5 →
  cell_at g row col = concat g !! (5 * row + col).
Proof.
  intros [Hlen Hrows] Hr Hc.
  apply list_of_length_5 in Hlen as (r0 & r1 & r2 & r3 & r4 & ->).
  repeat (apply Forall_cons in Hrows as [?%list_of_length_5 Hrows]).
  repeat match goal with
         | H : ∃ _, _ |- _ => destruct H as (? & ? & ? & ? & ? & ->)
         end.
  do 5 (destruct row as [|row];
        [by do 5 (destruct col as [|col]; [done|]); lia|]).
  lia.
Qed.

(** Two cells of a well-formed card at different places carry different
    numbers. *)
Lemma well_formed_numbers_differ (g : grid) r1 c1 r2 c2 x1 x2 :
  well_formed_card g →
  r1 < 5 → c1 < 5 → r2 < 5 → c2 < 5 → (r1, c1) ≠ (r2, c2) →
  cell_at g r1 c1 = Some x1 → cell_at g r2 c2 = Some x2 →
  cell_number x1 ≠ cell_number x2.
Proof.
  intros (Hg & _ & _ & Hnd) Hr1 Hc1 Hr2 Hc2 Hne H1 H2 Heq.
  rewrite cell_at_concat in H1, H2 by done.
  unfold card_numbers in Hnd.
  assert (5 * r1 + c1 = 5 * r2 + c2) as Hidx.
  { eapply (NoDup_lookup _ _ _ (cell_number x1) Hnd).
    - by rewrite list_lookup_fmap, H1.
    - by rewrite list_lookup_fmap, H2, Heq. }
  apply Hne. f_equal; lia.
Qed.

Lemma filter_ne_absent {A} `{EqDecision A} (x : A) (l : list A) :
  x ∉ l → filter (λ y, y ≠ x) l = l.
Proof.
  induction l as [|y l IH]; [done|].
  intros [Hyx Hl]%not_elem_of_cons. rewrite filter_cons.
  destruct (decide (y ≠ x)) as [|Hn]; [by rewrite IH|].
  destruct Hn. by intros ->.
Qed.

Lemma length_filter_ne {A} `{EqDecision A} (x : A) (l : list A) :
  NoDup l → length l - 1 ≤ length (filter (λ y, y ≠ x) l).
Proof.
  induction 1 as [|y l Hy Hnd IH]; [done|].
  rewrite filter_cons. destruct (decide (y ≠ x)) as [Hyx|Hyx]; simpl; [lia|].
  apply dec_stable in Hyx as ->. rewrite filter_ne_absent by done. lia.
Qed.

(** On a well-formed card a line of five different cells needs four called
    numbers. *)
Lemma line_wins_needs_four (g : grid) (called : list Draw) coords :
  well_formed_card g →
  NoDup coords → length coords = 5 →
  (∀ row col, (row, col) ∈ coords → row < 5 ∧ col < 5) →
  line_wins g called coords → 4 ≤ length called.
Proof.
  intros Hwf Hnd Hlen Hin Hwin.
  set (others := filter (λ rc, rc ≠ (2, 2)) coords).
  set (number_at := λ rc : nat * nat, cell_at g rc.1 rc.2 ≫= cell_number).
  assert (Hothers : 4 ≤ length others).
  { pose proof (length_filter_ne (2, 2) coords Hnd). fold others in H. lia. }
  assert (Hsub : number_at <$> others ⊆+ Some ∘ draw_number <$> called).
  { apply NoDup_submseteq.
    - apply NoDup_fmap_2_strong; [|by apply NoDup_filter].
      intros [r1 c1] [r2 c2] [Hn1 H1]%list_elem_of_filter
             [Hn2 H2]%list_elem_of_filter Heq.
      destruct (decide ((r1, c1) = (r2, c2))) as [|Hne]; [done|exfalso].
      destruct (Hwin r1 c1 H1) as (x1 & Hx1 & _).
      destruct (Hwin r2 c2 H2) as (x2 & Hx2 & _).
      destruct (Hin r1 c1 H1), (Hin r2 c2 H2).
      apply (well_formed_numbers_differ g r1 c1 r2 c2 x1 x2); try done.
      unfold number_at in Heq. simpl in Heq. by rewrite Hx1, Hx2 in Heq.
    - intros o ([r c] & -> & [Hn Hrc]%list_elem_of_filter)%list_elem_of_fmap.
      destruct (Hwin r c Hrc) as (x & Hx & [Hfree|(d & Hd & _ & Hnum)]).
      + destruct Hwf as (_ & Hcenter & _).
        apply (Hcenter r c x Hx) in Hfree as [-> ->]. done.
      + apply list_elem_of_fmap. exists d. split; [|done].
        unfold number_at. simpl. by rewrite Hx. }
  apply submseteq_length in Hsub. rewrite !length_fmap in Hsub. lia.
Qed.

(** X2.  A well-formed card (five rows of five cells, only the center
    free, no number twice) does not win before four numbers are called:
    whenever the check gives [true], at least four draws were called. *)
Theorem checkCardForBingo_needs_four_calls (cardNumbers : grid)
    (calledNumbers : list Draw) :
  well_formed_card cardNumbers →
  checkCardForBingo cardNumbers calledNumbers = Some true →
  4 ≤ length calledNumbers.
Proof.
  intros Hwf Hwin.
  destruct (checkCardForBingo_decides cardNumbers calledNumbers (proj1 Hwf))
    as [[_ Hb]|[Hf _]]; [|congruence].
  destruct Hb as [(row & Hrow & Hl)|[(col & Hcol & Hl)|[Hl|Hl]]];
    (eapply line_wins_needs_four; [exact Hwf| | | |exact Hl]).
  - apply NoDup_fmap_2; [by intros ?? [=]|apply NoDup_seq].
  - done.
  - intros r c (c' & [= -> ->] & Hc%elem_of_seq)%list_elem_of_fmap. lia.
  - apply NoDup_fmap_2; [by intros ?? [=]|apply NoDup_seq].
  - done.
  - intros r c (r' & [= -> ->] & Hr%elem_of_seq)%list_elem_of_fmap. lia.
  - apply NoDup_fmap_2; [by intros ?? [=]|apply NoDup_seq].
  - done.
  - intros r c (i & [= -> ->] & Hi%elem_of_seq)%list_elem_of_fmap. lia.
  - apply NoDup_fmap_2; [by intros ?? [=]|apply NoDup_seq].
  - done.
  - intros r c (i & [= -> ->] & Hi%elem_of_seq)%list_elem_of_fmap. lia.
Qed.

Lemma checkCardForBingo_needs_four_calls_witness :
  checkCardForBingo (generateCardNumbers (λ q, q) 1 sample_uuid) diagonal_calls
  = Some true
  ∧ 4 ≤ length diagonal_calls.
Proof.
  assert (Hwin : checkCardForBingo (generateCardNumbers (λ q, q) 1 sample_uuid)
                   diagonal_calls = Some true) by (vm_compute; reflexivity).
  split; [exact Hwin|].
  apply (checkCardForBingo_needs_four_calls
           (generateCardNumbers (λ q, q) 1 sample_uuid) diagonal_calls);
    [|exact Hwin].
  apply seed_safe_well_formed. vm_compute. reflexivity.
Defined.

(** ** The shuffle *)

(** X3.  The shuffle loop of [callNumbers], run with draws of
    [Math.random()] (numbers in [0, 1)), returns a permutation of the
    array it starts from: every slot holds an element, no element is lost
    or repeated, and no property is added to the array. *)
Theorem shuffle_is_permutation {A} (random : nat → number) (univ : list A) :
  Math_random_ok random →
  ∃ l, items (shuffle random (length univ - 1) (mkArray (Some <$> univ) ∅))
       = Some <$> l
       ∧ l ≡ₚ univ
       ∧ props (shuffle random (length univ - 1) (mkArray (Some <$> univ) ∅))
         = ∅.
Proof.
  intros Hr.
  assert (Hunit : ∀ k, unit_draw (random k)).
  { intros k. destruct (Hr k) as (r & ? & ?). right. by exists r. }
  assert (Hnan : ∀ k, is_NaN (random k) = false).
  { intros k. destruct (Hr k) as (r & -> & _). done. }
  pose proof (shuffle_inv_final random univ Hunit) as Hinv.
  set (a := shuffle random (length univ - 1) (mkArray (Some <$> univ) ∅)) in *.
  assert (Hnone : props a !! "NaN" = None).
  { apply (inv_none _ _ _ _ Hinv). intros; apply Hnan. }
  exists (omap id (items a)). split; [|split].
  - apply all_defined, Forall_lookup. intros k [d|] Hk; [done|].
    apply (inv_holes _ _ _ _ Hinv) in Hk as (_ & Hk & _).
    by rewrite Hnan in Hk.
  - pose proof (inv_perm _ _ _ _ Hinv) as Hp.
    rewrite Hnone in Hp. by rewrite app_nil_r in Hp.
  - apply map_eq. intros p. rewrite lookup_empty.
    destruct (decide (p = "NaN")) as [->|Hp]; [done|].
    by apply (inv_props _ _ _ _ Hinv).
Qed.

Lemma shuffle_is_permutation_witness :
  ∃ l, items (shuffle (λ _, Finite 0) 2 (mkArray [Some 7; Some 8; Some 9] ∅))
       = Some <$> l
       ∧ l ≡ₚ [7; 8; 9].
Proof.
  destruct (shuffle_is_permutation (λ _, Finite 0) [7; 8; 9])
    as (l & Hl & Hp & _).
  - intros k. exists 0%Q. split; [done|]. split; [apply Qle_refl|reflexivity].
  - exists l. split; [exact Hl|exact Hp].
Defined.

(** ** The numbers of a generated card, whatever the seed *)

Lemma NoDup_omap_lookup {A} (l : list (option A)) i j x :
  NoDup (omap id l) → l !! i = Some (Some x) → l !! j = Some (Some x) → i = j.
Proof.
  revert i j. induction l as [|[y|] l IH]; intros i j Hnd Hi Hj; [done|..].
  - change (omap id (Some y :: l)) with (y :: omap id l) in Hnd.
    apply NoDup_cons in Hnd as [Hy Hnd].
    assert (Hin : ∀ k, l !! k = Some (Some y) → y ∈ omap id l).
    { intros k Hk. apply list_elem_of_omap. exists (Some y).
      split; [by eapply list_elem_of_lookup_2|done]. }
    destruct i as [|i], j as [|j]; simpl in *; [done|..].
    + injection Hi as <-. destruct Hy. by eapply Hin.
    + injection Hj as <-. destruct Hy. by eapply Hin.
    + f_equal. by apply IH.
  - change (omap id (None :: l)) with (omap id l) in Hnd.
    destruct i as [|i], j as [|j]; simpl in *; [done..|].
    f_equal. by apply IH.
Qed.

(** The values the shuffle leaves in the first five slots are distinct
    elements of the array it started from. *)
Lemma selected_defined (random : nat → number) (univ : list nat) :
  (∀ k, unit_draw (random k)) → NoDup univ →
  NoDup (omap id (take 5 (items (shuffle random (length univ - 1)
                                   (mkArray (Some <$> univ) ∅)))))
  ∧ omap id (take 5 (items (shuffle random (length univ - 1)
                              (mkArray (Some <$> univ) ∅)))) ⊆ univ.
Proof.
  intros Hunit Hnd.
  pose proof (shuffle_inv_final random univ Hunit) as Hinv.
  set (a := shuffle random (length univ - 1) (mkArray (Some <$> univ) ∅)) in *.
  pose proof (inv_perm _ _ _ _ Hinv) as Hperm.
  rewrite <-Hperm, <-(take_drop 5 (items a)), omap_app in Hnd.
  apply NoDup_app in Hnd as [Hnd _]. apply NoDup_app in Hnd as [Hnd _].
  split; [done|].
  intros x Hx. rewrite <-Hperm. apply elem_of_app. left.
  rewrite <-(take_drop 5 (items a)), omap_app. apply elem_of_app. by left.
Qed.

Lemma cell_at_layout_inv cols row col c :
  cell_at (layout cols) row col = Some c →
  row < 5 ∧ col < 5 ∧ c = layout_cell cols row col.
Proof.
  intros Hc.
  do 5 (destruct row as [|row];
        [do 5 (destruct col as [|col];
               [injection Hc as <-; repeat split; lia|]);
         by destruct col|]).
  done.
Qed.

Lemma layout_cell_number cols row col :
  cell_number (layout_cell cols row col)
  = cols !! col ≫= λ column, mjoin (column !! row).
Proof. unfold layout_cell. by case_bool_decide. Qed.

Lemma layout_cell_free cols row col :
  cell_free (layout_cell cols row col) = true ↔ row = 2 ∧ col = 2.
Proof. unfold layout_cell. case_bool_decide; simpl; [tauto|]. split; [done|tauto]. Qed.

Lemma selected_column random col column :
  selected_columns random !! col = Some column →
  col < 5
  ∧ column = take 5 (items (shuffled_column random col
                              (15 * col + 1) (15 * col + 15))).
Proof.
  intros Hcol.
  do 5 (destruct col as [|col]; [injection Hcol as <-; split; [lia|done]|]).
  done.
Qed.

Lemma build_card_sound random :
  (∀ k, unit_draw (random k)) → sound_card (build_card random).
Proof.
  intros Hunit. rewrite build_card_layout by done.
  assert (Hsel : ∀ row col c n,
    cell_at (layout (selected_columns random)) row col = Some c →
    cell_number c = Some n →
    row < 5 ∧ col < 5
    ∧ take 5 (items (shuffled_column random col (15 * col + 1) (15 * col + 15)))
      !! row = Some (Some n)).
  { intros row col c n Hc Hn.
    apply cell_at_layout_inv in Hc as (Hr & Hcol & ->).
    rewrite layout_cell_number in Hn. split; [done|]. split; [done|].
    destruct (selected_columns random !! col) as [column|] eqn:E; [|done].
    apply selected_column in E as [_ ->]. simpl in Hn.
    by destruct (take 5 _ !! row) as [[m|]|]; simplify_eq/=. }
  assert (Hcol : ∀ col,
    NoDup (omap id (take 5 (items (shuffled_column random col
                                     (15 * col + 1) (15 * col + 15)))))
    ∧ omap id (take 5 (items (shuffled_column random col
                                (15 * col + 1) (15 * col + 15))))
      ⊆ column_range (15 * col + 1) (15 * col + 15)).
  { intros col. unfold shuffled_column. cbn [items]. rewrite length_fmap.
    apply (selected_defined (λ i, random (col * 100 + i))).
    - intros k. apply Hunit.
    - apply column_range_NoDup. }
  assert (Hrange : ∀ row col c n,
    cell_at (layout (selected_columns random)) row col = Some c →
    cell_number c = Some n → 15 * col + 1 ≤ n ≤ 15 * col + 15).
  { intros row col c n Hc Hn.
    destruct (Hsel row col c n Hc Hn) as (_ & _ & Hrow).
    destruct (Hcol col) as [_ Hsub].
    assert (n ∈ column_range (15 * col + 1) (15 * col + 15)) as Hin.
    { apply Hsub, list_elem_of_omap. exists (Some n).
      split; [by eapply list_elem_of_lookup_2|done]. }
    unfold column_range in Hin. apply elem_of_seq in Hin. lia. }
  split; [|split].
  - split; [done|]. repeat constructor.
  - intros row col c Hc.
    pose proof (cell_at_layout_inv _ _ _ _ Hc) as (Hr & Hco & ->).
    split; [apply layout_cell_free|]. split.
    + unfold layout_cell. case_bool_decide; simpl;
        by do 5 (destruct col as [|col]; [done|]); lia.
    + intros n Hn. by eapply Hrange.
  - intros r1 c1 r2 c2 x1 x2 n H1 H2 Hn1 Hn2.
    pose proof (Hrange _ _ _ _ H1 Hn1). pose proof (Hrange _ _ _ _ H2 Hn2).
    assert (c1 = c2) as <- by lia. split; [|done].
    destruct (Hsel _ _ _ _ H1 Hn1) as (_ & _ & Hrow1).
    destruct (Hsel _ _ _ _ H2 Hn2) as (_ & _ & Hrow2).
    destruct (Hcol c1) as [Hnd _].
    by eapply NoDup_omap_lookup.
Qed.

Lemma generateCardNumbers_grid (sin : Q → Q) (cardNumber : nat)
    (gameId : string) :
  is_5x5 (generateCardNumbers sin cardNumber gameId).
Proof.
  unfold generateCardNumbers.
  apply (build_card_sound (seededRandom sin (card_seed cardNumber gameId))).
  intros k. apply seededRandom_unit.
Qed.

(** X4.  Whatever the card number, the round id and the values of
    [Math.sin], the generated grid has five rows of five cells, its center
    cell and no other is free, every cell carries the letter of its column,
    and a number that is there (not [undefined]) lies in the range of its
    column and stands at no other place of the card. *)
Theorem generateCardNumbers_sound (sin : Q → Q) (cardNumber : nat)
    (gameId : string) :
  sound_card (generateCardNumbers sin cardNumber gameId).
Proof.
  unfold generateCardNumbers. apply build_card_sound.
  intros k. apply seededRandom_unit.
Qed.

(** ** What a step of the engine does *)

Lemma declareWinner_state scope gameId userId cardNumber now s game :
  activeGames s !! gameId = Some game → winner_id game = None →
  declareWinner scope gameId (Some userId) cardNumber now s
  = (declared (bool_decide ("Transaction" ∈ scope)) s gameId userId cardNumber
              now game, inr tt).
Proof.
  intros Ha Hw. case_bool_decide as Hscope.
  - rewrite (declareWinner_run _ _ _ _ _ _ game) by done.
    unfold declared, try_log, Transaction_create, reference.
    rewrite bool_decide_eq_true_2 by done.
    destruct (User_table s !! userId) as [user|] eqn:Hu.
    + rewrite (declare_written_user _ _ _ _ _ _ user) by done.
      by rewrite bool_decide_eq_true_2 by by eexists.
    + assert (User_table (declare_written s gameId userId cardNumber now game)
              !! userId = None) as ->.
      { unfold declare_written. simpl. by rewrite !lookup_alter_eq, Hu. }
      by rewrite bool_decide_eq_false_2 by by intros [? ?].
  - by apply declareWinner_unbound.
Qed.

Lemma declareWinner_settled scope gameId userId cardNumber now s game :
  activeGames s !! gameId = Some game → is_Some (winner_id game) →
  declareWinner scope gameId userId cardNumber now s = (s, inr tt).
Proof.
  intros Ha Hw. unfold declareWinner, try_log. unfold bind at 1, get.
  cbv beta iota. rewrite Ha. by rewrite bool_decide_eq_true_2 by done.
Qed.

Lemma declareWinner_not_active scope gameId userId cardNumber now s :
  activeGames s !! gameId = None →
  declareWinner scope gameId userId cardNumber now s = (s, inr tt).
Proof.
  intros Ha. unfold declareWinner, try_log. unfold bind at 1, get.
  cbv beta iota. by rewrite Ha.
Qed.

(** The sweep changes nothing or declares a retrieved card that satisfies
    the check. *)
Lemma sweep_outcome scope gameId game cards now s :
  activeGames s !! gameId = Some game →
  Forall (λ c, is_Some (user_id c)) cards →
  (try_log (sweep scope gameId game cards now) s).1 = s
  ∨ ∃ card userId,
      card ∈ cards ∧ user_id card = Some userId ∧ winner_id game = None
      ∧ checkCardForBingo (numbers card) (called_numbers game) = Some true
      ∧ (try_log (sweep scope gameId game cards now) s).1
        = declared (bool_decide ("Transaction" ∈ scope)) s gameId userId
                   (card_number card) now game.
Proof.
  intros Ha. induction 1 as [|card rest [userId Hu] _ IH]; [by left|].
  simpl.
  destruct (checkCardForBingo (numbers card) (called_numbers game))
    as [[|]|] eqn:Hcheck.
  - rewrite declareWinner_try_log.
    destruct (winner_id game) as [w|] eqn:Hw.
    + left. by rewrite (declareWinner_settled _ _ _ _ _ _ game).
    + right. exists card, userId. rewrite Hu.
      rewrite (declareWinner_state _ _ _ _ _ _ game) by done.
      split; [by left|done].
  - destruct IH as [IH|(c & u & Hc & ? & ? & ? & IH)]; [by left|].
    right. exists c, u. split; [by right|done].
  - by left.
Qed.

Lemma step_outcome sin scope BET_AMOUNT HOUSE_FEE GAME_DURATION
    MAX_CARDS_PER_PLAYER s s' :
  engine_inv s →
  step sin scope BET_AMOUNT HOUSE_FEE GAME_DURATION MAX_CARDS_PER_PLAYER s s' →
  outcome sin scope BET_AMOUNT HOUSE_FEE GAME_DURATION MAX_CARDS_PER_PLAYER s s'.
Proof.
  intros Hinv Hstep. destruct Hstep as [s newId now Hfresh|s gameId userId
    |s gameId userId cardNumber now
    |s gameId retrieved newId random now Hfresh Hperm Hrandom
    |s gameId retrieved now Hperm].
  - rewrite createNewGame_run. by apply outcome_created.
  - rewrite joinGame_state. apply outcome_none.
  - destruct (purchaseCard_cases scope s gameId userId cardNumber now)
      as [[e ->]|(game & place & card & user & Hw & Hst & Hc & Hu & Hb)];
      [apply outcome_none|].
    rewrite (purchaseCard_run _ _ _ _ _ _ game place card user) by done.
    rewrite purchase_from_written.
    pose proof (outcome_purchased sin scope BET_AMOUNT HOUSE_FEE GAME_DURATION
                  MAX_CARDS_PER_PLAYER s gameId userId cardNumber now game
                  place card user Hw Hst Hc Hu Hb) as Hout.
    unfold purchased in Hout.
    by destruct (bool_decide ("Transaction" ∈ scope)).
  - destruct (waitingGames s !! gameId) as [game|] eqn:Hw;
      [|rewrite startGame_none by done; apply outcome_none].
    destruct (decide (count_purchased s gameId < 1)) as [Hc|Hc].
    + rewrite (startGame_cancel _ _ _ _ _ _ _ _ _ _ _ _ game) by done.
      assert (Hnil : retrieved = []).
      { apply Permutation_nil_r. rewrite Hperm.
        rewrite (nil_length_inv (purchased_cards s gameId)); [done|].
        unfold count_purchased in Hc. lia. }
      rewrite (cancelGame_eq _ _ _ _ _ _ _ _ _ _ _ game) by done.
      subst retrieved.
      apply (outcome_cancelled sin scope BET_AMOUNT HOUSE_FEE GAME_DURATION
               MAX_CARDS_PER_PLAYER s gameId newId now game); [done|lia|done].
    + rewrite (startGame_active _ _ _ _ _ _ _ _ _ _ _ _ game) by (done || lia).
      apply outcome_activated; [done|lia|done].
  - destruct (callIntervals s !! gameId) as [caller|] eqn:Hc;
      [|rewrite tick_no_interval by done; apply outcome_none].
    destruct (activeGames s !! gameId) as [game|] eqn:Ha.
    2:{ rewrite (tick_not_active _ _ _ _ _ caller) by done.
        by eapply outcome_caller_removed. }
    destruct (tick_stops caller game now) eqn:Hstop.
    { rewrite (tick_stop _ _ _ _ _ caller game) by done.
      rewrite endGame_run. simpl. rewrite Ha.
      by eapply outcome_ended. }
    destruct (caller_next_draw s gameId caller game now Hinv Hc Ha Hstop)
      as (d & Hd & _).
    rewrite (tick_push _ _ _ _ _ caller game d) by done.
    set (called := called_numbers game ++ [with_called d]).
    assert (Ha' : activeGames (pushed s gameId caller game d) !! gameId
                  = Some (with_calls called (last_three called) game)).
    { unfold pushed. simpl. by rewrite lookup_alter_eq, Ha. }
    assert (Hsome : Forall (λ c, is_Some (user_id c)) retrieved).
    { apply Forall_forall. intros c Hin. rewrite Hperm in Hin.
      by apply list_elem_of_filter in Hin as [[_ ?] _]. }
    unfold checkForWinners. 
    destruct (sweep_outcome scope gameId _ retrieved now
                (pushed s gameId caller game d) Ha' Hsome)
      as [Hsame|(card & userId & Hin & Hu & Hw & Hcheck & Hdecl)].
    + unfold try_log in *. unfold bind at 1, get. cbv beta iota.
      rewrite Ha'. rewrite Hsame. by eapply outcome_called.
    + unfold try_log in *. unfold bind at 1, get. cbv beta iota.
      rewrite Ha'. rewrite Hdecl.
      eapply (outcome_won sin scope BET_AMOUNT HOUSE_FEE GAME_DURATION
                MAX_CARDS_PER_PLAYER s gameId caller game now d card userId);
        try done.
      by rewrite <-Hperm.
Qed.

(** ** Induction over the runs, by the outcomes of the steps *)

Lemma runs_ind sin scope BET_AMOUNT HOUSE_FEE GAME_DURATION
    MAX_CARDS_PER_PLAYER (P : State → Prop) users :
  P (initial_state users) →
  (∀ s s', engine_inv s → P s →
     outcome sin scope BET_AMOUNT HOUSE_FEE GAME_DURATION MAX_CARDS_PER_PLAYER
             s s' → P s') →
  ∀ s, rtc (step sin scope BET_AMOUNT HOUSE_FEE GAME_DURATION
              MAX_CARDS_PER_PLAYER) (initial_state users) s → P s.
Proof.
  intros Hinit Hstep s Hrun.
  assert (engine_inv s ∧ P s) as [_ ?]; [|done].
  revert s Hrun.
  apply (rtc_ind_r (λ s, engine_inv s ∧ P s) (initial_state users)).
  - split; [apply engine_inv_initial|done].
  - intros s1 s2 _ Hs [Hinv HP]. split; [by eapply engine_inv_step|].
    eapply Hstep; [done..|]. by apply step_outcome.
Qed.

Lemma reachable_ind sin scope BET_AMOUNT HOUSE_FEE GAME_DURATION
    MAX_CARDS_PER_PLAYER (P : State → Prop) :
  (∀ users, P (initial_state users)) →
  (∀ s s', engine_inv s → P s →
     outcome sin scope BET_AMOUNT HOUSE_FEE GAME_DURATION MAX_CARDS_PER_PLAYER
             s s' → P s') →
  ∀ s, reachable sin scope BET_AMOUNT HOUSE_FEE GAME_DURATION
         MAX_CARDS_PER_PLAYER s → P s.
Proof.
  intros Hinit Hstep s [users Hrun]. by eapply runs_ind.
Qed.

(** ** The ledger *)

Lemma outcome_ledger sin scope BET_AMOUNT HOUSE_FEE GAME_DURATION
    MAX_CARDS_PER_PLAYER s s' :
  outcome sin scope BET_AMOUNT HOUSE_FEE GAME_DURATION MAX_CARDS_PER_PLAYER
          s s' →
  Transaction_table s' = Transaction_table s
  ∨ "Transaction" ∈ scope
    ∧ ∃ t, Transaction_table s' = Transaction_table s ++ [t]
           ∧ (tx_type t = bet ∨ tx_type t = win).
Proof.
  destruct 1; try by left.
  - unfold purchased. case_bool_decide; [|by left].
    right. split; [done|]. eexists. split; [reflexivity|]. by left.
  - unfold declared. case_bool_decide; [|by left].
    right. split; [done|]. eexists.
    split; [by case_bool_decide|]. by right.
Qed.

(** X5.  The ledger is append-only.  A step of the engine, from a state it
    can reach, leaves the recorded transactions as they are or appends one,
    a Bet or a Win; no Refund is recorded in any run (a round is only
    cancelled without purchased cards); and where [Transaction] is not
    bound, as in the module, nothing is ever recorded. *)
Theorem ledger_append_only sin scope BET_AMOUNT HOUSE_FEE GAME_DURATION
    MAX_CARDS_PER_PLAYER s :
  reachable sin scope BET_AMOUNT HOUSE_FEE GAME_DURATION MAX_CARDS_PER_PLAYER s →
  (∀ s', step sin scope BET_AMOUNT HOUSE_FEE GAME_DURATION MAX_CARDS_PER_PLAYER
              s s' →
         Transaction_table s' = Transaction_table s
         ∨ ∃ t, Transaction_table s' = Transaction_table s ++ [t])
  ∧ (∀ t, t ∈ Transaction_table s → tx_type t ≠ refund)
  ∧ ("Transaction" ∉ scope → Transaction_table s = []).
Proof.
  intros Hreach. split; [|split].
  - intros s' Hstep. apply reachable_inv in Hreach.
    destruct (outcome_ledger _ _ _ _ _ _ _ _ (step_outcome _ _ _ _ _ _ _ _
                Hreach Hstep)) as [?|(_ & t & ? & _)]; [by left|].
    right. by exists t.
  - revert s Hreach.
    apply (reachable_ind _ _ _ _ _ _
             (λ s, ∀ t, t ∈ Transaction_table s → tx_type t ≠ refund)).
    + intros users t Hin. by apply elem_of_nil in Hin.
    + intros s s' _ IH Hout t Hin.
      destruct (outcome_ledger _ _ _ _ _ _ _ _ Hout)
        as [Heq|(_ & t' & Heq & Hty)]; rewrite Heq in Hin; [by apply IH|].
      apply elem_of_app in Hin as [Hin|Hin]; [by apply IH|].
      apply list_elem_of_singleton in Hin as ->.
      destruct Hty as [-> | ->]; done.
  - intros Hscope. revert s Hreach.
    apply (reachable_ind _ _ _ _ _ _ (λ s, Transaction_table s = [])); [done|].
    intros s s' _ IH Hout.
    destruct (outcome_ledger _ _ _ _ _ _ _ _ Hout) as [->|[? _]]; done.
Qed.

Lemma ledger_append_only_witness :
  Transaction_table run_started = [].
Proof.
  apply (ledger_append_only (λ q, q) source_scope 10 (5 # 100) 180 5
           run_started run_started_reachable).
  exact Transaction_unbound.
Defined.

(** ** The status of a round *)













(** ** The current calls *)

Lemma all_rows_alter {A} (P : A → Prop) (table : gmap string A) g'
    (patch : A → A) :
  (∀ row, P row → P (patch row)) →
  (∀ g row, table !! g = Some row → P row) →
  ∀ g row, alter patch g' table !! g = Some row → P row.
Proof.
  intros Hpatch Hall g row. rewrite lookup_alter.
  destruct (decide (g' = g)) as [->|]; [|apply Hall].
  destruct (table !! g) as [row0|] eqn:Hrow; [|done].
  intros [= <-]. eapply Hpatch, Hall, Hrow.
Qed.

Lemma all_rows_insert {A} (P : A → Prop) (table : gmap string A) g' row' :
  P row' →
  (∀ g row, table !! g = Some row → P row) →
  ∀ g row, <[g' := row']> table !! g = Some row → P row.
Proof.
  intros Hrow' Hall g row. rewrite lookup_insert.
  destruct (decide (g' = g)) as [->|]; [by intros [= <-]|apply Hall].
Qed.

Lemma all_rows_delete {A} (P : A → Prop) (table : gmap string A) g' :
  (∀ g row, table !! g = Some row → P row) →
  ∀ g row, delete g' table !! g = Some row → P row.
Proof.
  intros Hall g row. rewrite lookup_delete.
  destruct (decide (g' = g)) as [->|]; [done|apply Hall].
Qed.

Lemma calls_inv_outcome sin scope BET_AMOUNT HOUSE_FEE GAME_DURATION
    MAX_CARDS_PER_PLAYER s s' :
  calls_inv s →
  outcome sin scope BET_AMOUNT HOUSE_FEE GAME_DURATION MAX_CARDS_PER_PLAYER
          s s' →
  calls_inv s'.
Proof.
  intros [Hrow Hwait Hact] Hout.
  destruct Hout as [|newId now Hfresh
    |gameId userId cardNumber now game place card user Hw Hst Hc Hu Hb
    |gameId newId now game Hw Hcount Hfresh
    |gameId random now game Hw Hcount Hrandom
    |gameId caller Hc Ha
    |gameId caller game now Hc Ha Hstop
    |gameId caller game now d Hc Ha Hstop Hd
    |gameId caller game now d card userId Hc Ha Hstop Hd Hwin Hin Hu Hcheck].
  - by split.
  - split; simpl; [by apply all_rows_insert|by apply all_rows_insert|done].
  - unfold purchased. case_bool_decide; split; simpl;
      first [done
            | by apply (all_rows_alter
                          (λ r, current_calls r = last_three (called_numbers r)))
            | apply (all_rows_insert
                       (λ r, current_calls r = last_three (called_numbers r)));
              [simpl; by eapply Hwait|done] ].
  - split; simpl.
    + apply all_rows_insert; [done|].
      by apply (all_rows_alter
                  (λ r, current_calls r = last_three (called_numbers r))).
    + apply all_rows_insert; [done|]. by apply all_rows_delete.
    + done.
  - split; simpl.
    + by apply (all_rows_alter
                  (λ r, current_calls r = last_three (called_numbers r))).
    + by apply all_rows_delete.
    + apply (all_rows_insert
               (λ r, current_calls r = last_three (called_numbers r)));
        [simpl; by eapply Hwait|done].
  - by split.
  - split; simpl.
    + by apply (all_rows_alter
                  (λ r, current_calls r = last_three (called_numbers r))).
    + done.
    + by apply all_rows_delete.
  - split; simpl.
    + by apply (all_rows_alter
                  (λ r, current_calls r = last_three (called_numbers r))).
    + done.
    + by apply (all_rows_alter
                  (λ r, current_calls r = last_three (called_numbers r))).
  - unfold declared. case_bool_decide; [case_bool_decide|]; split; simpl;
      repeat first
        [ done
        | apply (all_rows_delete
                   (λ r, current_calls r = last_three (called_numbers r)))
        | apply (all_rows_alter
                   (λ r, current_calls r = last_three (called_numbers r)));
          [done|] ].
Qed.

(** X8.  In every state the engine can reach, the current calls of a round,
    in its row and in memory, are the last three of its called numbers (all
    of them while fewer than three were called). *)
Theorem current_calls_last_three sin scope BET_AMOUNT HOUSE_FEE GAME_DURATION
    MAX_CARDS_PER_PLAYER s g game :
  reachable sin scope BET_AMOUNT HOUSE_FEE GAME_DURATION MAX_CARDS_PER_PLAYER s →
  Game_table s !! g = Some game ∨ waitingGames s !! g = Some game
  ∨ activeGames s !! g = Some game →
  current_calls game
  = drop (length (called_numbers game) - 3) (called_numbers game).
Proof.
  intros Hreach Hgame.
  assert (calls_inv s) as [Hrow Hwait Hact].
  { clear Hgame. revert s Hreach. apply (reachable_ind _ _ _ _ _ _ calls_inv).
    - intros users. split; intros g' r H; simpl in H;
        by rewrite lookup_empty in H.
    - intros s s' _ IH Hout. by eapply calls_inv_outcome. }
  destruct Hgame as [H|[H|H]]; [by eapply Hrow|by eapply Hwait|by eapply Hact].
Qed.

(** ** The cards *)

(** What a step does to the cards table, and which rows the games table
    has after it. *)
Lemma outcome_card_table sin scope BET_AMOUNT HOUSE_FEE GAME_DURATION
    MAX_CARDS_PER_PLAYER s s' :
  outcome sin scope BET_AMOUNT HOUSE_FEE GAME_DURATION MAX_CARDS_PER_PLAYER
          s s' →
  (∃ newId, Game_table s !! newId = None
     ∧ Card_table s' = Card_table s ++ new_cards sin newId
     ∧ ∀ g, is_Some (Game_table s' !! g)
            ↔ newId = g ∨ is_Some (Game_table s !! g))
  ∨ ((∀ g, is_Some (Game_table s' !! g) ↔ is_Some (Game_table s !! g))
     ∧ (Card_table s' = Card_table s
        ∨ (∃ gameId userId cardNumber place card now,
             is_Some (waitingGames s !! gameId)
             ∧ find_free_card s gameId cardNumber = Some (place, card)
             ∧ Card_table s' = <[place := with_owner userId now card]>
                                 (Card_table s))
        ∨ (∃ gameId cardNumber,
             Card_table s'
             = (λ c, if bool_decide (card_game_id c = gameId
                                     ∧ card_number c = cardNumber)
                     then with_is_winner c else c) <$> Card_table s))).
Proof.
  destruct 1 as [|newId now Hfresh
    |gameId userId cardNumber now game place card user Hw Hst Hc Hu Hb
    |gameId newId now game Hw Hcount Hfresh
    |gameId random now game Hw Hcount Hrandom
    |gameId caller Hc Ha
    |gameId caller game now Hc Ha Hstop
    |gameId caller game now d Hc Ha Hstop Hd
    |gameId caller game now d card userId Hc Ha Hstop Hd Hwin Hin Hu Hcheck].
  - right. split; [done|by left].
  - left. exists newId. split; [done|]. split; [done|].
    intros g. simpl. apply lookup_insert_is_Some'.
  - right. split.
    + intros g. unfold purchased. case_bool_decide; simpl;
        apply lookup_alter_is_Some.
    + right; left. exists gameId, userId, cardNumber, place, card, now.
      split; [by eexists|]. split; [done|].
      unfold purchased. by case_bool_decide.
  - left. exists newId. split; [done|]. split; [done|].
    intros g. simpl. rewrite lookup_insert_is_Some', lookup_alter_is_Some.
    done.
  - right. split; [|by left]. intros g. simpl. apply lookup_alter_is_Some.
  - right. split; [done|by left].
  - right. split; [|by left]. intros g. simpl. apply lookup_alter_is_Some.
  - right. split; [|by left]. intros g. simpl. apply lookup_alter_is_Some.
  - right. split.
    + intros g. unfold declared.
      case_bool_decide; [case_bool_decide|]; simpl;
        by rewrite !lookup_alter_is_Some.
    + right; right. exists gameId, (card_number card). unfold declared.
      by case_bool_decide; [case_bool_decide|].
Qed.

Lemma card_key_insert (cards : list Card) place card userId now :
  cards !! place = Some card →
  card_key <$> <[place := with_owner userId now card]> cards
  = card_key <$> cards.
Proof.
  intros Hplace. rewrite list_fmap_insert. apply list_insert_id.
  by rewrite list_lookup_fmap, Hplace.
Qed.

Lemma card_key_mark (cards : list Card) gameId cardNumber :
  card_key <$> ((λ c, if bool_decide (card_game_id c = gameId
                                      ∧ card_number c = cardNumber)
                      then with_is_winner c else c) <$> cards)
  = card_key <$> cards.
Proof.
  rewrite <-list_fmap_compose. apply list_fmap_ext.
  intros i c _. simpl. by case_bool_decide.
Qed.

Lemma filter_key_fmap (g : string) (cards : list Card) :
  card_number <$> filter (λ c, card_game_id c = g) cards
  = snd <$> filter (λ k, k.1 = g) (card_key <$> cards).
Proof.
  induction cards as [|c cards IH]; [done|].
  rewrite fmap_cons, !filter_cons. simpl.
  destruct (decide (card_game_id c = g)); simpl; [f_equal|]; exact IH.
Qed.

Lemma filter_all {A} (P : A → Prop) `{∀ x, Decision (P x)} (l : list A) :
  Forall P l → filter P l = l.
Proof.
  induction 1 as [|x l Hx _ IH]; [done|].
  rewrite filter_cons. destruct (decide (P x)); [by rewrite IH|done].
Qed.

Lemma new_cards_keys sin newId :
  card_key <$> new_cards sin newId = (λ n, (newId, n)) <$> seq 1 400.
Proof. unfold new_cards. by rewrite <-list_fmap_compose. Qed.

Lemma cards_inv_outcome sin scope BET_AMOUNT HOUSE_FEE GAME_DURATION
    MAX_CARDS_PER_PLAYER s s' :
  engine_inv s → cards_inv s →
  outcome sin scope BET_AMOUNT HOUSE_FEE GAME_DURATION MAX_CARDS_PER_PLAYER
          s s' →
  cards_inv s'.
Proof.
  intros Hinv [Hnd Hfull] Hout.
  assert (Hsame : (∀ g, is_Some (Game_table s' !! g)
                        ↔ is_Some (Game_table s !! g)) →
                  card_key <$> Card_table s' = card_key <$> Card_table s →
                  cards_inv s').
  { intros Hdom Hkeys. split; [by rewrite Hkeys|].
    intros g Hg. unfold cards_of. rewrite filter_key_fmap, Hkeys.
    rewrite <-filter_key_fmap. apply Hfull. by apply Hdom. }
  destruct (outcome_card_table _ _ _ _ _ _ _ _ Hout)
    as [(newId & Hfresh & Hcards & Hdom)
       |[Hdom [Hcards
              |[(gameId & userId & cardNumber & place & card & now & _ & Hc
                 & Hcards)
               |(gameId & cardNumber & Hcards)]]]].
  - assert (Hold : ∀ c, c ∈ Card_table s → card_game_id c ≠ newId).
    { intros c Hc Heq. apply (inv_card_row _ Hinv) in Hc as [row Hrow].
      congruence. }
    split.
    + rewrite Hcards, fmap_app, new_cards_keys. apply NoDup_app.
      split; [done|]. split.
      * intros k (c & -> & Hc)%list_elem_of_fmap
               (n & [= Hg _] & _)%list_elem_of_fmap.
        by apply (Hold c).
      * apply NoDup_fmap_2; [by intros ?? [=]|apply NoDup_seq].
    + intros g Hg. unfold cards_of. rewrite Hcards, filter_app, fmap_app.
      destruct (decide (newId = g)) as [<-|Hne].
      * rewrite (filter_none _ (Card_table s)).
        2:{ apply Forall_forall. intros c Hc. by apply Hold. }
        rewrite fmap_nil, app_nil_l, filter_key_fmap, new_cards_keys.
        generalize (seq 1 400). intros ns.
        rewrite filter_all by (apply Forall_fmap, Forall_forall; by intros).
        rewrite <-list_fmap_compose. apply list_fmap_id.
      * rewrite (filter_none _ (new_cards sin newId)).
        2:{ apply Forall_fmap, Forall_forall. intros n _. done. }
        rewrite fmap_nil, app_nil_r. apply Hfull.
        apply Hdom in Hg as [?|?]; done.
  - apply Hsame; [done|by rewrite Hcards].
  - apply Hsame; [done|]. rewrite Hcards.
    apply card_key_insert. by apply find_free_card_Some in Hc as [? _].
  - apply Hsame; [done|]. rewrite Hcards. apply card_key_mark.
Qed.

(** X9.  In every state the engine can reach no two cards of the table
    share round and number, and every round that has a row has exactly the
    cards numbered 1 to 400. *)
Theorem cards_unique_and_complete sin scope BET_AMOUNT HOUSE_FEE GAME_DURATION
    MAX_CARDS_PER_PLAYER s :
  reachable sin scope BET_AMOUNT HOUSE_FEE GAME_DURATION MAX_CARDS_PER_PLAYER s →
  (∀ i j c1 c2, Card_table s !! i = Some c1 → Card_table s !! j = Some c2 →
     card_game_id c1 = card_game_id c2 → card_number c1 = card_number c2 →
     i = j)
  ∧ (∀ g, is_Some (Game_table s !! g) →
       card_number <$> cards_of s g = seq 1 400).
Proof.
  intros Hreach.
  assert (cards_inv s) as [Hnd Hfull].
  { revert s Hreach. apply (reachable_ind _ _ _ _ _ _ cards_inv).
    - intros users. split; [apply NoDup_nil_2|].
      intros g [row Hrow]. simpl in Hrow. by rewrite lookup_empty in Hrow.
    - intros s s' Hinv IH Hout. by eapply cards_inv_outcome. }
  split; [|done].
  intros i j c1 c2 H1 H2 Hg Hn.
  eapply (NoDup_lookup _ _ _ (card_key c1) Hnd).
  - by rewrite list_lookup_fmap, H1.
  - rewrite list_lookup_fmap, H2. unfold card_key. simpl. by rewrite Hg, Hn.
Qed.


(** ** The numbers that are called *)

Lemma all_rows_alter' {A} (P : A → Prop) (table : gmap string A) g'
    (patch : A → A) :
  (∀ row, table !! g' = Some row → P row → P (patch row)) →
  (∀ g row, table !! g = Some row → P row) →
  ∀ g row, alter patch g' table !! g = Some row → P row.
Proof.
  intros Hpatch Hall g row. rewrite lookup_alter.
  destruct (decide (g' = g)) as [->|]; [|apply Hall].
  destruct (table !! g) as [row0|] eqn:Hrow; [|done].
  intros [= <-]. apply Hpatch; [done|]. eapply Hall, Hrow.
Qed.

Lemma draws_inv_outcome sin scope BET_AMOUNT HOUSE_FEE GAME_DURATION
    MAX_CARDS_PER_PLAYER s s' :
  engine_inv s → draws_inv s →
  outcome sin scope BET_AMOUNT HOUSE_FEE GAME_DURATION MAX_CARDS_PER_PLAYER
          s s' →
  draws_inv s'.
Proof.
  intros Hinv [Hcaller Hrow] Hout.
  set (P := λ row : Game,
              draw_id <$> called_numbers row ⊆ draw_id <$> all_numbers).
  assert (Hpushed : ∀ gameId caller game d,
    callIntervals s !! gameId = Some caller →
    activeGames s !! gameId = Some game →
    array_get (allNumbers caller) (KIndex (numberIndex caller)) = Some d →
    draws_inv (pushed s gameId caller game d)).
  { intros gameId caller game d Hc Ha Hd.
    destruct (inv_caller _ Hinv _ _ _ Hc Ha) as [Hdef Hnd Hcalled].
    destruct (inv_active_row _ Hinv _ _ Ha) as [row Hrow'].
    assert (Hitem : items (allNumbers caller) !! numberIndex caller
                    = Some (Some d)).
    { simpl in Hd. destruct (items (allNumbers caller) !! numberIndex caller)
        as [[d0|]|]; simpl in Hd; congruence. }
    assert (Hlt : (numberIndex caller <? length (items (allNumbers caller)))
                  = true).
    { apply Nat.ltb_lt. by eapply lookup_lt_Some. }
    assert (Hd_in : draw_id d ∈ draw_id <$> all_numbers).
    { rewrite <-(Hcaller _ _ Hc). unfold caller_draws.
      apply list_elem_of_fmap. exists d. split; [done|].
      apply list_elem_of_omap. exists (Some d).
      split; [by eapply list_elem_of_lookup_2|done]. }
    split; simpl.
    - intros g caller'. rewrite lookup_insert.
      destruct (decide (gameId = g)) as [<-|]; [|apply Hcaller].
      intros [= <-]. unfold caller_draws. simpl. rewrite Hlt.
      rewrite caller_draws_set by done. by apply (Hcaller gameId).
    - apply (all_rows_alter' P).
      + intros row0 Hrow0 _. unfold P. simpl. rewrite fmap_app.
        intros x [Hx|Hx]%elem_of_app.
        * destruct (inv_row _ Hinv gameId game row0 (or_intror Ha) Hrow0)
            as [_ Hsame].
          apply (Hrow gameId row0 Hrow0). by rewrite Hsame.
        * simpl in Hx. apply list_elem_of_singleton in Hx as ->. done.
      + done. }
  destruct Hout as [|newId now Hfresh
    |gameId userId cardNumber now game place card user Hw Hst Hc Hu Hb
    |gameId newId now game Hw Hcount Hfresh
    |gameId random now game Hw Hcount Hrandom
    |gameId caller Hc Ha
    |gameId caller game now Hc Ha Hstop
    |gameId caller game now d Hc Ha Hstop Hd
    |gameId caller game now d card userId Hc Ha Hstop Hd Hwin Hin Hu Hcheck].
  - by split.
  - split; simpl; [done|]. apply (all_rows_insert P); [|done].
    unfold P. simpl. by intros x Hx%elem_of_nil.
  - unfold purchased. case_bool_decide; split; simpl;
      first [done|by apply (all_rows_alter P)].
  - split; simpl; [done|]. apply (all_rows_insert P).
    + unfold P. simpl. by intros x Hx%elem_of_nil.
    + by apply (all_rows_alter P).
  - split; simpl; [|by apply (all_rows_alter P)].
    intros g caller. rewrite lookup_insert.
    destruct (decide (gameId = g)) as [<-|]; [|apply Hcaller].
    intros [= <-]. unfold caller_draws. simpl.
    destruct (Math_random_shuffle random Hrandom) as [_ Hperm].
    by rewrite Hperm.
  - split; simpl; [by apply all_rows_delete|done].
  - split; simpl; [by apply all_rows_delete|by apply (all_rows_alter P)].
  - by eapply Hpushed.
  - destruct (Hpushed gameId caller game d Hc Ha Hd) as [Hc' Hr'].
    unfold declared. case_bool_decide; [case_bool_decide|]; split; simpl;
      first [exact Hc'|by apply (all_rows_alter P)].
Qed.

Lemma reachable_draws_inv sin scope BET_AMOUNT HOUSE_FEE GAME_DURATION
    MAX_CARDS_PER_PLAYER s :
  reachable sin scope BET_AMOUNT HOUSE_FEE GAME_DURATION MAX_CARDS_PER_PLAYER s →
  draws_inv s.
Proof.
  revert s. apply (reachable_ind _ _ _ _ _ _ draws_inv).
  - intros users. split; intros g x H; simpl in H; by rewrite lookup_empty in H.
  - intros s s' Hinv IH Hout. by eapply draws_inv_outcome.
Qed.

Lemma all_numbers_bingo (d : Draw) :
  draw_id d ∈ draw_id <$> all_numbers → bingo_number d.
Proof.
  intros (d' & Hid & Hd')%list_elem_of_fmap. injection Hid as Hl Hn.
  unfold all_numbers in Hd'.
  apply list_elem_of_bind in Hd' as ([l [start end_]] & Hd' & Hr).
  apply list_elem_of_fmap in Hd' as (n & -> & Hn'%elem_of_seq).
  simpl in *. exists start, end_. rewrite Hl, Hn. split; [done|].
  unfold ranges in Hr. rewrite !elem_of_cons, elem_of_nil in Hr.
  destruct Hr as [Hr|[Hr|[Hr|[Hr|[Hr|[]]]]]]; injection Hr as -> -> ->; lia.
Qed.

Lemma all_numbers_length : length (draw_id <$> all_numbers) = 75.
Proof. reflexivity. Qed.

(** X11.  Every number a round has called, in any state the engine can
    reach, is one of the numbers of the game, with the letter of its range
    (B 1 to 15, I 16 to 30, N 31 to 45, G 46 to 60, O 61 to 75), and a
    round calls at most 75 numbers. *)
Theorem called_numbers_are_bingo_numbers sin scope BET_AMOUNT HOUSE_FEE
    GAME_DURATION MAX_CARDS_PER_PLAYER s g row :
  reachable sin scope BET_AMOUNT HOUSE_FEE GAME_DURATION MAX_CARDS_PER_PLAYER s →
  Game_table s !! g = Some row →
  Forall bingo_number (called_numbers row)
  ∧ length (called_numbers row) ≤ 75.
Proof.
  intros Hreach Hrow.
  pose proof (reachable_draws_inv _ _ _ _ _ _ _ Hreach) as [_ Hrows].
  pose proof (reachable_inv _ _ _ _ _ _ _ Hreach) as Hinv.
  specialize (Hrows g row Hrow). split.
  - apply Forall_forall. intros d Hd. apply all_numbers_bingo, Hrows.
    apply list_elem_of_fmap. by exists d.
  - rewrite <-all_numbers_length, <-(length_fmap draw_id (called_numbers row)).
    apply submseteq_length, NoDup_submseteq; [|done].
    by apply (inv_called_NoDup _ Hinv g).
Qed.

(** X12.  In a state the engine can reach, the caller of an active round
    stops exactly when the duration of the round is over or its 75 numbers
    are called; the tick that finds it so ends the round: the caller is
    removed, the round leaves the active map, its row is completed, and
    nobody is paid. *)
Theorem caller_stops_after_75 sin scope BET_AMOUNT HOUSE_FEE GAME_DURATION
    MAX_CARDS_PER_PLAYER s g caller game retrieved now :
  reachable sin scope BET_AMOUNT HOUSE_FEE GAME_DURATION MAX_CARDS_PER_PLAYER s →
  callIntervals s !! g = Some caller →
  activeGames s !! g = Some game →
  (tick_stops caller game now = true
   ↔ (game_duration (settings game) * 1000 < now - startTime caller)%Z
     ∨ length (called_numbers game) = 75)
  ∧ (tick_stops caller game now = true →
     (tick scope g retrieved now s).1
     = ended (set_callIntervals (delete g) s) g now).
Proof.
  intros Hreach Hc Ha.
  pose proof (reachable_draws_inv _ _ _ _ _ _ _ Hreach) as [Hcallers _].
  pose proof (reachable_inv _ _ _ _ _ _ _ Hreach) as Hinv.
  destruct (inv_caller _ Hinv _ _ _ Hc Ha) as [Hdef Hnd Hcalled].
  assert (Hlen : length (items (allNumbers caller)) = 75).
  { rewrite (all_defined _ Hdef), length_fmap.
    rewrite <-(length_fmap draw_id). fold (caller_draws caller).
    by rewrite (Hcallers _ _ Hc). }
  assert (Hcount : length (called_numbers game)
                   = numberIndex caller `min` 75).
  { rewrite <-(length_fmap draw_id), Hcalled, length_take.
    unfold caller_draws. rewrite length_fmap.
    rewrite (all_defined _ Hdef), length_fmap in Hlen. by rewrite Hlen. }
  split.
  - unfold tick_stops. rewrite orb_true_iff, Z.ltb_lt, Nat.leb_le, Hlen. lia.
  - intros Hstop. rewrite (tick_stop _ _ _ _ _ caller game) by done.
    rewrite endGame_run. simpl. by rewrite Ha.
Qed.

(** ** The balances *)




(** ** Single operations *)

(** X14.  A purchase that throws anything but the ReferenceError of the
    unbound [Transaction] has written nothing: the state is as before, and
    the error is one of the three rejections of [purchaseCard] or the
    TypeError of a participant without a row. *)
Theorem purchaseCard_rejection_keeps_state scope gameId userId cardNumber
    now s e :
  (purchaseCard scope gameId userId cardNumber now s).2 = inl e →
  (∀ name, e ≠ ReferenceError name) →
  (purchaseCard scope gameId userId cardNumber now s).1 = s
  ∧ (e = Error "Game not available for card purchase"
     ∨ e = Error "Card not available"
     ∨ e = Error "Insufficient balance"
     ∨ e = TypeError "Cannot read properties of null").
Proof.
  intros He Hne.
  destruct (waitingGames s !! gameId) as [game|] eqn:Hw.
  2:{ assert (purchaseCard scope gameId userId cardNumber now s
              = (s, inl (Error "Game not available for card purchase")))
        as Hrun.
      { unfold purchaseCard, try_rethrow, bind at 1, get. by rewrite Hw. }
      rewrite Hrun in He |- *. injection He as <-. split; [done|by left]. }
  destruct (decide (game_status game = waiting)) as [Hst|Hst].
  2:{ assert (purchaseCard scope gameId userId cardNumber now s
              = (s, inl (Error "Game not available for card purchase")))
        as Hrun.
      { unfold purchaseCard, try_rethrow, bind at 1, get.
        by rewrite Hw, bool_decide_eq_false_2 by done. }
      rewrite Hrun in He |- *. injection He as <-. split; [done|by left]. }
  destruct (find_free_card s gameId cardNumber) as [[place card]|] eqn:Hc.
  2:{ assert (purchaseCard scope gameId userId cardNumber now s
              = (s, inl (Error "Card not available"))) as Hrun.
      { unfold purchaseCard, try_rethrow, bind at 1, get.
        by rewrite Hw, bool_decide_eq_true_2, Hc by done. }
      rewrite Hrun in He |- *. injection He as <-.
      split; [done|right; by left]. }
  destruct (User_table s !! userId) as [user|] eqn:Hu.
  2:{ assert (purchaseCard scope gameId userId cardNumber now s
              = (s, inl (TypeError "Cannot read properties of null")))
        as Hrun.
      { unfold purchaseCard, try_rethrow, bind at 1, get.
        by rewrite Hw, bool_decide_eq_true_2, Hc, Hu by done. }
      rewrite Hrun in He |- *. injection He as <-.
      split; [done|right; right; by right]. }
  destruct (Qlt_le_dec (balance user) (bet_amount (settings game)))
    as [Hlt|Hle].
  { assert (purchaseCard scope gameId userId cardNumber now s
            = (s, inl (Error "Insufficient balance"))) as Hrun.
    { unfold purchaseCard, try_rethrow, bind at 1, get.
      rewrite Hw, bool_decide_eq_true_2, Hc, Hu by done. cbn [negb].
      destruct (Qlt_le_dec _ _) as [_|Hle]; [done|].
      exfalso. by apply (Qlt_not_le _ _ Hlt). }
    rewrite Hrun in He |- *. injection He as <-.
    split; [done|right; right; by left]. }
  exfalso. revert He.
  rewrite (purchaseCard_run _ _ _ _ _ _ game place card user) by done.
  rewrite purchase_from_written. case_bool_decide; simpl; [done|].
  intros [= <-]. by eapply Hne.
Qed.

Lemma purchaseCard_rejection_keeps_state_witness :
  purchaseCard source_scope sample_uuid "holder" 3 9000 capped_state
  = (capped_state, inl (Error "Card not available")).
Proof.
  assert (He : (purchaseCard source_scope sample_uuid "holder" 3 9000
                  capped_state).2 = inl (Error "Card not available"))
    by (by vm_compute).
  destruct (purchaseCard_rejection_keeps_state source_scope sample_uuid
              "holder" 3 9000 capped_state _ He) as [Hs _]; [done|].
  destruct (purchaseCard source_scope sample_uuid "holder" 3 9000 capped_state)
    as [s' r]. simpl in *. by subst.
Defined.

(** X15.  Where [Transaction] is bound, a winner is paid once:
    [declareWinner] on an active round without a winner, for a participant
    with a row, records the Win and takes the round out of the active map,
    and in the state it leaves every further [declareWinner], [endGame] and
    [checkForWinners] for that round changes nothing. *)
Theorem declareWinner_pays_once scope gameId userId cardNumber now s
    game user :
  "Transaction" ∈ scope →
  activeGames s !! gameId = Some game → winner_id game = None →
  User_table s !! userId = Some user →
  let s1 := (declareWinner scope gameId (Some userId) cardNumber now s).1 in
  User_table s1 !! userId = Some (credited (winnings_of game) user)
  ∧ Transaction_table s1
    = Transaction_table s
      ++ [mkTransaction (Some userId) win (winnings_of game) gameId cardNumber]
  ∧ activeGames s1 !! gameId = None
  ∧ (∀ userId' cardNumber' now',
       declareWinner scope gameId userId' cardNumber' now' s1 = (s1, inr tt))
  ∧ (∀ now', endGame gameId now' s1 = (s1, inr tt))
  ∧ (∀ retrieved now',
       checkForWinners scope gameId retrieved now' s1 = (s1, inr tt)).
Proof.
  intros Hscope Ha Hw Hu. cbv zeta.
  rewrite (declareWinner_bound _ _ _ _ _ _ game user) by done. cbn [fst].
  set (s1 := set_newGameTimeouts _ _).
  assert (Hgone : activeGames s1 !! gameId = None).
  { unfold s1. simpl. by rewrite lookup_delete_eq. }
  split; [|split; [done|split; [done|split; [|split]]]].
  - unfold s1. simpl. rewrite !lookup_alter_eq, Hu. done.
  - intros. by apply declareWinner_not_active.
  - intros now'. unfold endGame, try_log. unfold bind at 1, get.
    cbv beta iota. by rewrite Hgone.
  - intros retrieved now'. unfold checkForWinners, try_log.
    unfold bind at 1, get. cbv beta iota. by rewrite Hgone.
Qed.

Lemma declareWinner_pays_once_witness :
  let scope := "Transaction" :: source_scope in
  let s1 := (declareWinner scope sample_uuid (Some "winner") 7 9000
               (payout_state 20)).1 in
  (balance <$> User_table s1 !! "winner") = Some (20 + 100 * (1 - (5 # 100)))%Q
  ∧ declareWinner scope sample_uuid (Some "winner") 7 12000 s1 = (s1, inr tt).
Proof.
  cbv zeta.
  destruct (declareWinner_pays_once ("Transaction" :: source_scope) sample_uuid
              "winner" 7 9000 (payout_state 20) payout_game (mkUser 20 0 0 1))
    as (Hu & _ & _ & Hagain & _); [by left|reflexivity..|].
  split; [by rewrite Hu|apply Hagain].
Defined.

(** X16.  When the countdown of a waiting round ends with a purchased card,
    [startGame] makes the round active: it leaves the waiting map and
    enters the active map with status active and the start time of the
    call, its row is updated alike, and its caller starts at index 0 on an
    array that holds each of the 75 numbers once; balances, transactions
    and cards stay as they are. *)
Theorem startGame_activates sin scope BET_AMOUNT HOUSE_FEE GAME_DURATION
    MAX_CARDS_PER_PLAYER s gameId retrieved newId random now game :
  waitingGames s !! gameId = Some game →
  1 ≤ count_purchased s gameId →
  Math_random_ok random →
  let s' := (startGame sin scope BET_AMOUNT HOUSE_FEE GAME_DURATION
               MAX_CARDS_PER_PLAYER gameId retrieved newId random now s).1 in
  waitingGames s' !! gameId = None
  ∧ activeGames s' !! gameId
    = Some (with_start_time now (with_status active game))
  ∧ Game_table s'
    = alter (λ g, with_start_time now (with_status active g)) gameId
            (Game_table s)
  ∧ (∃ caller l, callIntervals s' !! gameId = Some caller
       ∧ numberIndex caller = 0 ∧ startTime caller = now
       ∧ items (allNumbers caller) = Some <$> l ∧ l ≡ₚ all_numbers)
  ∧ User_table s' = User_table s
  ∧ Transaction_table s' = Transaction_table s
  ∧ Card_table s' = Card_table s.
Proof.
  intros Hw Hcount Hrandom. cbv zeta.
  rewrite (startGame_active _ _ _ _ _ _ _ _ _ _ _ _ game) by done.
  cbn [fst]. unfold activated. simpl.
  rewrite lookup_delete_eq, !lookup_insert_eq.
  repeat split.
  destruct (Math_random_shuffle random Hrandom) as [Hdef Hperm].
  eexists _, _. split; [reflexivity|]. simpl.
  split; [done|]. split; [done|]. split; [|exact Hperm].
  by apply all_defined.
Qed.

Lemma startGame_activates_witness :
  waitingGames run_started !! sample_uuid = None
  ∧ (game_status <$> activeGames run_started !! sample_uuid) = Some active
  ∧ User_table run_started = User_table run_purchased.
Proof.
  destruct (startGame_activates (λ q, q) source_scope 10 (5 # 100) 180 5
              run_purchased sample_uuid
              (purchased_cards run_purchased sample_uuid) "next"
              (λ _, Finite 0) 30000
              (with_pot (0 + 10) (new_game 10 (5 # 100) 180 5 0)))
    as (Hw & Ha & _ & _ & Hu & _).
  - by vm_compute.
  - vm_compute. lia.
  - exact Math_random_zero.
  - fold run_started in Hw, Ha, Hu. split; [exact Hw|].
    split; [by rewrite Ha|exact Hu].
Defined.

(** ** Refunds *)

Lemma refunded_balance gameId game cards s u user :
  User_table s !! u = Some user →
  ∃ user', User_table (foldl (refunded gameId game) s cards) !! u = Some user'
    ∧ (balance user'
       == balance user
          + bet_amount (settings game)
            * inject_Z (Z.of_nat (cards_held u cards)))%Q
    ∧ total_won user' = total_won user
    ∧ games_won user' = games_won user
    ∧ games_played user' = games_played user.
Proof.
  revert s user. induction cards as [|card rest IH]; intros s user Hu.
  { exists user. split; [done|]. split; [|done].
    unfold cards_held. simpl. ring. }
  simpl. unfold cards_held. rewrite filter_cons.
  destruct (decide (user_id card = Some u)) as [Hown|Hown].
  - destruct (IH (refunded gameId game s card)
                 (add_balance (bet_amount (settings game)) user))
      as (user' & Hu' & Hbal & ? & ? & ?).
    { unfold refunded. rewrite Hown. simpl. by rewrite lookup_alter_eq, Hu. }
    exists user'. split; [done|]. split; [|done].
    rewrite Hbal. unfold cards_held. simpl length.
    rewrite Nat2Z.inj_succ, <-Z.add_1_r, inject_Z_plus. simpl. ring.
  - destruct (IH (refunded gameId game s card) user)
      as (user' & Hu' & Hbal & ? & ? & ?).
    { unfold refunded. destruct (user_id card) as [owner|]; simpl; [|done].
      rewrite lookup_alter_ne; [done|congruence]. }
    by exists user'.
Qed.

(** X17.  Where [Transaction] is bound, [cancelGame] on a waiting round
    refunds the cards it retrieves: it records one Refund of the bet amount
    per card, in the order of the cards, and the balance of each
    participant grows by the bet amount times the number of retrieved cards
    that are theirs, the other counters staying as they are. *)
Theorem cancelGame_refunds_every_card sin scope BET_AMOUNT HOUSE_FEE
    GAME_DURATION MAX_CARDS_PER_PLAYER s gameId retrieved newId now game
    u user :
  "Transaction" ∈ scope →
  waitingGames s !! gameId = Some game →
  User_table s !! u = Some user →
  let s' := (cancelGame sin scope BET_AMOUNT HOUSE_FEE GAME_DURATION
               MAX_CARDS_PER_PLAYER gameId retrieved newId now s).1 in
  Transaction_table s'
  = Transaction_table s
    ++ ((λ card, mkTransaction (user_id card) refund
                   (bet_amount (settings game)) gameId (card_number card))
        <$> retrieved)
  ∧ ∃ user', User_table s' !! u = Some user'
      ∧ (balance user'
         == balance user
            + bet_amount (settings game)
              * inject_Z (Z.of_nat (cards_held u retrieved)))%Q
      ∧ total_won user' = total_won user
      ∧ games_won user' = games_won user
      ∧ games_played user' = games_played user.
Proof.
  intros Hscope Hw Hu. cbv zeta.
  destruct (cancelGame_refunds sin scope BET_AMOUNT HOUSE_FEE GAME_DURATION
              MAX_CARDS_PER_PLAYER s gameId retrieved newId now game
              Hscope Hw) as [Htx Husers].
  split; [exact Htx|]. rewrite Husers. by apply refunded_balance.
Qed.

Lemma cancelGame_refunds_every_card_witness :
  let s' := (cancelGame (λ q, q) ("Transaction" :: source_scope) 10 (5 # 100)
               180 5 sample_uuid (purchased_cards capped_state sample_uuid)
               "next" 30000 capped_state).1 in
  length (Transaction_table s') = 5
  ∧ ∃ user', User_table s' !! "holder" = Some user'
             ∧ (balance user' == 150)%Q.
Proof.
  cbv zeta.
  destruct (cancelGame_refunds_every_card (λ q, q)
              ("Transaction" :: source_scope) 10 (5 # 100) 180 5 capped_state
              sample_uuid (purchased_cards capped_state sample_uuid) "next"
              30000 capped_game "holder" (mkUser 100 0 0 5))
    as (Htx & user' & Hu & Hbal & _); [by left|reflexivity..|].
  split.
  - rewrite Htx. by vm_compute.
  - exists user'. split; [exact Hu|]. rewrite Hbal. by vm_compute.
Defined.

(** ** Rounds the engine does not hold *)

(** X18.  For a round id that is in neither map of the engine, the
    operations driven by timers change nothing ([startGame], [cancelGame],
    [endGame], [declareWinner], [checkForWinners]; a tick only removes the
    interval), and [joinGame] and [purchaseCard] reject with their first
    error, the state as before. *)
Theorem unknown_round sin scope BET_AMOUNT HOUSE_FEE GAME_DURATION
    MAX_CARDS_PER_PLAYER s gameId :
  waitingGames s !! gameId = None → activeGames s !! gameId = None →
  (∀ retrieved newId random now,
     startGame sin scope BET_AMOUNT HOUSE_FEE GAME_DURATION
       MAX_CARDS_PER_PLAYER gameId retrieved newId random now s = (s, inr tt))
  ∧ (∀ retrieved newId now,
       cancelGame sin scope BET_AMOUNT HOUSE_FEE GAME_DURATION
         MAX_CARDS_PER_PLAYER gameId retrieved newId now s = (s, inr tt))
  ∧ (∀ now, endGame gameId now s = (s, inr tt))
  ∧ (∀ userId cardNumber now,
       declareWinner scope gameId userId cardNumber now s = (s, inr tt))
  ∧ (∀ retrieved now,
       checkForWinners scope gameId retrieved now s = (s, inr tt))
  ∧ (∀ retrieved now,
       (tick scope gameId retrieved now s).1 = s
       ∨ (tick scope gameId retrieved now s).1
         = set_callIntervals (delete gameId) s)
  ∧ (∀ userId,
       joinGame gameId userId s
       = (s, inl (Error "Game not available for joining")))
  ∧ (∀ userId cardNumber now,
       purchaseCard scope gameId userId cardNumber now s
       = (s, inl (Error "Game not available for card purchase"))).
Proof.
  intros Hw Ha. repeat split.
  - intros. by apply startGame_none.
  - intros. unfold cancelGame, try_log. unfold bind at 1, get.
    cbv beta iota. by rewrite Hw.
  - intros. unfold endGame, try_log. unfold bind at 1, get.
    cbv beta iota. by rewrite Ha.
  - intros. by apply declareWinner_not_active.
  - intros. unfold checkForWinners, try_log. unfold bind at 1, get.
    cbv beta iota. by rewrite Ha.
  - intros retrieved now.
    destruct (callIntervals s !! gameId) as [caller|] eqn:Hc.
    + right. by rewrite (tick_not_active _ _ _ _ _ caller).
    + left. by rewrite tick_no_interval.
  - intros. unfold joinGame, try_rethrow. unfold bind at 1, get.
    cbv beta iota. by rewrite Hw.
  - intros. unfold purchaseCard, try_rethrow. unfold bind at 1, get.
    cbv beta iota. by rewrite Hw.
Qed.

Lemma unknown_round_witness :
  endGame "nowhere" 5000 run_started = (run_started, inr tt).
Proof.
  destruct (unknown_round (λ q, q) source_scope 10 (5 # 100) 180 5 run_started
              "nowhere") as (_ & _ & Hend & _); [by vm_compute..|].
  apply Hend.
Defined.

(** ** The state served to the clients *)

(** X19.  In a state the engine can reach, [getGameState] changes nothing
    and serves a round exactly when the games table has a row for it; what
    it serves, from memory or from the table, has the pot and the called
    numbers of the row. *)
Theorem getGameState_agrees_with_row sin scope BET_AMOUNT HOUSE_FEE
    GAME_DURATION MAX_CARDS_PER_PLAYER s gameId :
  reachable sin scope BET_AMOUNT HOUSE_FEE GAME_DURATION MAX_CARDS_PER_PLAYER s →
  ∃ served, getGameState gameId s = (s, inr served)
    ∧ match served, Game_table s !! gameId with
      | Some game, Some row =>
          pot game = pot row ∧ called_numbers game = called_numbers row
      | None, None => True
      | _, _ => False
      end.
Proof.
  intros Hinv%reachable_inv. unfold getGameState. unfold bind at 1, get.
  cbv beta iota.
  destruct (waitingGames s !! gameId) as [game|] eqn:Hw.
  { exists (Some game). split; [done|].
    destruct (inv_waiting_row _ Hinv _ _ Hw) as [row Hrow]. rewrite Hrow.
    destruct (inv_row _ Hinv gameId game row (or_introl Hw) Hrow). done. }
  destruct (activeGames s !! gameId) as [game|] eqn:Ha.
  { exists (Some game). split; [done|].
    destruct (inv_active_row _ Hinv _ _ Ha) as [row Hrow]. rewrite Hrow.
    destruct (inv_row _ Hinv gameId game row (or_intror Ha) Hrow). done. }
  exists (Game_table s !! gameId). split; [done|].
  by destruct (Game_table s !! gameId).
Qed.

Lemma getGameState_agrees_with_row_witness :
  ∃ served, getGameState sample_uuid run_started = (run_started, inr served)
    ∧ match served, Game_table run_started !! sample_uuid with
      | Some game, Some row =>
          pot game = pot row ∧ called_numbers game = called_numbers row
      | None, None => True
      | _, _ => False
      end.
Proof.
  exact (getGameState_agrees_with_row (λ q, q) source_scope 10 (5 # 100)
           180 5 run_started sample_uuid run_started_reachable).
Defined.

(** ** Rounds that have started *)





(** ** The recorded winner *)

Lemma keyed_alter {A} (P : string → A → Prop) (table : gmap string A) g'
    (patch : A → A) :
  (∀ row, table !! g' = Some row → P g' row → P g' (patch row)) →
  (∀ g row, table !! g = Some row → P g row) →
  ∀ g row, alter patch g' table !! g = Some row → P g row.
Proof.
  intros Hpatch Hall g row. rewrite lookup_alter.
  destruct (decide (g' = g)) as [->|]; [|apply Hall].
  destruct (table !! g) as [row0|] eqn:Hrow; [|done].
  intros [= <-]. apply Hpatch; [done|]. by apply Hall.
Qed.

Lemma keyed_insert {A} (P : string → A → Prop) (table : gmap string A) g'
    row' :
  P g' row' →
  (∀ g row, table !! g = Some row → P g row) →
  ∀ g row, <[g' := row']> table !! g = Some row → P g row.
Proof.
  intros Hrow' Hall g row. rewrite lookup_insert.
  destruct (decide (g' = g)) as [->|]; [by intros [= <-]|apply Hall].
Qed.

Lemma outcome_cards_kept sin scope BET_AMOUNT HOUSE_FEE GAME_DURATION
    MAX_CARDS_PER_PLAYER s s' :
  outcome sin scope BET_AMOUNT HOUSE_FEE GAME_DURATION MAX_CARDS_PER_PLAYER
          s s' →
  cards_kept s s'
  ∧ (Forall (λ c, is_5x5 (numbers c)) (Card_table s) →
     Forall (λ c, is_5x5 (numbers c)) (Card_table s')).
Proof.
  intros Hout.
  assert (Hsame : ∀ i c, Card_table s !! i = Some c →
    ∃ c', Card_table s !! i = Some c'
      ∧ card_game_id c' = card_game_id c ∧ card_number c' = card_number c
      ∧ numbers c' = numbers c ∧ user_id c' = user_id c
      ∧ (is_winner c = true → is_winner c' = true)).
  { intros i c Hi. by exists c. }
  unfold cards_kept.
  destruct (outcome_card_table _ _ _ _ _ _ _ _ Hout)
    as [(newId & Hfresh & -> & _)
       |[_ [->
           |[(gameId & userId & cardNumber & place & card & now & _ & Hc
              & ->)
            |(gameId & cardNumber & ->)]]]].
  - split.
    + intros i c Hi _. exists c. split; [|done]. by apply lookup_app_l_Some.
    + intros Hg. apply Forall_app. split; [done|].
      apply Forall_fmap, Forall_forall. intros n _. simpl.
      apply (generateCardNumbers_grid sin n newId).
  - split; [|done]. intros i c Hi _. by apply Hsame.
  - apply find_free_card_Some in Hc as (Hplace & Hg & Hn & Hu). split.
    + intros i c Hi [u Hown].
      destruct (decide (place = i)) as [->|Hne]; [congruence|].
      exists c. split; [|done]. by rewrite list_lookup_insert_ne.
    + intros Hgrids. apply Forall_insert; [done|]. simpl.
      rewrite Forall_forall in Hgrids. apply Hgrids.
      by eapply list_elem_of_lookup_2.
  - split.
    + intros i c Hi _. eexists. split; [by rewrite list_lookup_fmap, Hi|].
      simpl. by case_bool_decide.
    + intros Hgrids. apply Forall_fmap. eapply Forall_impl; [exact Hgrids|].
      intros c Hc. simpl. by case_bool_decide.
Qed.

Lemma genuine_transport s s' g row :
  cards_kept s s' → genuine_winner s g row → genuine_winner s' g row.
Proof.
  intros Hkept Hgen u Hu.
  destruct (Hgen u Hu) as (n & i & c & Hn & Hi & Hg & Hcn & Hown & Hwin & Hcheck).
  destruct (Hkept i c Hi) as (c' & Hi' & Hg' & Hn' & Hnum & Hu' & Hw');
    [by eexists|].
  exists n, i, c'. rewrite Hnum. repeat split; try done; try congruence.
  by apply Hw'.
Qed.

Lemma genuine_patch s g row (patch : Game → Game) :
  winner_id (patch row) = winner_id row →
  winning_card (patch row) = winning_card row →
  called_numbers (patch row) = called_numbers row →
  genuine_winner s g row → genuine_winner s g (patch row).
Proof.
  intros Hw Hc Hcalled Hgen u Hu. rewrite Hw in Hu.
  destruct (Hgen u Hu) as (n & i & c & ?). exists n, i, c.
  by rewrite Hc, Hcalled.
Qed.

Lemma genuine_more_calls s g row called current :
  Forall (λ c, is_5x5 (numbers c)) (Card_table s) →
  draw_id <$> called_numbers row ⊆ draw_id <$> called →
  genuine_winner s g row → genuine_winner s g (with_calls called current row).
Proof.
  intros Hgrids Hsub Hgen u Hu. simpl in Hu.
  destruct (Hgen u Hu)
    as (n & i & c & Hn & Hi & Hg & Hcn & Hown & Hwin & Hcheck).
  exists n, i, c. repeat split; try done. simpl.
  apply (checkCardForBingo_more_calls _ (called_numbers row)); [|done..].
  rewrite Forall_forall in Hgrids. apply Hgrids.
  by eapply list_elem_of_lookup_2.
Qed.

Lemma winner_inv_outcome sin scope BET_AMOUNT HOUSE_FEE GAME_DURATION
    MAX_CARDS_PER_PLAYER s s' :
  engine_inv s → winner_inv s →
  outcome sin scope BET_AMOUNT HOUSE_FEE GAME_DURATION MAX_CARDS_PER_PLAYER
          s s' →
  winner_inv s'.
Proof.
  intros Hinv [Hrows Hgrids] Hout.
  destruct (outcome_cards_kept _ _ _ _ _ _ _ _ Hout) as [Hkept Hgrids'].
  specialize (Hgrids' Hgrids).
  assert (H1 : ∀ g row, Game_table s !! g = Some row →
                        genuine_winner s' g row).
  { intros g row Hrow. eapply genuine_transport; [done|]. by apply Hrows. }
  split; [|done].
  assert (Hpatch : ∀ (patch : Game → Game) g',
    (∀ row, winner_id (patch row) = winner_id row
            ∧ winning_card (patch row) = winning_card row
            ∧ called_numbers (patch row) = called_numbers row) →
    ∀ g row, alter patch g' (Game_table s) !! g = Some row →
             genuine_winner s' g row).
  { intros patch g' Hp. apply (keyed_alter (genuine_winner s')); [|done].
    intros row _ Hgen. destruct (Hp row) as (? & ? & ?).
    by apply genuine_patch. }
  assert (Hcalls : ∀ gameId game d,
    activeGames s !! gameId = Some game →
    ∀ g row,
      alter (with_calls (called_numbers game ++ [with_called d])
               (last_three (called_numbers game ++ [with_called d])))
            gameId (Game_table s) !! g = Some row →
      genuine_winner s' g row).
  { intros gameId game d Ha.
    apply (keyed_alter (genuine_winner s')); [|done].
    intros row Hrow Hgen. apply genuine_more_calls; [done| |done].
    destruct (inv_row _ Hinv gameId game row (or_intror Ha) Hrow) as [_ ->].
    rewrite fmap_app. intros x Hx. apply elem_of_app. by left. }
  destruct Hout as [|newId now Hfresh
    |gameId userId cardNumber now game place card user Hw Hst Hc Hu Hb
    |gameId newId now game Hw Hcount Hfresh
    |gameId random now game Hw Hcount Hrandom
    |gameId caller Hc Ha
    |gameId caller game now Hc Ha Hstop
    |gameId caller game now d Hc Ha Hstop Hd
    |gameId caller game now d card userId Hc Ha Hstop Hd Hwin Hin Hu Hcheck].
  - done.
  - simpl. apply (keyed_insert (genuine_winner _)); [by intros u Hu|done].
  - assert (Game_table (purchased (bool_decide ("Transaction" ∈ scope)) s
                          gameId userId cardNumber place card game now)
            = alter (with_pot (pot game + bet_amount (settings game))) gameId
                    (Game_table s)) as ->
      by (unfold purchased; by case_bool_decide).
    by apply Hpatch.
  - simpl. apply (keyed_insert (genuine_winner _)); [by intros u Hu|].
    by apply Hpatch.
  - simpl. by apply Hpatch.
  - done.
  - simpl. by apply Hpatch.
  - simpl. by eapply Hcalls.
  - set (called := called_numbers game ++ [with_called d]) in *.
    set (final := declared _ _ _ _ _ _ _) in *.
    assert (Game_table final
            = alter (settled (Some userId) (card_number card) now) gameId
                (alter (with_calls called (last_three called)) gameId
                   (Game_table s))) as ->.
    { unfold final, declared. by case_bool_decide; [case_bool_decide|]. }
    apply (keyed_alter (genuine_winner final)); [|by eapply Hcalls].
    intros row Hrow _ u Hwinner. simpl in Hwinner. injection Hwinner as <-.
    apply list_elem_of_filter in Hin as [[Hg _] Hin].
    apply list_elem_of_lookup in Hin as [i Hi].
    destruct (Hkept i card Hi) as (c' & Hi' & Hg' & Hn' & Hnum & Hu' & _);
      [by eexists|].
    exists (card_number card), i, c'.
    assert (Hcalled : called_numbers row = called).
    { rewrite lookup_alter_eq in Hrow.
      destruct (Game_table s !! gameId); [|done].
      by injection Hrow as <-. }
    assert (Hmarked : is_winner c' = true).
    { assert (Card_table final
              = (λ c, if bool_decide (card_game_id c = gameId
                                      ∧ card_number c = card_number card)
                      then with_is_winner c else c) <$> Card_table s) as Hcards.
      { unfold final, declared. by case_bool_decide; [case_bool_decide|]. }
      rewrite Hcards, list_lookup_fmap, Hi in Hi'. simpl in Hi'.
      rewrite bool_decide_eq_true_2 in Hi' by done.
      by injection Hi' as <-. }
    simpl. rewrite Hnum, Hcalled.
    repeat split; try done; congruence.
Qed.

(** X21.  The winner a row records is genuine.  In every state the engine
    can reach, when the row of a round names a winner, it names a winning
    card; that card is in the cards table under this round and number,
    belongs to that participant, is marked as the winner, and the win
    predicate holds of its grid on the called numbers of the row. *)
Theorem recorded_winner_is_genuine sin scope BET_AMOUNT HOUSE_FEE GAME_DURATION
    MAX_CARDS_PER_PLAYER s g row u :
  reachable sin scope BET_AMOUNT HOUSE_FEE GAME_DURATION MAX_CARDS_PER_PLAYER s →
  Game_table s !! g = Some row → winner_id row = Some u →
  ∃ n i c, winning_card row = Some n
    ∧ Card_table s !! i = Some c
    ∧ card_game_id c = g ∧ card_number c = n
    ∧ user_id c = Some u ∧ is_winner c = true
    ∧ checkCardForBingo (numbers c) (called_numbers row) = Some true.
Proof.
  intros Hreach Hrow Hu.
  assert (winner_inv s) as [Hrows _].
  { clear Hrow Hu. revert s Hreach.
    apply (reachable_ind _ _ _ _ _ _ winner_inv).
    - intros users. split; [|by apply Forall_nil].
      intros g' r H. simpl in H. by rewrite lookup_empty in H.
    - intros s s' Hinv IH Hout. by eapply winner_inv_outcome. }
  by apply (Hrows g row Hrow u).
Qed.

(** ** The runs of the examples *)

Lemma Math_random_pick : Math_random_ok random_pick.
Proof.
  intros k. unfold random_pick. eexists. split; [reflexivity|].
  unfold Qle, Qlt. simpl. rewrite Zpos_P_of_succ_nat.
  destruct (k =? 65) eqn:E1; [apply Nat.eqb_eq in E1; lia|].
  destruct (k =? 49) eqn:E2; [apply Nat.eqb_eq in E2; lia|].
  destruct (k =? 17) eqn:E3; [apply Nat.eqb_eq in E3; lia|].
  lia.
Qed.

Lemma run_purchased_run :
  rtc (step (λ q, q) source_scope 10 (5 # 100) 180 5)
      (initial_state run_users) run_purchased.
Proof.
  eapply rtc_r; [apply rtc_once|].
  - apply (step_createNewGame _ _ _ _ _ _ (initial_state run_users)
             sample_uuid 0). reflexivity.
  - apply step_purchaseCard.
Qed.

Lemma run_started_run :
  rtc (step (λ q, q) source_scope 10 (5 # 100) 180 5)
      (initial_state run_users) run_started.
Proof.
  eapply rtc_r; [exact run_purchased_run|]. unfold run_started.
  apply step_startGame;
    [exact run_purchased_fresh|done|exact Math_random_zero].
Qed.

Lemma run_tick_run s now :
  rtc (step (λ q, q) source_scope 10 (5 # 100) 180 5)
      (initial_state run_users) s →
  rtc (step (λ q, q) source_scope 10 (5 # 100) 180 5)
      (initial_state run_users) (run_tick now s).
Proof. intros Hrun. eapply rtc_r; [exact Hrun|]. by apply step_tick. Qed.

Lemma run_called_run :
  rtc (step (λ q, q) source_scope 10 (5 # 100) 180 5)
      (initial_state run_users) run_called.
Proof. unfold run_called. do 4 apply run_tick_run. exact run_started_run. Qed.

Lemma win_called_run :
  rtc (step (λ q, q) source_scope 10 (5 # 100) 180 5)
      (initial_state run_users) win_called.
Proof.
  unfold win_called. do 4 apply run_tick_run.
  eapply rtc_r; [exact run_purchased_run|]. unfold win_started.
  apply step_startGame;
    [exact run_purchased_fresh|done|exact Math_random_pick].
Qed.

Lemma run_called_reachable :
  reachable (λ q, q) source_scope 10 (5 # 100) 180 5 run_called.
Proof. exists run_users. exact run_called_run. Qed.

Lemma win_called_reachable :
  reachable (λ q, q) source_scope 10 (5 # 100) 180 5 win_called.
Proof. exists run_users. exact win_called_run. Qed.

(** ** The properties on the runs of the examples *)

Lemma current_calls_last_three_witness :
  ∃ row, Game_table run_called !! sample_uuid = Some row
    ∧ called_numbers row
      = [mkDraw lB 2 true; mkDraw lB 3 true; mkDraw lB 4 true;
         mkDraw lB 5 true]
    ∧ current_calls row
      = [mkDraw lB 3 true; mkDraw lB 4 true; mkDraw lB 5 true].
Proof.
  assert (∃ row, Game_table run_called !! sample_uuid = Some row
            ∧ called_numbers row
              = [mkDraw lB 2 true; mkDraw lB 3 true; mkDraw lB 4 true;
                 mkDraw lB 5 true]) as (row & Hrow & Hcalled).
  { vm_compute. eexists. split; reflexivity. }
  exists row. split; [exact Hrow|]. split; [exact Hcalled|].
  rewrite (current_calls_last_three (λ q, q) source_scope 10 (5 # 100) 180 5
             run_called sample_uuid row run_called_reachable
             (or_introl Hrow)).
  by rewrite Hcalled.
Defined.

Lemma cards_unique_and_complete_witness :
  card_number <$> cards_of run_called sample_uuid = seq 1 400.
Proof.
  apply (cards_unique_and_complete (λ q, q) source_scope 10 (5 # 100) 180 5
           run_called run_called_reachable).
  vm_compute. by eexists.
Defined.


Lemma called_numbers_are_bingo_numbers_witness :
  ∃ row, Game_table win_called !! sample_uuid = Some row
    ∧ Forall bingo_number (called_numbers row)
    ∧ length (called_numbers row) ≤ 75.
Proof.
  assert (is_Some (Game_table win_called !! sample_uuid)) as [row Hrow].
  { vm_compute. by eexists. }
  exists row. split; [exact Hrow|].
  exact (called_numbers_are_bingo_numbers (λ q, q) source_scope 10 (5 # 100)
           180 5 win_called sample_uuid row win_called_reachable Hrow).
Defined.

Lemma caller_stops_after_75_witness :
  tick_stops run_caller run_game 250000 = true
  ∧ (tick source_scope sample_uuid [] 250000 run_started).1
    = ended (set_callIntervals (delete sample_uuid) run_started) sample_uuid
            250000.
Proof.
  destruct (caller_stops_after_75 (λ q, q) source_scope 10 (5 # 100) 180 5
              run_started sample_uuid run_caller run_game [] 250000)
    as [Hiff Hrun].
  - exists run_users. exact run_started_run.
  - by vm_compute.
  - by vm_compute.
  - assert (Hstop : tick_stops run_caller run_game 250000 = true).
    { apply Hiff. left. by vm_compute. }
    split; [exact Hstop|exact (Hrun Hstop)].
Defined.


Lemma recorded_winner_is_genuine_witness :
  ∃ i c, Card_table win_called !! i = Some c
    ∧ card_number c = 7 ∧ user_id c = Some "player" ∧ is_winner c = true
    ∧ checkCardForBingo (numbers c) diagonal_calls = Some true.
Proof.
  assert (∃ row, Game_table win_called !! sample_uuid = Some row
            ∧ winner_id row = Some "player" ∧ winning_card row = Some 7
            ∧ called_numbers row = diagonal_calls)
    as (row & Hrow & Hw & Hcard & Hcalled).
  { vm_compute. eexists. repeat split; reflexivity. }
  destruct (recorded_winner_is_genuine (λ q, q) source_scope 10 (5 # 100) 180 5
              win_called sample_uuid row "player" win_called_reachable Hrow Hw)
    as (n & i & c & Hn & Hi & _ & Hnum & Hu & Hmark & Hcheck).
  exists i, c. rewrite Hcalled in Hcheck.
  split; [exact Hi|]. split; [congruence|]. by repeat split.
Defined.

(** ** Joining a round *)



(** ** Restoring the rounds at start-up *)

Lemma startCountdown_run gameId now s :
  startCountdown gameId now s
  = match waitingGames s !! gameId with
    | None => (s, inr false)
    | Some game =>
        if (start_time game - now <=? 0)%Z then (s, inr true)
        else (set_gameTimers (insert gameId (start_time game)) s, inr false)
    end.
Proof.
  unfold startCountdown. unfold bind at 1, get. cbv beta iota.
  destruct (waitingGames s !! gameId) as [game|]; [|done].
  cbv zeta. by destruct (_ <=? _)%Z.
Qed.

(** A row that was just put into the waiting map gets its start or its
    timer. *)
Lemma startCountdown_restored id game now s :
  let s0 := set_waitingGames (insert id game) s in
  startCountdown id now s0 = (s0, inr true)
  ∨ startCountdown id now s0
    = (set_gameTimers (insert id (start_time game)) s0, inr false).
Proof.
  cbv zeta. rewrite startCountdown_run. simpl. rewrite lookup_insert_eq.
  destruct (_ <=? _)%Z; [by left|by right].
Qed.

(** The loop stops at the first active row. *)
Lemma load_rows_stops clock pre id game post :
  Forall (λ r, game_status r.2 ≠ active) pre → game_status game = active →
  ∀ i started s,
    load_rows clock i (pre ++ (id, game) :: post) started s
    = load_rows clock i (pre ++ [(id, game)]) started s.
Proof.
  intros Hpre Hactive. induction Hpre as [|[id' game'] pre Hhead _ IH];
    intros i started s.
  - simpl. by rewrite Hactive.
  - simpl in Hhead. rewrite <- !app_comm_cons. cbn [load_rows].
    destruct (game_status game'); [|congruence|apply IH..].
    destruct (startCountdown _ _ _) as [s' [e|[]]]; apply IH.
Qed.

(** What the loop leaves of the maps when it meets its first active row. *)
Lemma load_rows_active clock pre id game :
  Forall (λ r, game_status r.2 ≠ active) pre → game_status game = active →
  ∀ i started s,
    let r := load_rows clock i (pre ++ [(id, game)]) started s in
    loaded_error r = Some (TypeError "this.resumeGame is not a function")
    ∧ activeGames (loaded_state r) = <[id := game]> (activeGames s)
    ∧ callIntervals (loaded_state r) = callIntervals s
    ∧ ∀ g, g ∉ pre.*1 →
        waitingGames (loaded_state r) !! g = waitingGames s !! g.
Proof.
  intros Hpre Hactive. induction Hpre as [|[id' game'] pre Hhead _ IH];
    intros i started s.
  - simpl. rewrite Hactive. by repeat split.
  - simpl in Hhead. rewrite <- app_comm_cons. cbn [load_rows].
    assert (∀ s' started',
              activeGames s' = activeGames s →
              callIntervals s' = callIntervals s →
              (∀ g, g ≠ id' → waitingGames s' !! g = waitingGames s !! g) →
              let r := load_rows clock (S i) (pre ++ [(id, game)]) started'
                                 s' in
              loaded_error r
              = Some (TypeError "this.resumeGame is not a function")
              ∧ activeGames (loaded_state r) = <[id := game]> (activeGames s)
              ∧ callIntervals (loaded_state r) = callIntervals s
              ∧ ∀ g, g ∉ ((id', game') :: pre).*1 →
                  waitingGames (loaded_state r) !! g = waitingGames s !! g)
      as Hrest.
    { intros s' started' Ha Hc Hw. cbv zeta.
      destruct (IH (S i) started' s') as (He & Ha' & Hc' & Hw').
      split; [exact He|]. split; [by rewrite Ha', Ha|].
      split; [by rewrite Hc'|].
      intros g Hg. rewrite fmap_cons, not_elem_of_cons in Hg.
      destruct Hg as [Hne Hg]. rewrite (Hw' g Hg). by apply Hw. }
    destruct (game_status game') eqn:Hst; [|congruence|by apply Hrest..].
    destruct (startCountdown_restored id' game' (clock i) s) as [->| ->];
      apply Hrest; try done;
      intros g Hne; simpl; by rewrite lookup_insert_ne.
Qed.

(** X23.  [loadActiveGames] stops at the first active row it retrieves:
    the call of the missing method [resumeGame] throws, so that row enters
    the active map without a caller, and the rows after it are not
    restored: the result is the one of the retrieved rows cut after that
    row, and a round that does not precede it is in the waiting map only if
    it was there before. *)
Theorem loadActiveGames_stops_at_active clock pre id game post s :
  Forall (λ r, game_status r.2 ≠ active) pre → game_status game = active →
  let r := loadActiveGames clock (pre ++ (id, game) :: post) s in
  r = loadActiveGames clock (pre ++ [(id, game)]) s
  ∧ loaded_error r = Some (TypeError "this.resumeGame is not a function")
  ∧ activeGames (loaded_state r) = <[id := game]> (activeGames s)
  ∧ callIntervals (loaded_state r) = callIntervals s
  ∧ ∀ g, g ∉ pre.*1 →
      waitingGames (loaded_state r) !! g = waitingGames s !! g.
Proof.
  intros Hpre Hactive. cbv zeta. unfold loadActiveGames.
  rewrite (load_rows_stops clock pre id game post Hpre Hactive).
  split; [done|]. by apply load_rows_active.
Qed.

(** What the loop does with waiting rows only. *)
Lemma load_rows_waiting clock rows :
  Forall (λ r, game_status r.2 = waiting) rows → NoDup rows.*1 →
  ∀ i started s,
    let r := load_rows clock i rows started s in
    loaded_error r = None
    ∧ activeGames (loaded_state r) = activeGames s
    ∧ (∀ g, g ∈ started → g ∈ loaded_started r)
    ∧ (∀ g, g ∉ rows.*1 →
         waitingGames (loaded_state r) !! g = waitingGames s !! g
         ∧ gameTimers (loaded_state r) !! g = gameTimers s !! g)
    ∧ ∀ g game, (g, game) ∈ rows →
        waitingGames (loaded_state r) !! g = Some game
        ∧ (g ∈ loaded_started r
           ∨ gameTimers (loaded_state r) !! g = Some (start_time game)).
Proof.
  intros Hrows. induction Hrows as [|[id game] rows Hhead _ IH];
    intros Hnodup i started s.
  - cbv zeta. simpl. do 4 (split; [done|]). intros g game Hin.
    by apply elem_of_nil in Hin.
  - simpl in Hhead. rewrite fmap_cons in Hnodup.
    apply NoDup_cons in Hnodup as [Hfresh Hnodup]. simpl in Hfresh.
    specialize (IH Hnodup). cbn [load_rows]. rewrite Hhead.
    assert (∀ s' started',
              activeGames s' = activeGames s →
              (∀ g, g ∈ started → g ∈ started') →
              waitingGames s' = <[id := game]> (waitingGames s) →
              (∀ g, g ≠ id → gameTimers s' !! g = gameTimers s !! g) →
              (id ∈ started' ∨ gameTimers s' !! id = Some (start_time game)) →
              let r := load_rows clock (S i) rows started' s' in
              loaded_error r = None
              ∧ activeGames (loaded_state r) = activeGames s
              ∧ (∀ g, g ∈ started → g ∈ loaded_started r)
              ∧ (∀ g, g ∉ ((id, game) :: rows).*1 →
                   waitingGames (loaded_state r) !! g = waitingGames s !! g
                   ∧ gameTimers (loaded_state r) !! g = gameTimers s !! g)
              ∧ ∀ g game0, (g, game0) ∈ (id, game) :: rows →
                  waitingGames (loaded_state r) !! g = Some game0
                  ∧ (g ∈ loaded_started r
                     ∨ gameTimers (loaded_state r) !! g
                       = Some (start_time game0))) as Hrest.
    { intros s' started' Ha Hs Hw Ht Hid. cbv zeta.
      destruct (IH (S i) started' s') as (He & Ha' & Hs' & Hout & Hin).
      split; [exact He|]. split; [by rewrite Ha'|].
      split; [intros g Hg; by apply Hs', Hs|]. split.
      - intros g Hg. rewrite fmap_cons, not_elem_of_cons in Hg.
        destruct Hg as [Hne Hg]. simpl in Hne.
        destruct (Hout g Hg) as [-> ->]. rewrite Hw.
        split; [by rewrite lookup_insert_ne|by apply Ht].
      - intros g game0 [[= -> ->]|Hg]%elem_of_cons.
        + destruct (Hout id Hfresh) as [-> ->]. rewrite Hw.
          split; [by rewrite lookup_insert_eq|].
          destruct Hid as [Hid|Hid]; [left; by apply Hs'|by right].
        + by apply Hin. }
    destruct (startCountdown_restored id game (clock i) s) as [->| ->].
    + apply Hrest; try done.
      * intros g Hg. apply elem_of_app. by left.
      * left. apply elem_of_app. right. by apply list_elem_of_singleton.
    + apply Hrest; try done.
      * intros g Hne. simpl. by rewrite lookup_insert_ne.
      * right. simpl. by rewrite lookup_insert_eq.
Qed.

(** X24.  When the retrieved rows are all waiting, with ids that differ,
    [loadActiveGames] restores each of them: nothing is thrown, every row
    is in the waiting map, and its round was started at once or has its
    countdown timer armed at its start time; the active map and the rounds
    that were not retrieved stay as they were. *)
Theorem loadActiveGames_restores_waiting clock retrieved s :
  Forall (λ r, game_status r.2 = waiting) retrieved → NoDup retrieved.*1 →
  let r := loadActiveGames clock retrieved s in
  loaded_error r = None
  ∧ activeGames (loaded_state r) = activeGames s
  ∧ (∀ g, g ∉ retrieved.*1 →
       waitingGames (loaded_state r) !! g = waitingGames s !! g
       ∧ gameTimers (loaded_state r) !! g = gameTimers s !! g)
  ∧ ∀ g game, (g, game) ∈ retrieved →
      waitingGames (loaded_state r) !! g = Some game
      ∧ (g ∈ loaded_started r
         ∨ gameTimers (loaded_state r) !! g = Some (start_time game)).
Proof.
  intros Hrows Hnodup. cbv zeta. unfold loadActiveGames.
  destruct (load_rows_waiting clock retrieved Hrows Hnodup 0 [] s)
    as (He & Ha & _ & Hout & Hin).
  split; [exact He|]. split; [exact Ha|]. split; [exact Hout|exact Hin].
Qed.

Lemma loadActiveGames_stops_at_active_witness :
  let round := new_game 10 (5 # 100) 180 5 0 in
  let r := loadActiveGames (λ _, 1000%Z)
             [("w", round); ("a", with_status active round); ("z", round)]
             (initial_state ∅) in
  activeGames (loaded_state r) !! "a" = Some (with_status active round)
  ∧ waitingGames (loaded_state r) !! "z" = None.
Proof.
  cbv zeta.
  destruct (loadActiveGames_stops_at_active (λ _, 1000%Z)
              [("w", new_game 10 (5 # 100) 180 5 0)] "a"
              (with_status active (new_game 10 (5 # 100) 180 5 0))
              [("z", new_game 10 (5 # 100) 180 5 0)] (initial_state ∅))
    as (_ & _ & Ha & _ & Hw).
  - by repeat constructor.
  - reflexivity.
  - split.
    + etrans; [exact (f_equal (λ m, m !! "a") Ha)|]. by rewrite lookup_insert_eq.
    + apply Hw. simpl. rewrite list_elem_of_singleton. done.
Defined.

Lemma loadActiveGames_restores_waiting_witness :
  let early := new_game 10 (5 # 100) 180 5 0 in
  let late := new_game 10 (5 # 100) 180 5 60000 in
  let r := loadActiveGames (λ _, 50000%Z) [("early", early); ("late", late)]
             (initial_state ∅) in
  waitingGames (loaded_state r) !! "late" = Some late
  ∧ ("late" ∈ loaded_started r
     ∨ gameTimers (loaded_state r) !! "late" = Some (start_time late)).
Proof.
  cbv zeta.
  apply (loadActiveGames_restores_waiting (λ _, 50000%Z)
           [("early", new_game 10 (5 # 100) 180 5 0);
            ("late", new_game 10 (5 # 100) 180 5 60000)] (initial_state ∅)).
  - by repeat constructor.
  - simpl. apply NoDup_cons. split.
    + rewrite list_elem_of_singleton. done.
    + apply NoDup_singleton.
  - rewrite !elem_of_cons. right. by left.
Defined.

(** ** The referral code *)

Lemma length_append (s1 s2 : string) :
  String.length (s1 +:+ s2) = String.length s1 + String.length s2.
Proof. induction s1 as [|c s1 IH]; simpl; [done|by rewrite IH]. Qed.

Lemma list_ascii_of_append (s1 s2 : string) :
  String.list_ascii_of_string (s1 +:+ s2)
  = String.list_ascii_of_string s1 ++ String.list_ascii_of_string s2.
Proof. induction s1 as [|c s1 IH]; simpl; [done|by rewrite IH]. Qed.

Lemma get_elem_of (s : string) n c :
  String.get n s = Some c → c ∈ String.list_ascii_of_string s.
Proof.
  revert n. induction s as [|c' s IH]; intros n; simpl; [done|].
  destruct n as [|n].
  - intros [= ->]. by left.
  - intros H. right. by apply (IH n).
Qed.

Lemma get_is_Some (s : string) n :
  n < String.length s → is_Some (String.get n s).
Proof.
  revert n. induction s as [|c s IH]; intros n; simpl; [lia|].
  destruct n as [|n]; [by eexists|]. intros H. apply IH. lia.
Qed.

(** One draw of [Math.random()] picks one character of [chars]. *)
Lemma charAt_random (r : Q) :
  (0 <= r)%Q → (r < 1)%Q →
  ∃ c, charAt chars (Math_floor (number_mul (Finite r)
                                   (number_of_nat (String.length chars))))
       = String c EmptyString
       ∧ c ∈ String.list_ascii_of_string chars.
Proof.
  intros H0 H1. unfold number_of_nat, number_mul, Math_floor, charAt.
  set (n := String.length chars).
  set (z := Qfloor (r * inject_Z (Z.of_nat n))).
  assert (0 <= z < 36)%Z as Hz.
  { subst z n. change (Z.of_nat (String.length chars)) with 36%Z. split.
    - change 0%Z with (Qfloor (inject_Z 0)). apply Qfloor_resp_le.
      change (inject_Z 0) with 0%Q.
      apply Qmult_le_0_compat; [done|]. by unfold Qle.
    - apply Z.lt_nge. intros Hge.
      assert (inject_Z 36 <= r * inject_Z 36)%Q as Hle.
      { eapply Qle_trans; [|apply Qfloor_le]. by rewrite <- Zle_Qle. }
      assert (inject_Z 36 == 36)%Q as E by reflexivity.
      rewrite E in Hle. lra. }
  assert (Qle_bool 0 (inject_Z z) = true) as ->.
  { apply Qle_bool_iff. change 0%Q with (inject_Z 0). rewrite <- Zle_Qle. lia. }
  rewrite Qfloor_Z. destruct (Z.ltb_spec z 0) as [?|_]; [lia|].
  destruct (get_is_Some chars (Z.to_nat z)) as [c Hc].
  { change (String.length chars) with 36. lia. }
  rewrite Hc. exists c. split; [done|]. by apply (get_elem_of _ (Z.to_nat z)).
Qed.

Lemma referral_code_grows (random : nat → number) :
  Math_random_ok random →
  ∀ (l : list nat) (code : string),
    let code' :=
      foldl (λ code i,
               code +:+ charAt chars
                          (Math_floor (number_mul (random i)
                                         (number_of_nat
                                            (String.length chars)))))
            code l in
    String.length code' = String.length code + length l
    ∧ ((∀ c, c ∈ String.list_ascii_of_string code →
             c ∈ String.list_ascii_of_string chars) →
       ∀ c, c ∈ String.list_ascii_of_string code' →
            c ∈ String.list_ascii_of_string chars).
Proof.
  intros Hrandom l. induction l as [|i l IH]; intros code; cbv zeta.
  - simpl. split; [lia|done].
  - cbn [foldl]. destruct (Hrandom i) as (r & -> & H0 & H1).
    destruct (charAt_random r H0 H1) as (c & -> & Hc).
    destruct (IH (code +:+ String c EmptyString)) as [Hlen Hin].
    split.
    + rewrite Hlen, length_append. simpl. lia.
    + intros Hcode. apply Hin. intros c'. rewrite list_ascii_of_append.
      simpl. rewrite elem_of_app, list_elem_of_singleton.
      intros [?| ->]; [by apply Hcode|exact Hc].
Qed.

(** X25.  With draws of [Math.random()] (numbers in [0, 1)), the referral
    code has exactly eight characters, each a capital letter or a digit of
    [chars]: [charAt] is never called out of range. *)
Theorem generateReferralCode_shape (random : nat → number) :
  Math_random_ok random →
  String.length (generateReferralCode random) = 8
  ∧ ∀ c, c ∈ String.list_ascii_of_string (generateReferralCode random) →
         c ∈ String.list_ascii_of_string chars.
Proof.
  intros Hrandom.
  destruct (referral_code_grows random Hrandom (seq 0 8) EmptyString)
    as [Hlen Hin].
  split; [exact Hlen|]. apply Hin. intros c Hc. simpl in Hc.
  by apply elem_of_nil in Hc.
Qed.

Lemma generateReferralCode_shape_witness :
  String.length (generateReferralCode (λ _, Finite 0)) = 8.
Proof.
  apply (generateReferralCode_shape (λ _, Finite 0)). exact Math_random_zero.
Defined.

(** ** The notification queue *)

Lemma loop_head_keeps {Data} (t : Telegram Data) :
  concat (handed (loop_head t)) ++ notificationQueue (loop_head t)
  = concat (handed t) ++ notificationQueue t
  ∧ (Forall (λ batch, 1 ≤ length batch ≤ 10) (handed t) →
     Forall (λ batch, 1 ≤ length batch ≤ 10) (handed (loop_head t)))
  ∧ (isProcessing (loop_head t) = false → notificationQueue (loop_head t) = []).
Proof.
  unfold loop_head. destruct (notificationQueue t) as [|n q] eqn:Hq.
  - simpl. by rewrite !app_nil_r.
  - cbn [handed notificationQueue isProcessing]. split; [|split].
    + rewrite concat_app. cbn [concat]. rewrite app_nil_r, <- app_assoc.
      by rewrite take_drop.
    + intros Hall. apply Forall_app. split; [exact Hall|].
      apply Forall_singleton. rewrite length_take. cbn [length]. lia.
    + done.
Qed.

Lemma queued_Notify {Data} players gameId type (data : Data) :
  queued [Notify players gameId type data]
  = (λ player, mkNotification (telegramChatId player) type data gameId)
    <$> players.
Proof. unfold queued. simpl. by rewrite app_nil_r. Qed.

Lemma react_keeps {Data} (t : Telegram Data) (e : event Data) :
  (isProcessing t = false → notificationQueue t = []) →
  concat (handed (react t e)) ++ notificationQueue (react t e)
  = (concat (handed t) ++ notificationQueue t) ++ queued [e]
  ∧ (Forall (λ batch, 1 ≤ length batch ≤ 10) (handed t) →
     Forall (λ batch, 1 ≤ length batch ≤ 10) (handed (react t e)))
  ∧ (isProcessing (react t e) = false → notificationQueue (react t e) = []).
Proof.
  intros Hidle. destruct e as [players gameId type data|]; cbn [react].
  - rewrite queued_Notify. unfold sendGameNotification. cbn [isProcessing].
    destruct (isProcessing t) eqn:Hp.
    + cbn [handed notificationQueue isProcessing].
      split; [by rewrite app_assoc|]. split; [done|done].
    + unfold processNotificationQueue.
      cbn [handed notificationQueue isProcessing].
      match goal with |- context [loop_head ?t0] =>
        destruct (loop_head_keeps t0) as (Hcat & Hall & Hq) end.
      cbn [handed notificationQueue isProcessing] in *.
      split; [by rewrite Hcat, app_assoc|]. split; [exact Hall|exact Hq].
  - change (queued [Resume]) with (@nil (Notification Data)).
    rewrite app_nil_r. unfold resume.
    destruct (isProcessing t) eqn:Hp.
    + destruct (loop_head_keeps t) as (Hcat & Hall & Hq).
      split; [exact Hcat|]. split; [exact Hall|exact Hq].
    + split; [done|]. split; [done|]. intros _. by apply Hidle.
Qed.

(** X26.  Whatever calls of [sendGameNotification] and resumptions of the
    loop of [processNotificationQueue] have happened, the notifications
    handed to [sendIndividualNotification], batch after batch, followed by
    those still in the queue, are the notifications that were queued, in
    their order, each once; every batch holds from one to ten of them; and
    when the service is not processing its queue is empty. *)
Theorem notifications_in_order {Data} (events : list (event Data)) :
  let t := service_after events in
  concat (handed t) ++ notificationQueue t = queued events
  ∧ Forall (λ batch, 1 ≤ length batch ≤ 10) (handed t)
  ∧ (isProcessing t = false → notificationQueue t = []).
Proof.
  cbv zeta. induction events as [|e events IH] using rev_ind.
  - unfold service_after, queued. simpl. by repeat split.
  - destruct IH as (Hcat & Hall & Hidle).
    unfold service_after. rewrite foldl_snoc. fold (service_after events).
    destruct (react_keeps (service_after events) e Hidle)
      as (Hcat' & Hall' & Hidle').
    split; [|split; [by apply Hall'|exact Hidle']].
    rewrite Hcat', Hcat. unfold queued. by rewrite bind_app.
Qed.

(** Without a loop to resume, resuming does nothing. *)
Lemma resume_idle {Data} (j : nat) (t : Telegram Data) :
  isProcessing t = false → Nat.iter j resume t = t.
Proof.
  intros Hp. induction j as [|j IH]; [done|].
  rewrite Nat.iter_succ, IH. unfold resume. by rewrite Hp.
Qed.

(** X27.  While the service is processing, resuming its loop often enough
    with no call in between (once more than a tenth of the length of the
    queue, rounded up, or more often) empties the queue: every queued
    notification is handed over, in order, and the flag is cleared. *)
Theorem queue_drains {Data} (t : Telegram Data) (k : nat) :
  isProcessing t = true → length (notificationQueue t) ≤ 10 * k →
  let t' := Nat.iter (S k) resume t in
  isProcessing t' = false
  ∧ notificationQueue t' = []
  ∧ concat (handed t') = concat (handed t) ++ notificationQueue t.
Proof.
  cbv zeta. revert t. induction k as [|k IH]; intros t Hp Hlen.
  - destruct (notificationQueue t) as [|n q] eqn:Hq; [|simpl in Hlen; lia].
    simpl. unfold resume, loop_head. rewrite Hp, Hq. simpl.
    by rewrite app_nil_r.
  - rewrite Nat.iter_succ_r.
    destruct (notificationQueue t) as [|n q] eqn:Hq.
    + assert (resume t = mkTelegram [] false (handed t)) as ->.
      { unfold resume, loop_head. by rewrite Hp, Hq. }
      rewrite resume_idle by done. simpl. by rewrite app_nil_r.
    + assert (resume t
              = mkTelegram (drop 10 (n :: q)) true
                           (handed t ++ [take 10 (n :: q)])) as ->.
      { unfold resume, loop_head. by rewrite Hp, Hq. }
      destruct (IH (mkTelegram (drop 10 (n :: q)) true
                               (handed t ++ [take 10 (n :: q)])))
        as (Hp' & Hq' & Hcat); [done|..].
      { cbn [notificationQueue]. rewrite length_drop. lia. }
      split; [exact Hp'|]. split; [exact Hq'|]. rewrite Hcat.
      cbn [handed notificationQueue]. rewrite concat_app. cbn [concat].
      rewrite app_nil_r, <- app_assoc. by rewrite take_drop.
Qed.

Lemma queue_drains_witness :
  let players := mkPlayer <$> (Some <$> seqZ 1 12) in
  let t := sendGameNotification players sample_uuid "NUMBER_CALLED" tt
             new_TelegramService in
  length (notificationQueue t) = 2
  ∧ notificationQueue (Nat.iter 2 resume t) = []
  ∧ isProcessing (Nat.iter 2 resume t) = false.
Proof.
  cbv zeta. split; [reflexivity|].
  destruct (queue_drains
              (sendGameNotification (mkPlayer <$> (Some <$> seqZ 1 12))
                 sample_uuid "NUMBER_CALLED" tt new_TelegramService) 1)
    as (Hp & Hq & _).
  - reflexivity.
  - simpl. lia.
  - split; [exact Hq|exact Hp].
Defined.
